(** * CORScanner: the origin-probe engine and its worker pool

    A shallow embedding of [main.go] (package [main] of CORScanner) and of
    the few library functions its verdicts depend on ([strings.Split],
    [strings.HasSuffix], [strings.Contains], [strings.TrimSpace],
    [strconv.Atoi], [http.Header.Get], [publicsuffix.PublicSuffix]).

    Go strings are byte sequences: they are Rocq [string]s.  Go's [int] is
    64 bits wide on the platforms the tool is built for: it is a [Z], with
    the wrap-around and the clamping written out where the code has them.
    Console output (the banner, the progress line, the JSON dump) is not
    modelled; the files written at the end are, as the operations asked of
    the file system. *)

From Stdlib Require Import ZArith Lia Bool Ascii String List.
From stdpp Require Import base option list strings gmap.

Import ListNotations.
Local Open Scope string_scope.
Local Open Scope Z_scope.

(** ** Package [strings] *)

Module gostrings.

(** [s[n:]] *)
Fixpoint drop (n : nat) (s : string) : string :=
  match n, s with
  | O, _ => s
  | S _, EmptyString => EmptyString
  | S n', String _ s' => drop n' s'
  end.

(** [s[:n]] *)
Fixpoint take (n : nat) (s : string) : string :=
  match n, s with
  | O, _ => EmptyString
  | S _, EmptyString => EmptyString
  | S n', String c s' => String c (take n' s')
  end.

(** [strings.HasPrefix(s, prefix)] *)
Fixpoint HasPrefix (s prefix : string) : bool :=
  match prefix, s with
  | EmptyString, _ => true
  | String _ _, EmptyString => false
  | String a p', String b s' => Ascii.eqb a b && HasPrefix s' p'
  end.

(** [strings.HasSuffix(s, suffix)]:
    [len(s) >= len(suffix) && s[len(s)-len(suffix):] == suffix] *)
Definition HasSuffix (s suffix : string) : bool :=
  (String.length suffix <=? String.length s)%nat
  && String.eqb (drop (String.length s - String.length suffix) s) suffix.

(** [strings.Index(s, substr)]; Go's -1 is [None]. *)
Fixpoint Index (s substr : string) : option nat :=
  if HasPrefix s substr then Some O
  else match s with
       | EmptyString => None
       | String _ s' => S <$> Index s' substr
       end.

(** [strings.Contains(s, substr)]: [Index(s, substr) >= 0] *)
Definition Contains (s substr : string) : bool :=
  bool_decide (is_Some (Index s substr)).

(** [strings.LastIndexByte(s, c)]; Go's -1 is [None]. *)
Fixpoint LastIndexByte (s : string) (c : ascii) : option nat :=
  match s with
  | EmptyString => None
  | String a s' =>
      match LastIndexByte s' c with
      | Some i => Some (S i)
      | None => if Ascii.eqb a c then Some O else None
      end
  end.

(** [strings.Count(s, substr)] for a non-empty [substr]: the loop
    [for { i := Index(s, substr); if i == -1 { return n }; n++;
           s = s[i+len(substr):] }], which consumes at least one byte per
    round, so [len(s)] rounds are enough. *)
Fixpoint Count_loop (rounds : nat) (s substr : string) : nat :=
  match rounds with
  | O => O
  | S rounds' =>
      match Index s substr with
      | None => O
      | Some i => S (Count_loop rounds' (drop (i + String.length substr) s) substr)
      end
  end.

Definition Count (s substr : string) : nat :=
  Count_loop (String.length s) s substr.

(** [genSplit(s, sep, 0, n)] with [n - 1] separators still to cut at:
    [for i < n-1 { m := Index(s, sep); if m < 0 { break };
                   a[i] = s[:m]; s = s[m+len(sep):]; i++ }; a[i] = s] *)
Fixpoint genSplit (cuts : nat) (s sep : string) : list string :=
  match cuts with
  | O => [s]
  | S cuts' =>
      match Index s sep with
      | None => [s]
      | Some m => take m s :: genSplit cuts' (drop (m + String.length sep) s) sep
      end
  end.

(** [strings.Split(s, sep)] for a non-empty [sep] (the uses are with
    [","] and with a newline): [genSplit(s, sep, 0, -1)], where
    [n = Count(s, sep) + 1]. *)
Definition Split (s sep : string) : list string :=
  genSplit (Count s sep) s sep.

End gostrings.

(** ** Package [strconv] *)

Module strconv.

Inductive NumError := ErrSyntax | ErrRange.

Definition byte (c : ascii) : Z := Z.of_nat (nat_of_ascii c).

(** [intSize]: the tool runs on 64-bit platforms. *)
Definition intSize : Z := 64.
Definition maxUint64 : Z := 2 ^ 64 - 1.

(** [lower(c)]: [c | ('x' - 'X')] *)
Definition lower (c : Z) : Z := Z.lor c 32.

(** The digit loop of [ParseUint(s, 10, 64)]: [cutoff = maxUint64/10 + 1],
    [maxVal = 1<<64 - 1]; [n] is a [uint64]. *)
Fixpoint ParseUint_loop (s : string) (n : Z) : Z * option NumError :=
  match s with
  | EmptyString => (n, None)
  | String ch s' =>
      let c := byte ch in
      let base := 10 in
      let cutoff := maxUint64 / 10 + 1 in
      let maxVal := maxUint64 in
      let digit :=
        if (48 <=? c) && (c <=? 57) then Some (c - 48)
        else if (97 <=? lower c) && (lower c <=? 122) then Some (lower c - 97 + 10)
        else None in
      match digit with
      | None => (0, Some ErrSyntax)
      | Some d =>
          if base <=? d then (0, Some ErrSyntax)
          else if cutoff <=? n then (maxVal, Some ErrRange)
          else
            let n10 := (n * base) mod 2 ^ 64 in
            let n1 := (n10 + d) mod 2 ^ 64 in
            if (n1 <? n10) || (maxVal <? n1) then (maxVal, Some ErrRange)
            else ParseUint_loop s' n1
      end
  end.

(** [ParseUint(s, 10, 0)] *)
Definition ParseUint (s : string) : Z * option NumError :=
  match s with
  | EmptyString => (0, Some ErrSyntax)
  | _ => ParseUint_loop s 0
  end.

(** [ParseInt(s, 10, 0)] *)
Definition ParseInt (s : string) : Z * option NumError :=
  match s with
  | EmptyString => (0, Some ErrSyntax)
  | String s0 rest =>
      let neg := Ascii.eqb s0 "-" in
      let s1 := if Ascii.eqb s0 "+" then rest
                else if Ascii.eqb s0 "-" then rest else s in
      match ParseUint s1 with
      | (_, Some ErrSyntax) => (0, Some ErrSyntax)
      | (un, _) =>
          let cutoff := 2 ^ (intSize - 1) in
          if negb neg && (cutoff <=? un) then (cutoff - 1, Some ErrRange)
          else if neg && (cutoff <? un) then (- cutoff, Some ErrRange)
          else (if neg then - un else un, None)
      end
  end.

(** The fast path of [Atoi], taken when [0 < len(s) < 19]: the digits
    cannot overflow an [int]. [ch -= '0'] is byte arithmetic. *)
Fixpoint Atoi_digits (s : string) (n : Z) : option Z :=
  match s with
  | EmptyString => Some n
  | String ch s' =>
      let d := (byte ch - 48) mod 256 in
      if 9 <? d then None else Atoi_digits s' (n * 10 + d)
  end.

Definition Atoi_fast (s0 : string) : Z * option NumError :=
  match s0 with
  | EmptyString => (0, Some ErrSyntax)
  | String c0 rest =>
      let signed := Ascii.eqb c0 "-" || Ascii.eqb c0 "+" in
      let s := if signed then rest else s0 in
      if signed && (String.length s <? 1)%nat then (0, Some ErrSyntax)
      else match Atoi_digits s 0 with
           | None => (0, Some ErrSyntax)
           | Some n => (if Ascii.eqb c0 "-" then - n else n, None)
           end
  end.

(** [strconv.Atoi(s)]: the value and the error, which the caller may
    drop. *)
Definition Atoi (s : string) : Z * option NumError :=
  let sLen := String.length s in
  if (0 <? sLen)%nat && (sLen <? 19)%nat then Atoi_fast s
  else ParseInt s.

End strconv.

(** ** The scanner's own header parsing *)

Definition parseHeader (header : string) : list string :=
  if String.eqb header "" then [] else gostrings.Split header ",".


(** ** Package [golang.org/x/net/publicsuffix]

    The compiled rule table is not part of the scanner: it is given here as
    a tree of labels, top-level domains first.  [PublicSuffix] is the walk
    of the library over that table, from the last label of its argument
    leftwards. *)

Module publicsuffix.

Inductive nodeType := nodeTypeNormal | nodeTypeException | nodeTypeParentOnly.

#[local] Unset Elimination Schemes.
Inductive node :=
  Node (text : string) (ty : nodeType) (wildcard : bool) (children : list node).
#[local] Set Elimination Schemes.

Definition text_of (n : node) : string := let 'Node t _ _ _ := n in t.

(** [find(label, lo, hi)]: the node of that label among the children. *)
Fixpoint find (label : string) (kids : list node) : option node :=
  match kids with
  | [] => None
  | n :: kids' => if String.eqb (text_of n) label then Some n else find label kids'
  end.

(** One round per label of [s]; [rounds] bounds the number of labels.
    The result is the offset [suffix] at which the public suffix starts. *)
Fixpoint walk (rounds : nat) (s : string) (suffix : nat) (wildcard : bool)
    (kids : list node) : nat :=
  match rounds with
  | O => suffix
  | S rounds' =>
      let dot := gostrings.LastIndexByte s "." in
      let dot1 := match dot with Some i => S i | None => O end in
      let suffix := if wildcard then dot1 else suffix in
      match kids with
      | [] => suffix
      | _ =>
          match find (gostrings.drop dot1 s) kids with
          | None => suffix
          | Some (Node _ nodeTypeException _ _) => S (String.length s)
          | Some (Node _ ty wildcard' kids') =>
              let suffix := match ty with nodeTypeNormal => dot1 | _ => suffix end in
              match dot with
              | None => suffix
              | Some d => walk rounds' (gostrings.take d s) suffix wildcard' kids'
              end
          end
      end
  end.

(** [PublicSuffix(domain)], first result.  When no rule matches, the
    prevailing rule is ["*"]: the text after the last dot. *)
Definition PublicSuffix (table : list node) (domain : string) : string :=
  let suffix := walk (S (String.length domain)) domain (String.length domain) false table in
  if (suffix =? String.length domain)%nat then
    match gostrings.LastIndexByte domain "." with
    | Some i => gostrings.drop (S i) domain
    | None => domain
    end
  else gostrings.drop suffix domain.

End publicsuffix.

(** ** Packages [net/url] and [net/http], as far as the scanner uses them *)

Module neturl.
Record URL := { Scheme : string; Host : string }.
End neturl.

Module http.

(** [http.Header] is a [map[string][]string]. *)
Abbreviation HeaderMap := (gmap string (list string)).

(** [h.Get(key)]: the first value of the key, or [""]. The keys the
    scanner asks for are already in canonical form. *)
Definition Get (h : HeaderMap) (key : string) : string :=
  match h !! key with
  | Some (v :: _) => v
  | _ => ""
  end.

Record Response := { StatusCode : Z; Header : HeaderMap }.

(** A request as the scanner builds it: a method, a URL and one header. *)
Record Request := { Method : string; URL : string; Origin : string }.

Record Client := { Timeout : Z }.

End http.

(** ** Data model *)

Record CORSConfig := {
  AllowOrigins : list string;
  AllowMethods : list string;
  AllowHeaders : list string;
  ExposeHeaders : list string;
  MaxAge : Z;
  AllowCredentials : string
}.

Record CORSResult := {
  URL : string;
  StatusCode : Z;
  corsConfig : CORSConfig;
  Vulnerable : bool;
  Vulnerability : string
}.

(** What the scanner takes from its libraries for a given URL string:
    whether [http.NewRequest("GET", url, nil)] succeeds, what
    [neturl.Parse(url)] returns, and [publicsuffix.PublicSuffix]. *)
Record Env := {
  NewRequest : string -> bool;
  Parse : string -> option neturl.URL;
  PublicSuffix : string -> string
}.

(** ** Programs of one probe

    [checkCORS] talks to the network and to the results channel. It is a
    tree of those two interactions; [Return] tells why the function
    returned. [Do] is one call of [client.Do]: the request goes out, and
    the client returns the final response (its header map with canonical
    keys) or an error. *)

Inductive Exit :=
| Completed      (* fell off the end of the function *)
| ErrCreate      (* http.NewRequest failed *)
| ErrRequest     (* client.Do failed *)
| ErrParseURL    (* neturl.Parse failed *)
| PanicIndex.    (* index out of range *)

Inductive Prog :=
| Return (e : Exit)
| Do (client : http.Client) (req : http.Request) (k : option http.Response -> Prog)
| Send (result : CORSResult) (k : Prog).

(** [l[0]], which panics on an empty slice. *)
Definition at0 (l : list string) (k : string -> Prog) : Prog :=
  match l !! 0%nat with
  | Some x => k x
  | None => Return PanicIndex
  end.

Notation "'let!' x ':=' l '[0]' 'in' k" := (at0 l (fun x => k))
  (at level 10, x name, k at level 200, only parsing).

(** The six assignments made after every response. *)
Definition readConfig (resp : http.Response) : CORSConfig :=
  let h := http.Header resp in
  {| AllowOrigins := [http.Get h "Access-Control-Allow-Origin"];
     AllowMethods := parseHeader (http.Get h "Access-Control-Allow-Methods");
     AllowHeaders := parseHeader (http.Get h "Access-Control-Allow-Headers");
     ExposeHeaders := parseHeader (http.Get h "Access-Control-Expose-Headers");
     MaxAge := fst (strconv.Atoi (http.Get h "Access-Control-Max-Age"));
     AllowCredentials := http.Get h "Access-Control-Allow-Credentials" |}.

Definition msgWildcard : string :=
  "Wildcard origin (*) is set, which can allow malicious scripts to make requests on behalf of the user.".
Definition msgNull : string :=
  "Null origin is allowed, which can allow malicious scripts to make requests on behalf of the user.".
Definition msgSameDomain : string :=
  "Origin allows the same domain as the target URL, which can allow malicious scripts to make requests on behalf of the user.".
Definition msgDifferentDomain : string :=
  "Origin allows a different domain, which can allow malicious scripts to make requests on behalf of the user.".

(** The local variables that live across the three blocks. *)
Record Locals := {
  resp : http.Response;
  config : CORSConfig;
  vulnerable : bool;
  vulnerability : string
}.

Section Engine.

Variable E : Env.

Definition GET (url origin : string) : http.Request :=
  {| http.Method := "GET"; http.URL := url; http.Origin := origin |}.

(** Lines 156-166: build the result, send it when vulnerable. *)
Definition finish (url : string) (st : Locals) : Prog :=
  let result := {| URL := url;
                   StatusCode := http.StatusCode (resp st);
                   corsConfig := config st;
                   Vulnerable := vulnerable st;
                   Vulnerability := vulnerability st |} in
  if vulnerable st then Send result (Return Completed) else Return Completed.

(** Lines 122-154: the origin of the target itself. *)
Definition probe3 (client : http.Client) (url : string) (st : Locals) : Prog :=
  if negb (vulnerable st) then
    match Parse E url with
    | None => Return ErrParseURL
    | Some u =>
        if negb (NewRequest E url) then Return ErrCreate else
        let origin := neturl.Scheme u ++ "://" ++ neturl.Host u in
        Do client (GET url origin) (fun r =>
          match r with
          | None => Return ErrRequest
          | Some resp =>
              let cfg := readConfig resp in
              let! a := AllowOrigins cfg [0] in
              if String.eqb a (neturl.Scheme u ++ "://" ++ neturl.Host u)
              then finish url {| resp := resp; config := cfg; vulnerable := true;
                                 vulnerability := msgSameDomain |}
              else finish url {| resp := resp; config := cfg;
                                 vulnerable := vulnerable st;
                                 vulnerability := vulnerability st |}
          end)
    end
  else finish url st.

(** Lines 94-120: a third-party origin. *)
Definition probe2 (client : http.Client) (url : string) (st : Locals) : Prog :=
  if negb (vulnerable st) then
    if negb (NewRequest E url) then Return ErrCreate else
    Do client (GET url "http://example.com") (fun r =>
      match r with
      | None => Return ErrRequest
      | Some resp =>
          let cfg := readConfig resp in
          let! a := AllowOrigins cfg [0] in
          if String.eqb a "http://example.com"
          then probe3 client url {| resp := resp; config := cfg; vulnerable := true;
                                    vulnerability := msgDifferentDomain |}
          else probe3 client url {| resp := resp; config := cfg;
                                    vulnerable := vulnerable st;
                                    vulnerability := vulnerability st |}
      end)
  else probe3 client url st.

(** Lines 77-92: the verdict on the answer to [Origin: null]. *)
Definition verdict1 (url : string) (resp : http.Response) (cfg : CORSConfig)
    (k : Locals -> Prog) : Prog :=
  let st v msg := {| resp := resp; config := cfg; vulnerable := v; vulnerability := msg |} in
  let! a := AllowOrigins cfg [0] in
  if String.eqb a "*" then k (st true msgWildcard)
  else
    let! a := AllowOrigins cfg [0] in
    if String.eqb a "null" then k (st true msgNull)
    else
      let eTLD := PublicSuffix E url in
      if negb (String.eqb eTLD "") then
        let! a := AllowOrigins cfg [0] in
        if gostrings.HasSuffix a eTLD then k (st true msgSameDomain)
        else k (st false "")
      else k (st false "").

(** [checkCORS(url, to, results)] *)
Definition checkCORS (url : string) (to : Z) : Prog :=
  let client := {| http.Timeout := to |} in
  if negb (NewRequest E url) then Return ErrCreate else
  Do client (GET url "null") (fun r =>
    match r with
    | None => Return ErrRequest
    | Some resp =>
        verdict1 url resp (readConfig resp) (probe2 client url)
    end).

End Engine.

(** ** One probe against a server

    The network is a state [W] and a function [serve] that answers a
    request (or fails to) and moves the state. *)

Record Trace (W : Type) := {
  exit : Exit;
  exchanges : list (http.Request * option http.Response);
  emitted : list CORSResult;
  after : W
}.
Arguments exit {W}.
Arguments exchanges {W}.
Arguments emitted {W}.
Arguments after {W}.

Section Network.

Context {W : Type}.
Variable serve : W -> http.Client -> http.Request -> W * option http.Response.

Fixpoint run (p : Prog) (w : W) : Trace W :=
  match p with
  | Return e => {| exit := e; exchanges := []; emitted := []; after := w |}
  | Do client req k =>
      let answer := serve w client req in
      let t := run (k (snd answer)) (fst answer) in
      {| exit := exit t; exchanges := (req, snd answer) :: exchanges t;
         emitted := emitted t; after := after t |}
  | Send result k =>
      let t := run k w in
      {| exit := exit t; exchanges := exchanges t;
         emitted := result :: emitted t; after := after t |}
  end.

End Network.

(** ** The collector of [main] (lines 244-259) *)

Record Buckets := {
  nullOriginResults : list CORSResult;
  wildcardOriginResults : list CORSResult;
  domainOriginResults : list CORSResult;
  differentDomainResults : list CORSResult
}.

Definition noBuckets : Buckets :=
  {| nullOriginResults := []; wildcardOriginResults := [];
     domainOriginResults := []; differentDomainResults := [] |}.

Inductive Category := NullOrigin | WildcardOrigin | SameDomain | DifferentDomain.

(** The [switch] of the collector: the first case that matches. *)
Definition category (r : CORSResult) : option Category :=
  if gostrings.Contains (Vulnerability r) "Null origin" then Some NullOrigin
  else if gostrings.Contains (Vulnerability r) "Wildcard origin" then Some WildcardOrigin
  else if gostrings.Contains (Vulnerability r) "same domain" then Some SameDomain
  else if gostrings.Contains (Vulnerability r) "different domain" then Some DifferentDomain
  else None.

Definition categorize (b : Buckets) (r : CORSResult) : Buckets :=
  match category r with
  | Some NullOrigin =>
      {| nullOriginResults := nullOriginResults b ++ [r];
         wildcardOriginResults := wildcardOriginResults b;
         domainOriginResults := domainOriginResults b;
         differentDomainResults := differentDomainResults b |}
  | Some WildcardOrigin =>
      {| nullOriginResults := nullOriginResults b;
         wildcardOriginResults := wildcardOriginResults b ++ [r];
         domainOriginResults := domainOriginResults b;
         differentDomainResults := differentDomainResults b |}
  | Some SameDomain =>
      {| nullOriginResults := nullOriginResults b;
         wildcardOriginResults := wildcardOriginResults b;
         domainOriginResults := domainOriginResults b ++ [r];
         differentDomainResults := differentDomainResults b |}
  | Some DifferentDomain =>
      {| nullOriginResults := nullOriginResults b;
         wildcardOriginResults := wildcardOriginResults b;
         domainOriginResults := domainOriginResults b;
         differentDomainResults := differentDomainResults b ++ [r] |}
  | None => b
  end.

(** Everything the four buckets hold. *)
Definition bucketed (b : Buckets) : list CORSResult :=
  nullOriginResults b ++ wildcardOriginResults b
  ++ domainOriginResults b ++ differentDomainResults b.

(** ** The worker pool of [main] (lines 211-266)

    The goroutines of [main] are the distributor, the workers, the closer
    of [results] and the collecting loop. They interleave at their channel
    operations, at every HTTP exchange, and between a worker's receive from
    [urlChan] and its call of [checkCORS]. A buffered channel is its buffer
    and its [closed] flag. *)

Record Chan (A : Type) := { buf : list A; closed : bool }.
Arguments buf {A}.
Arguments closed {A}.

Inductive Worker :=
| Idle                              (* at [range urlChan] *)
| Holding (url : string)            (* has received [url], at [if url != ""] *)
| Busy (url : string) (p : Prog)    (* inside [checkCORS(url, ...)] *)
| Exited.                           (* after [wg.Done()] *)

(** What happened so far: the calls of [checkCORS], the sends on [results]
    and the results the collecting loop received, each in order. *)
Record History := {
  probed : list string;
  sentLog : list CORSResult;
  output : list CORSResult
}.

Record Pool (W : Type) := MkPool {
  pending : list string;            (* the distributor's [range urlList] *)
  urlChan : Chan string;
  workers : list Worker;
  results : Chan CORSResult;
  buckets : Buckets;
  collecting : bool;                (* [for result := range results] runs *)
  crashed : bool;                   (* a goroutine panicked *)
  world : W;
  hist : History
}.
Arguments MkPool {W}.
Arguments pending {W}.
Arguments urlChan {W}.
Arguments workers {W}.
Arguments results {W}.
Arguments buckets {W}.
Arguments collecting {W}.
Arguments crashed {W}.
Arguments world {W}.
Arguments hist {W}.

Definition started (u : string) (h : History) : History :=
  {| probed := probed h ++ [u]; sentLog := sentLog h; output := output h |}.
Definition sending (r : CORSResult) (h : History) : History :=
  {| probed := probed h; sentLog := sentLog h ++ [r]; output := output h |}.
Definition received (r : CORSResult) (h : History) : History :=
  {| probed := probed h; sentLog := sentLog h; output := output h ++ [r] |}.

Definition open {A} (l : list A) : Chan A := {| buf := l; closed := false |}.
Definition shut {A} (l : list A) : Chan A := {| buf := l; closed := true |}.

Definition nonblank (u : string) : bool := negb (String.eqb u "").

Definition isExited (w : Worker) : bool :=
  match w with Exited => true | _ => false end.

(** [main] up to the start of the collecting loop: [concurrency] workers,
    all URLs still to distribute. *)
Definition init {W : Type} (urlList : list string) (concurrency : Z) (w0 : W) : Pool W :=
  MkPool urlList (open []) (replicate (Z.to_nat concurrency) Idle) (open [])
         noBuckets true false w0
         {| probed := []; sentLog := []; output := [] |}.

Section Pool.

Context {W : Type}.
Variable E : Env.
Variable serve : W -> http.Client -> http.Request -> W * option http.Response.
Variable to : Z.
(** [len(urlList)], the capacity of both channels. *)
Variable cap : nat.

Inductive step : Pool W -> Pool W -> Prop :=
(* [urlChan <- url] *)
| step_distribute u us q ws rs b c w h :
    (length q < cap)%nat ->
    step (MkPool (u :: us) (open q) ws rs b c false w h)
         (MkPool us (open (q ++ [u])) ws rs b c false w h)
(* [close(urlChan)] *)
| step_close_urls q ws rs b c w h :
    step (MkPool [] (open q) ws rs b c false w h)
         (MkPool [] (shut q) ws rs b c false w h)
(* [for url := range urlChan]: a worker receives the next URL *)
| step_receive u us q cl ws1 ws2 rs b c w h :
    step (MkPool us {| buf := u :: q; closed := cl |} (ws1 ++ Idle :: ws2) rs b c false w h)
         (MkPool us {| buf := q; closed := cl |} (ws1 ++ Holding u :: ws2) rs b c false w h)
(* the URL is [""]: the [if url != ""] skips it *)
| step_skip us q ws1 ws2 rs b c w h :
    step (MkPool us q (ws1 ++ Holding "" :: ws2) rs b c false w h)
         (MkPool us q (ws1 ++ Idle :: ws2) rs b c false w h)
(* the URL is not [""]: the worker calls [checkCORS] *)
| step_start u us q ws1 ws2 rs b c w h :
    u <> "" ->
    step (MkPool us q (ws1 ++ Holding u :: ws2) rs b c false w h)
         (MkPool us q (ws1 ++ Busy u (checkCORS E u to) :: ws2) rs b c false w
                 (started u h))
(* [urlChan] is closed and drained: the worker's loop ends *)
| step_exit us ws1 ws2 rs b c w h :
    step (MkPool us (shut []) (ws1 ++ Idle :: ws2) rs b c false w h)
         (MkPool us (shut []) (ws1 ++ Exited :: ws2) rs b c false w h)
(* [client.Do(req)] *)
| step_request us q ws1 u client req k ws2 rs b c w h :
    step (MkPool us q (ws1 ++ Busy u (Do client req k) :: ws2) rs b c false w h)
         (MkPool us q (ws1 ++ Busy u (k (snd (serve w client req))) :: ws2) rs b c false
                 (fst (serve w client req)) h)
(* [results <- result] *)
| step_send us q ws1 u r k ws2 rs b c w h :
    (length rs < cap)%nat ->
    step (MkPool us q (ws1 ++ Busy u (Send r k) :: ws2) (open rs) b c false w h)
         (MkPool us q (ws1 ++ Busy u k :: ws2) (open (rs ++ [r])) b c false w (sending r h))
(* a send on a closed channel panics *)
| step_send_closed us q ws1 u r k ws2 rs b c w h :
    step (MkPool us q (ws1 ++ Busy u (Send r k) :: ws2) (shut rs) b c false w h)
         (MkPool us q (ws1 ++ Busy u (Send r k) :: ws2) (shut rs) b c true w h)
(* [checkCORS] returns *)
| step_return us q ws1 u e ws2 rs b c w h :
    e <> PanicIndex ->
    step (MkPool us q (ws1 ++ Busy u (Return e) :: ws2) rs b c false w h)
         (MkPool us q (ws1 ++ Idle :: ws2) rs b c false w h)
(* an index out of range *)
| step_panic us q ws1 u ws2 rs b c w h :
    step (MkPool us q (ws1 ++ Busy u (Return PanicIndex) :: ws2) rs b c false w h)
         (MkPool us q (ws1 ++ Busy u (Return PanicIndex) :: ws2) rs b c true w h)
(* [wg.Wait(); close(results)] *)
| step_close_results us q ws rs b c w h :
    forallb isExited ws = true ->
    step (MkPool us q ws (open rs) b c false w h)
         (MkPool us q ws (shut rs) b c false w h)
(* the collecting loop receives a result and files it *)
| step_collect us q ws r rs cl b w h :
    step (MkPool us q ws {| buf := r :: rs; closed := cl |} b true false w h)
         (MkPool us q ws {| buf := rs; closed := cl |} (categorize b r) true false w
                 (received r h))
(* [results] is closed and drained: the collecting loop ends *)
| step_collected us q ws b w h :
    step (MkPool us q ws (shut []) b true false w h)
         (MkPool us q ws (shut []) b false false w h).

(** Runs of [n] steps. *)
Inductive steps : nat -> Pool W -> Pool W -> Prop :=
| steps_O s : steps O s s
| steps_S n s1 s2 s3 : steps n s1 s2 -> step s2 s3 -> steps (S n) s1 s3.

End Pool.

(** The states [main] can be in: both channels are made with capacity
    [len(urlList)]. *)
Definition reachable {W : Type} (E : Env)
    (serve : W -> http.Client -> http.Request -> W * option http.Response) (to : Z)
    (urlList : list string) (concurrency : Z) (w0 : W) (s : Pool W) : Prop :=
  exists n, steps E serve to (length urlList) n (init urlList concurrency w0) s.

(** The collecting loop is over: [main] goes on to write the files. *)
Definition finished {W : Type} (s : Pool W) : Prop := collecting s = false.

(** ** Reference definitions and sample environments *)

(** The verdict of the first block as a function of the reflected
    [Access-Control-Allow-Origin] value. *)
Definition firstVerdict (E : Env) (url a : string) : bool * string :=
  if String.eqb a "*" then (true, msgWildcard)
  else if String.eqb a "null" then (true, msgNull)
  else
    let eTLD := PublicSuffix E url in
    if negb (String.eqb eTLD "") && gostrings.HasSuffix a eTLD then (true, msgSameDomain)
    else (false, "").

Definition messages : list string :=
  [msgWildcard; msgNull; msgSameDomain; msgDifferentDomain].

Definition categoryNames : list string :=
  ["Null origin"; "Wildcard origin"; "same domain"; "different domain"].

(** The number of category names a description contains. *)
Definition categoryHits (v : string) : nat :=
  length (filter (fun c => gostrings.Contains v c = true) categoryNames).

(** A response sets no CORS header. *)
Definition noCORSHeaders (resp : http.Response) : Prop :=
  forall key : string,
    gostrings.HasPrefix key "Access-Control-" = true -> http.Header resp !! key = None.

(** Split at every comma, keep every piece as it is; no pieces for the
    empty string. *)
Fixpoint piecesAtCommas (s : string) : list string :=
  match s with
  | EmptyString => [EmptyString]
  | String c s' =>
      if Ascii.eqb c "," then EmptyString :: piecesAtCommas s'
      else match piecesAtCommas s' with
           | p :: ps => String c p :: ps
           | [] => [String c EmptyString]
           end
  end.

Definition parseHeader_ref (header : string) : list string :=
  match header with
  | EmptyString => []
  | _ => piecesAtCommas header
  end.

(** [strings.Join(l, ",")] *)
Fixpoint joinCommas (l : list string) : string :=
  match l with
  | [] => ""
  | [x] => x
  | x :: l' => x ++ "," ++ joinCommas l'
  end.

(** A server without state: its answer depends on the request alone. *)
Definition stateless (f : http.Request -> option http.Response)
    (w : unit) (c : http.Client) (req : http.Request) : unit * option http.Response :=
  (w, f req).

(** What a probe sends when it runs alone against such a server. *)
Definition emits (f : http.Request -> option http.Response) (p : Prog) : list CORSResult :=
  emitted (run (stateless f) p tt).

(** The results of probing, one after the other, the entries of a list
    that are not blank. *)
Definition verdicts (E : Env) (f : http.Request -> option http.Response) (to : Z)
    (urls : list string) : list CORSResult :=
  flat_map (fun u => emits f (checkCORS E u to)) (List.filter nonblank urls).

(** What a worker has yet to send. *)
Definition promised (E : Env) (f : http.Request -> option http.Response) (to : Z)
    (wk : Worker) : list CORSResult :=
  match wk with
  | Holding u => if nonblank u then emits f (checkCORS E u to) else []
  | Busy _ p => emits f p
  | _ => []
  end.

Module Sample.

(** A fragment of the public suffix list: [com], [uk], [co.uk]. *)
Definition table : list publicsuffix.node :=
  [ publicsuffix.Node "com" publicsuffix.nodeTypeNormal false [];
    publicsuffix.Node "uk" publicsuffix.nodeTypeNormal false
      [publicsuffix.Node "co" publicsuffix.nodeTypeNormal false []] ].

(** [neturl.Parse] on plain URLs: "http://" or "https://", then the host
    up to the first slash. *)
Definition hostOf (rest : string) : string :=
  match gostrings.Index rest "/" with
  | Some i => gostrings.take i rest
  | None => rest
  end.

Definition parse (url : string) : option neturl.URL :=
  if gostrings.HasPrefix url "http://"
  then Some {| neturl.Scheme := "http"; neturl.Host := hostOf (gostrings.drop 7 url) |}
  else if gostrings.HasPrefix url "https://"
  then Some {| neturl.Scheme := "https"; neturl.Host := hostOf (gostrings.drop 8 url) |}
  else None.

Definition env : Env :=
  {| NewRequest := fun url => bool_decide (is_Some (parse url));
     Parse := parse;
     PublicSuffix := publicsuffix.PublicSuffix table |}.

(** An environment in which the third block cannot parse the URL. *)
Definition brokenParse : Env :=
  {| NewRequest := fun _ => true;
     Parse := fun _ => None;
     PublicSuffix := publicsuffix.PublicSuffix table |}.

Definition reply (status : Z) (headers : list (string * list string)) : option http.Response :=
  Some {| http.StatusCode := status; http.Header := list_to_map headers |}.

Definition wildcard : http.Request -> option http.Response :=
  fun _ => reply 200 [("Access-Control-Allow-Origin", ["*"])].

Definition reflecting : http.Request -> option http.Response :=
  fun req =>
    if String.eqb (http.Origin req) "http://example.com"
    then reply 200 [("Access-Control-Allow-Origin", ["http://example.com"]);
                    ("Access-Control-Allow-Methods", ["GET, POST"])]
    else reply 200 [].

Definition plain : http.Request -> option http.Response :=
  fun _ => reply 404 [("Content-Type", ["text/html"])].

Definition trusting : http.Request -> option http.Response :=
  fun _ => reply 200 [("Access-Control-Allow-Origin", ["http://evil.com"])].

Definition down : http.Request -> option http.Response := fun _ => None.

(** Three sites that allow every origin, and the rest that say nothing. *)
Definition mixed : http.Request -> option http.Response :=
  fun req =>
    if gostrings.HasPrefix (http.URL req) "http://open"
    then reply 200 [("Access-Control-Allow-Origin", ["*"])]
    else reply 200 [].

(** A server that answers one request and then drops the connection. *)
Definition flaky (w : nat) (c : http.Client) (req : http.Request) : nat * option http.Response :=
  (S w, match w with O => reply 200 [] | _ => None end).

End Sample.

(** The number of commas of a string. *)
Fixpoint commas (s : string) : nat :=
  match s with
  | EmptyString => O
  | String c s' => if Ascii.eqb c "," then S (commas s') else commas s'
  end.

(** The bucket of a category. *)
Definition bucket (c : Category) (b : Buckets) : list CORSResult :=
  match c with
  | NullOrigin => nullOriginResults b
  | WildcardOrigin => wildcardOriginResults b
  | SameDomain => domainOriginResults b
  | DifferentDomain => differentDomainResults b
  end.

(** What a probe of [url] can still do when at most [n] exchanges are left:
    every request is a GET of [url]; a failed exchange ends the probe; the
    request is only built when [NewRequest] succeeds; the URL is parsed
    before the last exchange; a result is sent once, as the last act, and
    only a vulnerable one. *)
Inductive shape (E : Env) (url : string) : nat -> Prog -> Prop :=
| shape_completed n : shape E url n (Return Completed)
| shape_no_request n : NewRequest E url = false -> shape E url n (Return ErrCreate)
| shape_no_parse : Parse E url = None -> shape E url 1 (Return ErrParseURL)
| shape_send n r :
    URL r = url -> Vulnerable r = true -> In (Vulnerability r) messages ->
    length (AllowOrigins (corsConfig r)) = 1%nat ->
    shape E url n (Send r (Return Completed))
| shape_do n client origin k :
    NewRequest E url = true ->
    k None = Return ErrRequest ->
    (forall resp, shape E url n (k (Some resp))) ->
    shape E url (S n) (Do client (GET url origin) k).

(** The locals after a response has been read and judged. *)
Definition decided (resp : http.Response) (v : bool) (msg : string) : Locals :=
  {| resp := resp; config := readConfig resp; vulnerable := v; vulnerability := msg |}.

(** The result [checkCORS] builds from a response and a description. *)
Definition verdict (url : string) (resp : http.Response) (msg : string) : CORSResult :=
  {| URL := url; StatusCode := http.StatusCode resp; corsConfig := readConfig resp;
     Vulnerable := true; Vulnerability := msg |}.

(** ** Bookkeeping for the pool *)

(** What a worker still owes: the URL it may yet report, and a bound on the
    steps it and the collector still take on its behalf. *)
Inductive wghost (E : Env) : Worker -> list string * nat -> Prop :=
| wg_idle : wghost E Idle ([], 1%nat)
| wg_holding u : wghost E (Holding u) ([], 8%nat)
| wg_exited : wghost E Exited ([], 0%nat)
| wg_busy u n p : shape E u n p -> wghost E (Busy u p) ([u], (n + 4)%nat)
| wg_returning u e : e <> PanicIndex -> wghost E (Busy u (Return e)) ([], 2%nat).

(** The URL a worker has received and is about to call [checkCORS]
    with. *)
Definition waiting (wk : Worker) : list string :=
  match wk with
  | Holding u => if nonblank u then [u] else []
  | _ => []
  end.

Definition owed (gs : list (list string * nat)) : list string := concat (map fst gs).
Definition effort (gs : list (list string * nat)) : nat := sum_list (map snd gs).

(** A bound on the steps the pool can still take. *)
Definition measure {W : Type} (s : Pool W) (gs : list (list string * nat)) : nat :=
  (9 * length (pending s) + 8 * length (buf (urlChan s))
   + (if closed (urlChan s) then 0 else 1)
   + effort gs
   + length (buf (results s)) + (if closed (results s) then 0 else 1)
   + (if collecting s then 1 else 0))%nat.

Definition inCategory (c : Category) (r : CORSResult) : bool :=
  match category r, c with
  | Some NullOrigin, NullOrigin
  | Some WildcardOrigin, WildcardOrigin
  | Some SameDomain, SameDomain
  | Some DifferentDomain, DifferentDomain => true
  | _, _ => false
  end.

(** What [checkCORS] puts on the results channel. *)
Definition sendable (r : CORSResult) : Prop :=
  Vulnerable r = true /\ In (Vulnerability r) messages
  /\ length (AllowOrigins (corsConfig r)) = 1%nat.

Record Inv {W : Type} (E : Env) (urlList : list string) (concurrency : Z)
    (s : Pool W) (gs : list (list string * nat)) : Prop := {
  inv_alive : crashed s = false;
  inv_workers : Forall2 (wghost E) (workers s) gs;
  inv_count : length (workers s) = Z.to_nat concurrency;
  inv_urls :
    exists taken,
      urlList = (taken ++ buf (urlChan s) ++ pending s)%list
      /\ (probed (hist s) ++ flat_map waiting (workers s))%list
         ≡ₚ List.filter nonblank taken;
  inv_room : (length (buf (urlChan s)) + length (pending s) <= length urlList)%nat;
  inv_distributed : closed (urlChan s) = true -> pending s = [];
  inv_drained :
    Exists (fun w => w = Exited) (workers s) ->
    closed (urlChan s) = true /\ buf (urlChan s) = [];
  inv_waited : closed (results s) = true -> Forall (fun w => w = Exited) (workers s);
  inv_results : (output (hist s) ++ buf (results s))%list = sentLog (hist s);
  inv_owed : (map URL (sentLog (hist s)) ++ owed gs)%list ⊆+ probed (hist s);
  inv_sent : Forall sendable (sentLog (hist s));
  inv_collected : collecting s = false -> closed (results s) = true /\ buf (results s) = [];
  inv_buckets :
    forall c, bucket c (buckets s) = List.filter (inCategory c) (output (hist s))
}.

(** Results sent, results promised by the probes under way, and results
    of the URLs still in the queue. *)
Definition account {W : Type} (E : Env) (f : http.Request -> option http.Response)
    (to : Z) (s : Pool W) : list CORSResult :=
  (sentLog (hist s) ++ concat (map (promised E f to) (workers s))
   ++ verdicts E f to (buf (urlChan s) ++ pending s))%list.

(** ** The probe, answer by answer *)

(** The value a response reflects. *)
Definition reflected (resp : http.Response) : string :=
  http.Get (http.Header resp) "Access-Control-Allow-Origin".

(** The origin of the third request. *)
Definition ownOrigin (u : neturl.URL) : string :=
  neturl.Scheme u ++ "://" ++ neturl.Host u.

(** [checkCORS] against a server, written out answer by answer. *)
Definition checkCORS_table {W : Type} (E : Env)
    (serve : W -> http.Client -> http.Request -> W * option http.Response)
    (url : string) (to : Z) (w : W) : Trace W :=
  let client := {| http.Timeout := to |} in
  let mk e xs rs w' := {| exit := e; exchanges := xs; emitted := rs; after := w' |} in
  if negb (NewRequest E url) then mk ErrCreate [] [] w else
  let q1 := GET url "null" in
  let a1 := serve w client q1 in
  match snd a1 with
  | None => mk ErrRequest [(q1, None)] [] (fst a1)
  | Some r1 =>
      let fv := firstVerdict E url (reflected r1) in
      if fst fv then mk Completed [(q1, Some r1)] [verdict url r1 (snd fv)] (fst a1) else
      let q2 := GET url "http://example.com" in
      let a2 := serve (fst a1) client q2 in
      match snd a2 with
      | None => mk ErrRequest [(q1, Some r1); (q2, None)] [] (fst a2)
      | Some r2 =>
          if String.eqb (reflected r2) "http://example.com"
          then mk Completed [(q1, Some r1); (q2, Some r2)]
                  [verdict url r2 msgDifferentDomain] (fst a2)
          else
            match Parse E url with
            | None => mk ErrParseURL [(q1, Some r1); (q2, Some r2)] [] (fst a2)
            | Some u =>
                let q3 := GET url (ownOrigin u) in
                let a3 := serve (fst a2) client q3 in
                match snd a3 with
                | None =>
                    mk ErrRequest [(q1, Some r1); (q2, Some r2); (q3, None)] [] (fst a3)
                | Some r3 =>
                    mk Completed [(q1, Some r1); (q2, Some r2); (q3, Some r3)]
                       (if String.eqb (reflected r3) (ownOrigin u)
                        then [verdict url r3 msgSameDomain] else [])
                       (fst a3)
                end
            end
      end
  end.

(** Sample servers: one that allows the null origin, one that allows its
    own origin only, and one that allows every origin and answers 500 with
    credentials allowed. *)
Definition sampleNullEcho : http.Request -> option http.Response :=
  fun _ => Sample.reply 200 [("Access-Control-Allow-Origin", ["null"])].

Definition sampleSelfOnly : http.Request -> option http.Response :=
  fun req =>
    if String.eqb (http.Origin req) "https://shop.example.co.uk"
    then Sample.reply 200 [("Access-Control-Allow-Origin", ["https://shop.example.co.uk"])]
    else Sample.reply 200 [].

Definition sampleWildcardWithCredentials : http.Request -> option http.Response :=
  fun _ => Sample.reply 500 [("Access-Control-Allow-Origin", ["*"]);
                             ("Access-Control-Allow-Credentials", ["true"])].

(** ** More on the pool *)

(** The worker is inside [checkCORS]. *)
Definition isBusy (w : Worker) : bool :=
  match w with Busy _ _ => true | _ => false end.

(** The entries of a sample URL file, one of them blank. *)
Definition sampleUrls : list string :=
  ["http://open1.example.com"; "http://open2.example.com"; "";
   "http://open3.example.com"; "http://shut1.example.com";
   "http://shut2.example.com"].

(** ** Decimal notation *)

(** Decimal notation: an optional sign, then one digit or more. *)
Definition isDigit (c : ascii) : bool :=
  (48 <=? strconv.byte c) && (strconv.byte c <=? 57).

Fixpoint allDigits (s : string) : bool :=
  match s with
  | EmptyString => true
  | String c s' => isDigit c && allDigits s'
  end.

Fixpoint digitsValue (s : string) (acc : Z) : Z :=
  match s with
  | EmptyString => acc
  | String c s' => digitsValue s' (acc * 10 + (strconv.byte c - 48))
  end.

Definition decimal (s : string) : option Z :=
  match s with
  | EmptyString => None
  | String c rest =>
      let digits := if Ascii.eqb c "+" || Ascii.eqb c "-" then rest else s in
      if negb (String.eqb digits "") && allDigits digits
      then Some (if Ascii.eqb c "-" then - digitsValue digits 0 else digitsValue digits 0)
      else None
  end.

(** ** Writing the buckets ([writeResultsToFile], lines 169-191, and the end
    of [main], lines 268-288)

    What the function asks of the file system is a list of operations, in
    order. Whether an operation succeeds is for the file system to say,
    given what was asked before. A write whose error the code drops is
    logged like the others. *)

(** The newline character, and the three strings [writeResultsToFile]
    writes itself: "[", "," and "]", each followed by a newline. *)
Definition nl : string := String "010" EmptyString.

Inductive FileOp :=
| OpCreate (name : string)                       (* os.Create(filename) *)
| OpWrite (name : string) (data : string)        (* file.WriteString(data) *)
| OpEncode (name : string) (result : CORSResult) (* encoder.Encode(result) *)
| OpClose (name : string).                       (* the deferred file.Close() *)

Section Files.

(** The file system: does this operation succeed after those? *)
Variable succeeds : list FileOp -> FileOp -> bool.

(** The [for i, result := range results] of [writeResultsToFile]; [n] is
    [len(results)] and [i] the index of the first of [rest]. *)
Fixpoint writeLoop (filename : string) (n : Z) (i : Z) (rest : list CORSResult)
    (log : list FileOp) : list FileOp :=
  match rest with
  | [] => log
  | result :: rest' =>
      let encoded := succeeds log (OpEncode filename result) in
      let log := (log ++ [OpEncode filename result])%list in
      if negb encoded then writeLoop filename n (i + 1) rest' log
      else if i <? n - 1
           then writeLoop filename n (i + 1) rest' (log ++ [OpWrite filename (String "," nl)])%list
           else writeLoop filename n (i + 1) rest' log
  end.

(** [writeResultsToFile(filename, results)] *)
Definition writeResultsToFile (filename : string) (results : list CORSResult)
    (log : list FileOp) : list FileOp :=
  let created := succeeds log (OpCreate filename) in
  let log := (log ++ [OpCreate filename])%list in
  if negb created then log
  else
    let log := (log ++ [OpWrite filename (String "[" nl)])%list in
    let log := writeLoop filename (Z.of_nat (length results)) 0 results log in
    let log := (log ++ [OpWrite filename (String "]" nl)])%list in
    (log ++ [OpClose filename])%list.

Definition fileName (c : Category) : string :=
  match c with
  | NullOrigin => "null_origin_vulnerabilities.json"
  | WildcardOrigin => "wildcard_origin_vulnerabilities.json"
  | SameDomain => "domain_origin_vulnerabilities.json"
  | DifferentDomain => "different_domain_origin_vulnerabilities.json"
  end.

(** The four [if len(...) > 0 { writeResultsToFile(...) }] of [main]. *)
Definition saveBucket (c : Category) (b : Buckets) (log : list FileOp) : list FileOp :=
  if (0 <? Z.of_nat (length (bucket c b)))
  then writeResultsToFile (fileName c) (bucket c b) log
  else log.

Definition saveBuckets (b : Buckets) (log : list FileOp) : list FileOp :=
  saveBucket DifferentDomain b
    (saveBucket SameDomain b
       (saveBucket WildcardOrigin b
          (saveBucket NullOrigin b log))).

(** The earlier revision of [main] kept in the same file: all four files,
    whatever the buckets hold. *)
Definition saveBuckets_v1 (b : Buckets) (log : list FileOp) : list FileOp :=
  writeResultsToFile (fileName DifferentDomain) (bucket DifferentDomain b)
    (writeResultsToFile (fileName SameDomain) (bucket SameDomain b)
       (writeResultsToFile (fileName WildcardOrigin) (bucket WildcardOrigin b)
          (writeResultsToFile (fileName NullOrigin) (bucket NullOrigin b) log))).

End Files.

(** The bytes the operations carry for one file; [marshal] is the indented
    JSON of a result, which [Encode] writes followed by a newline. *)
Definition bytesOf (marshal : CORSResult -> string) (filename : string) (op : FileOp)
    : string :=
  match op with
  | OpWrite name data => if String.eqb name filename then data else ""
  | OpEncode name r => if String.eqb name filename then marshal r ++ nl else ""
  | _ => ""
  end.

Definition bytesWritten (marshal : CORSResult -> string) (filename : string)
    (log : list FileOp) : string :=
  fold_right (fun op rest => bytesOf marshal filename op ++ rest) "" log.

Definition encodesOf (filename : string) (log : list FileOp) : list CORSResult :=
  flat_map (fun op => match op with
                      | OpEncode name r => if String.eqb name filename then [r] else []
                      | _ => []
                      end) log.

Definition createsOf (log : list FileOp) : list string :=
  flat_map (fun op => match op with OpCreate name => [name] | _ => [] end) log.

(** A file system on which nothing fails. *)
Definition sound (log : list FileOp) (op : FileOp) : bool := true.

Definition categories : list Category :=
  [NullOrigin; WildcardOrigin; SameDomain; DifferentDomain].

(** Either an encoding for the file or the separator. *)
Definition isBodyOp (filename : string) (op : FileOp) : Prop :=
  (exists r, op = OpEncode filename r) \/ op = OpWrite filename (String "," nl).

(** The bucket of the category is not empty: [len(...) > 0]. *)
Definition holdsSome (b : Buckets) (c : Category) : bool :=
  0 <? Z.of_nat (length (bucket c b)).

(** The text of a JSON array of [results], as [writeResultsToFile] lays it
    out; [marshal] is the indented JSON of one result. *)
Definition arrayText (marshal : CORSResult -> string) (results : list CORSResult)
    : string :=
  String "[" nl
  ++ String.concat (String "," nl) (map (fun r => marshal r ++ nl) results)
  ++ String "]" nl.

(** ** The URL list ([main], line 211)

    [urlList := strings.Split(strings.TrimSpace(string(urls)), "\n")] *)

(** [asciiSpace[c] == 1]: tab, newline, vertical tab, form feed, carriage
    return and space. *)
Definition asciiSpace (c : ascii) : bool :=
  let b := strconv.byte c in
  (b =? 9) || (b =? 10) || (b =? 11) || (b =? 12) || (b =? 13) || (b =? 32).

(** [utf8.RuneSelf] *)
Definition RuneSelf : Z := 128.

(** How one of the two loops of [strings.TrimSpace] ends: at an ASCII byte
    that is no space or at the end of its range ([Plain]), or at a byte that
    is not ASCII ([NonASCII]); [kept] is what is left of the string. *)
Inductive Scan := Plain (kept : string) | NonASCII (kept : string).

(** [for ; start < len(s); start++]: [kept] is [s[start:]]. *)
Fixpoint skipFront (s : string) : Scan :=
  match s with
  | EmptyString => Plain s
  | String c s' =>
      if RuneSelf <=? strconv.byte c then NonASCII s
      else if negb (asciiSpace c) then Plain s
      else skipFront s'
  end.

(** [for ; stop > start; stop--] on [s[start:]]: [kept] is [s[start:stop]].
    The loop looks at a byte only when all the bytes after it were skipped. *)
Fixpoint skipBack (s : string) : Scan :=
  match s with
  | EmptyString => Plain EmptyString
  | String c s' =>
      match skipBack s' with
      | Plain EmptyString =>
          if RuneSelf <=? strconv.byte c then NonASCII (String c EmptyString)
          else if negb (asciiSpace c) then Plain (String c EmptyString)
          else Plain EmptyString
      | Plain kept => Plain (String c kept)
      | NonASCII kept => NonASCII (String c kept)
      end
  end.

Section TrimSpace.

(** The Unicode-aware fallbacks [TrimFunc(s, unicode.IsSpace)] and
    [TrimRightFunc(s, unicode.IsSpace)]. *)
Variable TrimFunc_IsSpace : string -> string.
Variable TrimRightFunc_IsSpace : string -> string.

(** [strings.TrimSpace(s)] *)
Definition TrimSpace (s : string) : string :=
  match skipFront s with
  | NonASCII rest => TrimFunc_IsSpace rest
  | Plain rest =>
      match skipBack rest with
      | NonASCII kept => TrimRightFunc_IsSpace kept
      | Plain kept => kept
      end
  end.

(** [urlList] for the content of the input file. *)
Definition urlList (content : string) : list string :=
  gostrings.Split (TrimSpace content) nl.

End TrimSpace.

(** The byte of [nl]. *)
Definition newline : ascii := "010"%char.

(** The pieces of [s] between the occurrences of the byte [sep]. *)
Fixpoint piecesAt (sep : ascii) (s : string) : list string :=
  match s with
  | EmptyString => [EmptyString]
  | String c s' =>
      if Ascii.eqb c sep then EmptyString :: piecesAt sep s'
      else match piecesAt sep s' with
           | p :: ps => String c p :: ps
           | [] => [String c EmptyString]
           end
  end.

Fixpoint countByte (sep : ascii) (s : string) : nat :=
  match s with
  | EmptyString => O
  | String c s' => if Ascii.eqb c sep then S (countByte sep s') else countByte sep s'
  end.

(** [strings.Join(l, string(sep))] *)
Fixpoint joinWith (sep : ascii) (l : list string) : string :=
  match l with
  | [] => ""
  | [x] => x
  | x :: l' => x ++ String sep (joinWith sep l')
  end.

Fixpoint allBytes (P : ascii -> bool) (s : string) : bool :=
  match s with
  | EmptyString => true
  | String c s' => P c && allBytes P s'
  end.

Definition isASCII (s : string) : bool :=
  allBytes (fun c => strconv.byte c <? RuneSelf) s.

Definition firstByte (s : string) : option ascii :=
  match s with EmptyString => None | String c _ => Some c end.

Fixpoint lastByte (s : string) : option ascii :=
  match s with
  | EmptyString => None
  | String c EmptyString => Some c
  | String _ s' => lastByte s'
  end.

(** * Properties *)

(** ** Header parsing *)

Section HeaderParsing.

Import gostrings.

Lemma HasPrefix_nil s : HasPrefix s "" = true.
Proof. destruct s; reflexivity. Qed.

Lemma Index_comma_cons c s :
  Index (String c s) "," = if Ascii.eqb c "," then Some O else S <$> Index s ",".
Proof.
  cbn [Index HasPrefix]. rewrite HasPrefix_nil, andb_true_r, (Ascii.eqb_sym "," c).
  reflexivity.
Qed.

Lemma Index_comma_nil : Index "" "," = None.
Proof. reflexivity. Qed.

Lemma Index_comma_lt s m : Index s "," = Some m -> (m < String.length s)%nat.
Proof.
  revert m. induction s as [|c s IH]; intros m.
  - discriminate.
  - rewrite Index_comma_cons. destruct (Ascii.eqb c ",").
    + intros [= <-]. simpl. lia.
    + destruct (Index s ",") as [i|]; [|discriminate].
      intros [= <-]. specialize (IH i eq_refl). simpl. lia.
Qed.

Lemma length_drop n s : String.length (drop n s) = (String.length s - n)%nat.
Proof.
  revert s. induction n as [|n IH]; intros [|c s]; simpl; auto.
Qed.

Lemma commas_Index_None s : Index s "," = None -> commas s = O /\ piecesAtCommas s = [s].
Proof.
  induction s as [|c s IH].
  - auto.
  - rewrite Index_comma_cons. simpl. destruct (Ascii.eqb c ","); [discriminate|].
    destruct (Index s ","); [discriminate|]. intros _.
    destruct (IH eq_refl) as [-> ->]. auto.
Qed.

Lemma commas_Index_Some s m :
  Index s "," = Some m ->
  commas s = S (commas (drop (m + 1) s))
  /\ piecesAtCommas s = take m s :: piecesAtCommas (drop (m + 1) s).
Proof.
  revert m. induction s as [|c s IH]; intros m.
  - discriminate.
  - rewrite Index_comma_cons. simpl commas. simpl piecesAtCommas.
    destruct (Ascii.eqb c ",").
    + intros [= <-]. auto.
    + destruct (Index s ",") as [i|]; [|discriminate].
      intros [= <-]. destruct (IH i eq_refl) as [-> ->]. auto.
Qed.

Lemma Count_loop_commas rounds s :
  (String.length s <= rounds)%nat -> Count_loop rounds s "," = commas s.
Proof.
  revert s. induction rounds as [|rounds IH]; intros s Hlen.
  - destruct s; [reflexivity | simpl in Hlen; lia].
  - simpl. destruct (Index s ",") as [m|] eqn:Hi.
    + destruct (commas_Index_Some _ _ Hi) as [-> _].
      rewrite IH; [reflexivity|].
      apply Index_comma_lt in Hi. rewrite length_drop. simpl. lia.
    + symmetry. apply commas_Index_None, Hi.
Qed.

Lemma genSplit_pieces cuts s :
  cuts = commas s -> genSplit cuts s "," = piecesAtCommas s.
Proof.
  revert s. induction cuts as [|cuts IH]; intros s Hc; simpl.
  - destruct (Index s ",") as [m|] eqn:Hi.
    + destruct (commas_Index_Some _ _ Hi) as [Hs _]. congruence.
    + symmetry. apply commas_Index_None, Hi.
  - destruct (Index s ",") as [m|] eqn:Hi.
    + destruct (commas_Index_Some _ _ Hi) as [Hs ->].
      rewrite IH; [reflexivity | congruence].
    + symmetry. apply commas_Index_None, Hi.
Qed.

Lemma Split_comma s : Split s "," = piecesAtCommas s.
Proof.
  unfold Split, Count. apply genSplit_pieces, Count_loop_commas. lia.
Qed.

Example split_get_post : parseHeader "GET, POST" = ["GET"; " POST"].
Proof. reflexivity. Qed.

Lemma parseHeader_matches header : parseHeader header = parseHeader_ref header.
Proof.
  unfold parseHeader. destruct header as [|c s]; [reflexivity|].
  simpl String.eqb. apply Split_comma.
Qed.

Lemma pieces_nonempty s : piecesAtCommas s <> [].
Proof.
  destruct s as [|c s]; simpl; [discriminate|].
  destruct (Ascii.eqb c ","); [discriminate|].
  destruct (piecesAtCommas s); discriminate.
Qed.

Lemma pieces_length s : length (piecesAtCommas s) = S (commas s).
Proof.
  induction s as [|c s IH]; simpl; [reflexivity|].
  destruct (Ascii.eqb c ","); simpl; [congruence|].
  destruct (piecesAtCommas s); simpl in *; congruence.
Qed.

Lemma joinCommas_cons x y l : joinCommas (x :: y :: l) = x ++ "," ++ joinCommas (y :: l).
Proof. reflexivity. Qed.

Lemma pieces_join s : joinCommas (piecesAtCommas s) = s.
Proof.
  induction s as [|c s IH]; simpl; [reflexivity|].
  destruct (Ascii.eqb c ",") eqn:Hc.
  - apply Ascii.eqb_eq in Hc. subst c.
    pose proof (pieces_nonempty s).
    destruct (piecesAtCommas s) as [|p ps]; [congruence|].
    rewrite joinCommas_cons, IH. reflexivity.
  - destruct (piecesAtCommas s) as [|p [|q ps]].
    + simpl in IH. subst s. reflexivity.
    + simpl in *. subst. reflexivity.
    + rewrite joinCommas_cons in *. rewrite <- IH. reflexivity.
Qed.

Lemma pieces_no_comma s : Forall (fun p => commas p = O) (piecesAtCommas s).
Proof.
  induction s as [|c s IH]; simpl.
  - repeat constructor.
  - destruct (Ascii.eqb c ",") eqn:Hc.
    + constructor; [reflexivity | exact IH].
    + destruct (piecesAtCommas s) as [|p ps].
      * repeat constructor. simpl. rewrite Hc. reflexivity.
      * inversion IH; subst. constructor; [|assumption].
        simpl. rewrite Hc. assumption.
Qed.

Lemma parseHeader_never_blank header : parseHeader header <> [""].
Proof.
  rewrite parseHeader_matches. destruct header as [|c s]; [discriminate|].
  intros H. pose proof (pieces_join (String c s)) as J.
  unfold parseHeader_ref in H. rewrite H in J. discriminate.
Qed.

End HeaderParsing.

(** ** [strconv.Atoi] *)

Section AtoiFacts.

Import strconv.

Lemma Atoi_fast_failure s v e : Atoi_fast s = (v, Some e) -> e = ErrSyntax /\ v = 0.
Proof.
  unfold Atoi_fast. destruct s as [|c rest]; [intros [= <- <-]; auto|].
  destruct (_ && _); [intros [= <- <-]; auto|].
  destruct (Atoi_digits _ 0); [discriminate | intros [= <- <-]; auto].
Qed.

Lemma ParseInt_failure s v e :
  ParseInt s = (v, Some e) ->
  (e = ErrSyntax /\ v = 0) \/ (e = ErrRange /\ (v = 2 ^ 63 - 1 \/ v = - 2 ^ 63)).
Proof.
  unfold ParseInt. destruct s as [|c rest]; [intros [= <- <-]; auto|].
  destruct (ParseUint _) as [un [[]|]].
  - intros [= <- <-]; auto.
  - repeat (destruct (_ && _)); intros [= <- <-]; auto.
  - repeat (destruct (_ && _)); [intros [= <- <-]; auto ..| discriminate].
Qed.

(** A failed [Atoi] returns 0 on a syntax error and the nearest bound of
    [int] on a range error. *)
Lemma Atoi_failure s v e :
  Atoi s = (v, Some e) ->
  (e = ErrSyntax /\ v = 0) \/ (e = ErrRange /\ (v = 2 ^ 63 - 1 \/ v = - 2 ^ 63)).
Proof.
  unfold Atoi. destruct (_ && _).
  - intros H. left. eapply Atoi_fast_failure, H.
  - apply ParseInt_failure.
Qed.

(** Fewer than 19 bytes cannot overflow: there every failure gives 0. *)
Lemma Atoi_short_failure s :
  (String.length s < 19)%nat -> snd (Atoi s) <> None -> fst (Atoi s) = 0.
Proof.
  intros Hlen. unfold Atoi. destruct s as [|c rest]; [reflexivity|].
  replace ((0 <? _)%nat && _) with true.
  - destruct (Atoi_fast _) as [v [e|]] eqn:Hf; [|simpl; congruence].
    intros _. apply Atoi_fast_failure in Hf. simpl. tauto.
  - symmetry. apply andb_true_iff. split; [reflexivity|].
    apply Nat.ltb_lt. exact Hlen.
Qed.

Example Atoi_values :
  map Atoi [""; "600"; "-1"; "+"; "ten"; "6 00"; "3.5"; "9223372036854775807";
            "9223372036854775808"; "-9223372036854775809"]
  = [(0, Some ErrSyntax); (600, None); (-1, None); (0, Some ErrSyntax);
     (0, Some ErrSyntax); (0, Some ErrSyntax); (0, Some ErrSyntax);
     (9223372036854775807, None); (9223372036854775807, Some ErrRange);
     (-9223372036854775808, Some ErrRange)].
Proof. vm_compute. reflexivity. Qed.

End AtoiFacts.

(** ** Decimal notation and [strconv.Atoi] *)

Section AtoiSuccess.

Import strconv.

Lemma byte_range c : 0 <= byte c < 256.
Proof. unfold byte. pose proof (nat_ascii_bounded c). lia. Qed.

Lemma isDigit_spec c : isDigit c = true <-> 48 <= byte c <= 57.
Proof. unfold isDigit. rewrite andb_true_iff, !Z.leb_le. reflexivity. Qed.

Lemma fast_digit c :
  (9 <? (byte c - 48) mod 256) = negb (isDigit c)
  /\ (isDigit c = true -> (byte c - 48) mod 256 = byte c - 48).
Proof.
  pose proof (byte_range c) as Hb. unfold isDigit.
  destruct (Z_lt_le_dec (byte c) 48) as [Hlt | Hge].
  - replace ((byte c - 48) mod 256) with (byte c + 208)
      by (apply (Z.mod_unique _ _ (-1)); lia).
    split; [|rewrite andb_true_iff, !Z.leb_le; lia].
    replace (48 <=? byte c) with false by (symmetry; apply Z.leb_gt; lia).
    cbn [andb negb]. apply Z.ltb_lt. lia.
  - rewrite Z.mod_small by lia. split; [|reflexivity].
    replace (48 <=? byte c) with true by (symmetry; apply Z.leb_le; lia).
    cbn [andb]. destruct (Z.leb_spec (byte c) 57); cbn [negb];
      [apply Z.ltb_ge | apply Z.ltb_lt]; lia.
Qed.

Lemma Atoi_digits_spec s n :
  Atoi_digits s n = if allDigits s then Some (digitsValue s n) else None.
Proof.
  revert n. induction s as [|c s IH]; intros n; [reflexivity|].
  cbn [Atoi_digits allDigits digitsValue]. cbv zeta.
  destruct (fast_digit c) as [Hlt Hval]. rewrite Hlt.
  destruct (isDigit c); cbn [negb andb]; [|reflexivity].
  rewrite (Hval eq_refl). apply IH.
Qed.

Lemma digitsValue_bounds s n :
  allDigits s = true -> 0 <= n ->
  n * 10 ^ Z.of_nat (String.length s) <= digitsValue s n
  < (n + 1) * 10 ^ Z.of_nat (String.length s).
Proof.
  revert n. induction s as [|c s IH]; intros n Hd Hn.
  - simpl. lia.
  - cbn [allDigits] in Hd. apply andb_true_iff in Hd as [Hc Hs].
    apply isDigit_spec in Hc. cbn [digitsValue String.length].
    specialize (IH (n * 10 + (byte c - 48)) Hs ltac:(lia)).
    rewrite Nat2Z.inj_succ, Z.pow_succ_r by lia.
    pose proof (Z.pow_pos_nonneg 10 (Z.of_nat (String.length s)) ltac:(lia) ltac:(lia)).
    nia.
Qed.

Lemma ParseUint_loop_nondigit c s n :
  isDigit c = false -> ParseUint_loop (String c s) n = (0, Some ErrSyntax).
Proof.
  intros Hc. cbn [ParseUint_loop]. cbv zeta. unfold isDigit in Hc. rewrite Hc.
  destruct ((97 <=? lower (byte c)) && (lower (byte c) <=? 122)) eqn:Hl; [|reflexivity].
  apply andb_true_iff in Hl as [Hl _]. apply Z.leb_le in Hl.
  replace (10 <=? lower (byte c) - 97 + 10) with true by (symmetry; apply Z.leb_le; lia).
  reflexivity.
Qed.

Lemma ParseUint_loop_digits s n :
  allDigits s = true -> 0 <= n < 2 ^ 64 ->
  ParseUint_loop s n
  = if digitsValue s n <? 2 ^ 64 then (digitsValue s n, None)
    else (maxUint64, Some ErrRange).
Proof.
  revert n. induction s as [|c s IH]; intros n Hd Hn.
  - cbn. replace (n <? 2 ^ 64) with true by (symmetry; apply Z.ltb_lt; lia). reflexivity.
  - cbn [allDigits] in Hd. apply andb_true_iff in Hd as [Hc Hs].
    pose proof (proj1 (isDigit_spec c) Hc) as Hb.
    assert (Hgrow : forall m, 0 <= m -> m <= digitsValue s m).
    { intros m Hm. pose proof (digitsValue_bounds s m Hs Hm) as [Hlo _].
      pose proof (Z.pow_pos_nonneg 10 (Z.of_nat (String.length s)) ltac:(lia) ltac:(lia)).
      nia. }
    cbn [ParseUint_loop digitsValue]. cbv zeta. unfold isDigit in Hc. rewrite Hc.
    replace (10 <=? byte c - 48) with false by (symmetry; apply Z.leb_gt; lia).
    change (maxUint64 / 10 + 1) with 1844674407370955162.
    change (2 ^ 64) with 18446744073709551616 in *.
    unfold maxUint64. change (2 ^ 64 - 1) with 18446744073709551615.
    specialize (Hgrow (n * 10 + (byte c - 48)) ltac:(lia)).
    destruct (Z.leb_spec 1844674407370955162 n) as [Hcut | Hcut].
    { replace (_ <? _) with false by (symmetry; apply Z.ltb_ge; lia). reflexivity. }
    rewrite (Z.mod_small (n * 10)) by lia.
    destruct (Z_lt_le_dec (n * 10 + (byte c - 48)) 18446744073709551616) as [Hfit | Hover].
    + rewrite Z.mod_small by lia.
      replace (_ <? n * 10) with false by (symmetry; apply Z.ltb_ge; lia).
      replace (18446744073709551615 <? _) with false by (symmetry; apply Z.ltb_ge; lia).
      cbn [orb]. apply IH; [exact Hs | lia].
    + replace ((n * 10 + (byte c - 48)) mod 18446744073709551616)
        with (n * 10 + (byte c - 48) - 18446744073709551616)
        by (apply (Z.mod_unique _ _ 1); lia).
      replace (_ <? n * 10) with true by (symmetry; apply Z.ltb_lt; lia).
      cbn [orb].
      replace (_ <? _) with false by (symmetry; apply Z.ltb_ge; lia). reflexivity.
Qed.

Lemma ParseUint_loop_garbage s n :
  allDigits s = false -> 0 <= n < 2 ^ 64 -> snd (ParseUint_loop s n) <> None.
Proof.
  revert n. induction s as [|c s IH]; intros n Hd Hn; [discriminate|].
  cbn [allDigits] in Hd. destruct (isDigit c) eqn:Hc.
  - cbn [andb] in Hd. pose proof (proj1 (isDigit_spec c) Hc) as Hb.
    cbn [ParseUint_loop]. cbv zeta. unfold isDigit in Hc. rewrite Hc.
    replace (10 <=? byte c - 48) with false by (symmetry; apply Z.leb_gt; lia).
    destruct (_ <=? n); [discriminate|].
    destruct (_ || _); [discriminate|].
    apply IH; [exact Hd|]. apply Z.mod_pos_bound. reflexivity.
  - rewrite (ParseUint_loop_nondigit c s n Hc). discriminate.
Qed.

Lemma ParseUint_loop_range s n :
  snd (ParseUint_loop s n) = Some ErrRange -> fst (ParseUint_loop s n) = maxUint64.
Proof.
  revert n. induction s as [|c s IH]; intros n; [discriminate|].
  cbn [ParseUint_loop]. cbv zeta.
  destruct (if (48 <=? byte c) && (byte c <=? 57) then _ else _) as [d|]; [|discriminate].
  destruct (10 <=? d); [discriminate|].
  destruct (_ <=? n); [reflexivity|].
  destruct (_ || _); [reflexivity|]. apply IH.
Qed.

Lemma digits_of_sign c rest :
  (if Ascii.eqb c "+" then rest else if Ascii.eqb c "-" then rest else String c rest)
  = (if Ascii.eqb c "+" || Ascii.eqb c "-" then rest else String c rest).
Proof. destruct (Ascii.eqb c "+"), (Ascii.eqb c "-"); reflexivity. Qed.

Lemma ParseUint_unfold s :
  ParseUint s = if String.eqb s "" then (0, Some ErrSyntax) else ParseUint_loop s 0.
Proof. destruct s; reflexivity. Qed.

Lemma ParseInt_spec s v :
  ParseInt s = (v, None) <-> decimal s = Some v /\ - 2 ^ 63 <= v < 2 ^ 63.
Proof.
  destruct s as [|c rest]; [split; [discriminate | intros [? _]; discriminate]|].
  unfold ParseInt, decimal. rewrite digits_of_sign.
  set (digits := if Ascii.eqb c "+" || Ascii.eqb c "-" then rest else String c rest).
  change (2 ^ (intSize - 1)) with 9223372036854775808.
  change (2 ^ 63) with 9223372036854775808.
  clearbody digits. rewrite ParseUint_unfold.
  destruct (String.eqb digits ""); cbn [negb andb];
    [split; [discriminate | intros [? _]; discriminate]|].
  destruct (allDigits digits) eqn:Hall.
  - rewrite (ParseUint_loop_digits digits 0 Hall ltac:(lia)).
    pose proof (digitsValue_bounds digits 0 Hall ltac:(lia)) as [Hlo _].
    change (2 ^ 64) with 18446744073709551616.
    destruct (Z.ltb_spec (digitsValue digits 0) 18446744073709551616) as [Hfit | Hover].
    + destruct (Ascii.eqb c "-"); cbn [negb andb].
      * destruct (Z.ltb_spec 9223372036854775808 (digitsValue digits 0)).
        -- split; [discriminate | intros [[= <-] ?]; lia].
        -- split; [intros [= <-]; split; [reflexivity | lia] | intros [[= <-] _]; reflexivity].
      * destruct (Z.leb_spec 9223372036854775808 (digitsValue digits 0)).
        -- split; [discriminate | intros [[= <-] ?]; lia].
        -- split; [intros [= <-]; split; [reflexivity | lia] | intros [[= <-] _]; reflexivity].
    + unfold maxUint64. change (2 ^ 64 - 1) with 18446744073709551615.
      destruct (Ascii.eqb c "-"); cbn [negb andb Z.leb Z.ltb Z.compare Pos.compare
                                       Pos.compare_cont].
      * split; [discriminate | intros [[= <-] ?]; lia].
      * split; [discriminate | intros [[= <-] ?]; lia].
  - pose proof (ParseUint_loop_garbage digits 0 Hall ltac:(lia)) as Hbad.
    pose proof (ParseUint_loop_range digits 0) as Hmax.
    destruct (ParseUint_loop digits 0) as [un [[]|]]; cbn [fst snd] in *; [| |congruence].
    + split; [discriminate | intros [? _]; discriminate].
    + rewrite (Hmax eq_refl). unfold maxUint64. change (2 ^ 64 - 1) with 18446744073709551615.
      destruct (Ascii.eqb c "-"); cbn [negb andb Z.leb Z.ltb Z.compare Pos.compare
                                       Pos.compare_cont];
        (split; [discriminate | intros [? _]; discriminate]).
Qed.

Lemma length_digits_le c rest :
  (String.length (if Ascii.eqb c "+" || Ascii.eqb c "-" then rest else String c rest)
   <= String.length (String c rest))%nat.
Proof. destruct (_ || _); simpl; lia. Qed.

Lemma Atoi_fast_spec s v :
  (String.length s < 19)%nat ->
  Atoi_fast s = (v, None) <-> decimal s = Some v /\ - 2 ^ 63 <= v < 2 ^ 63.
Proof.
  intros Hlen. destruct s as [|c rest]; [split; [discriminate | intros [? _]; discriminate]|].
  unfold Atoi_fast, decimal. rewrite (orb_comm (Ascii.eqb c "-")).
  pose proof (length_digits_le c rest) as Hdl.
  set (digits := if Ascii.eqb c "+" || Ascii.eqb c "-" then rest else String c rest) in *.
  assert (Hempty : (Ascii.eqb c "+" || Ascii.eqb c "-") && (String.length digits <? 1)%nat
                   = String.eqb digits "").
  { subst digits. destruct (_ || _); [|reflexivity]. destruct rest; reflexivity. }
  rewrite Hempty, Atoi_digits_spec.
  destruct (String.eqb digits ""); cbn [negb andb];
    [split; [discriminate | intros [? _]; discriminate]|].
  destruct (allDigits digits) eqn:Hall;
    [|split; [discriminate | intros [? _]; discriminate]].
  pose proof (digitsValue_bounds digits 0 Hall ltac:(lia)) as [Hlo Hhi].
  assert (Hpow : 10 ^ Z.of_nat (String.length digits) <= 10 ^ 18).
  { apply Z.pow_le_mono_r; lia. }
  change (10 ^ 18) with 1000000000000000000 in Hpow.
  change (2 ^ 63) with 9223372036854775808.
  split.
  - intros [= <-]. split; [reflexivity|]. destruct (Ascii.eqb c "-"); lia.
  - intros [[= <-] _]. reflexivity.
Qed.

(** [Atoi] succeeds exactly on the decimal notation of an [int], and gives
    its value. *)
Lemma Atoi_spec s v :
  Atoi s = (v, None) <-> decimal s = Some v /\ - 2 ^ 63 <= v < 2 ^ 63.
Proof.
  unfold Atoi. destruct ((0 <? String.length s)%nat && (String.length s <? 19)%nat) eqn:Hl.
  - apply andb_true_iff in Hl as [_ Hl]. apply Nat.ltb_lt in Hl.
    apply Atoi_fast_spec, Hl.
  - apply ParseInt_spec.
Qed.

Lemma ParseInt_clamp s v :
  decimal s = Some v -> ~ (- 2 ^ 63 <= v < 2 ^ 63) ->
  ParseInt s = (if v <? 0 then - 2 ^ 63 else 2 ^ 63 - 1, Some ErrRange).
Proof.
  destruct s as [|c rest]; [discriminate|].
  unfold ParseInt, decimal. rewrite digits_of_sign.
  set (digits := if Ascii.eqb c "+" || Ascii.eqb c "-" then rest else String c rest).
  change (2 ^ (intSize - 1)) with 9223372036854775808.
  change (2 ^ 63) with 9223372036854775808.
  clearbody digits. rewrite ParseUint_unfold.
  destruct (String.eqb digits ""); cbn [negb andb]; [discriminate|].
  destruct (allDigits digits) eqn:Hall; [|discriminate].
  rewrite (ParseUint_loop_digits digits 0 Hall ltac:(lia)).
  pose proof (digitsValue_bounds digits 0 Hall ltac:(lia)) as [Hlo _].
  change (2 ^ 64) with 18446744073709551616.
  intros [= <-] Hout.
  destruct (Z.ltb_spec (digitsValue digits 0) 18446744073709551616) as [Hfit | Hover].
  - destruct (Ascii.eqb c "-"); cbn [negb andb].
    + destruct (Z.ltb_spec 9223372036854775808 (digitsValue digits 0)); [|lia].
      replace (- digitsValue digits 0 <? 0) with true by (symmetry; apply Z.ltb_lt; lia).
      reflexivity.
    + destruct (Z.leb_spec 9223372036854775808 (digitsValue digits 0)); [|lia].
      replace (digitsValue digits 0 <? 0) with false by (symmetry; apply Z.ltb_ge; lia).
      reflexivity.
  - unfold maxUint64. change (2 ^ 64 - 1) with 18446744073709551615.
    destruct (Ascii.eqb c "-").
    + replace (- digitsValue digits 0 <? 0) with true by (symmetry; apply Z.ltb_lt; lia).
      reflexivity.
    + replace (digitsValue digits 0 <? 0) with false by (symmetry; apply Z.ltb_ge; lia).
      reflexivity.
Qed.

(** Out of range, [Atoi] gives the bound of [int] on the side of the sign. *)
Lemma Atoi_clamp s v :
  decimal s = Some v -> ~ (- 2 ^ 63 <= v < 2 ^ 63) ->
  Atoi s = (if v <? 0 then - 2 ^ 63 else 2 ^ 63 - 1, Some ErrRange).
Proof.
  intros Hd Hout. unfold Atoi.
  destruct ((0 <? String.length s)%nat && (String.length s <? 19)%nat) eqn:Hl.
  - exfalso. apply andb_true_iff in Hl as [_ Hl]. apply Nat.ltb_lt in Hl.
    destruct (Atoi_fast s) as [v' e] eqn:Hf.
    assert (Hsome : exists v'', Atoi_fast s = (v'', None)).
    { destruct s as [|c rest]; [discriminate|]. revert Hd. clear. unfold Atoi_fast, decimal.
      rewrite (orb_comm (Ascii.eqb c "-")).
      set (digits := if Ascii.eqb c "+" || Ascii.eqb c "-" then rest else String c rest).
      assert (Hempty : (Ascii.eqb c "+" || Ascii.eqb c "-") && (String.length digits <? 1)%nat
                       = String.eqb digits "").
      { subst digits. destruct (_ || _); [|reflexivity]. destruct rest; reflexivity. }
      rewrite Hempty, Atoi_digits_spec.
      destruct (String.eqb digits ""); cbn [negb andb]; [discriminate|].
      destruct (allDigits digits); [|discriminate]. eauto. }
    destruct Hsome as [v'' Hv''].
    apply (Atoi_fast_spec s v'' Hl) in Hv'' as [Hd' Hr]. congruence.
  - apply ParseInt_clamp; assumption.
Qed.

(** On a range error the value is the bound of [int] on the side of the
    sign, whatever follows the digits that overflowed. *)
Lemma Atoi_range_bound s v :
  Atoi s = (v, Some ErrRange) ->
  v = if gostrings.HasPrefix s "-" then - 2 ^ 63 else 2 ^ 63 - 1.
Proof.
  unfold Atoi. destruct ((0 <? String.length s)%nat && (String.length s <? 19)%nat).
  { intros H. apply Atoi_fast_failure in H as [? _]. discriminate. }
  destruct s as [|c rest]; [discriminate|].
  cbn [gostrings.HasPrefix]. rewrite HasPrefix_nil, andb_true_r, (Ascii.eqb_sym "-" c).
  unfold ParseInt. cbv zeta. change (2 ^ (intSize - 1)) with (2 ^ 63).
  destruct (ParseUint _) as [un [[]|]]; [discriminate| |];
    (destruct (negb (Ascii.eqb c "-") && (2 ^ 63 <=? un)) eqn:Hpos;
     [apply andb_true_iff in Hpos as [Hneg _]; apply negb_true_iff in Hneg; rewrite Hneg;
      intros [= <-]; reflexivity|];
     destruct (Ascii.eqb c "-" && (2 ^ 63 <? un)) eqn:Hmin;
     [apply andb_true_iff in Hmin as [Hneg _]; rewrite Hneg; intros [= <-]; reflexivity|];
     discriminate).
Qed.

End AtoiSuccess.

(** C8, as the code has it.  [parseHeader] is a total function that agrees
    with the reference definition on every header: the pieces between the
    commas, untrimmed ("GET, POST" gives "GET" and " POST"), and no piece at
    all for an absent or empty header, never the single piece "".  The
    pieces joined by commas give the header back, none of them holds a
    comma, and there is one more piece than there are commas.  An absent
    Access-Control-Max-Age gives 0; a value on which [Atoi] fails gives 0
    when the failure is a syntax error, which is every failure of a value
    shorter than 19 bytes. On a range error it gives the bound of a 64-bit
    int on the side of the sign: -2^63 for a value that begins with a minus
    sign, 2^63-1 otherwise. For the decimal notation of a number out of
    range that is the nearest bound: -2^63 below the range, 2^63-1 above. *)
Theorem header_parsing_reference :
  (forall header, parseHeader header = parseHeader_ref header)
  /\ parseHeader "GET, POST" = ["GET"; " POST"]
  /\ (forall header, parseHeader header = [] <-> header = "")
  /\ (forall header, parseHeader header <> [""])
  /\ (forall header, header <> "" ->
        joinCommas (parseHeader header) = header
        /\ Forall (fun piece => commas piece = O) (parseHeader header)
        /\ length (parseHeader header) = S (commas header))
  /\ (forall resp,
        (http.Header resp !! "Access-Control-Allow-Methods" = None ->
         AllowMethods (readConfig resp) = [])
        /\ (http.Header resp !! "Access-Control-Allow-Headers" = None ->
            AllowHeaders (readConfig resp) = [])
        /\ (http.Header resp !! "Access-Control-Expose-Headers" = None ->
            ExposeHeaders (readConfig resp) = []))
  /\ (forall resp, http.Header resp !! "Access-Control-Max-Age" = None ->
        MaxAge (readConfig resp) = 0)
  /\ (forall resp e,
        snd (strconv.Atoi (http.Get (http.Header resp) "Access-Control-Max-Age")) = Some e ->
        (e = strconv.ErrSyntax /\ MaxAge (readConfig resp) = 0)
        \/ (e = strconv.ErrRange
            /\ MaxAge (readConfig resp)
               = if gostrings.HasPrefix
                      (http.Get (http.Header resp) "Access-Control-Max-Age") "-"
                 then - 2 ^ 63 else 2 ^ 63 - 1))
  /\ (forall resp v,
        decimal (http.Get (http.Header resp) "Access-Control-Max-Age") = Some v ->
        (v < - 2 ^ 63 ->
         snd (strconv.Atoi (http.Get (http.Header resp) "Access-Control-Max-Age"))
           = Some strconv.ErrRange
         /\ MaxAge (readConfig resp) = - 2 ^ 63)
        /\ (2 ^ 63 <= v ->
            snd (strconv.Atoi (http.Get (http.Header resp) "Access-Control-Max-Age"))
              = Some strconv.ErrRange
            /\ MaxAge (readConfig resp) = 2 ^ 63 - 1))
  /\ (forall resp,
        (String.length (http.Get (http.Header resp) "Access-Control-Max-Age") < 19)%nat ->
        snd (strconv.Atoi (http.Get (http.Header resp) "Access-Control-Max-Age")) <> None ->
        MaxAge (readConfig resp) = 0).
Proof.
  split; [exact parseHeader_matches|].
  split; [reflexivity|].
  split.
  { intros header. split.
    - rewrite parseHeader_matches. destruct header as [|c s]; [reflexivity|].
      intros H. exfalso. exact (pieces_nonempty _ H).
    - intros ->. reflexivity. }
  split; [exact parseHeader_never_blank|].
  split.
  { intros header Hne. rewrite parseHeader_matches.
    destruct header as [|c s]; [congruence|]. unfold parseHeader_ref.
    auto using pieces_join, pieces_no_comma, pieces_length. }
  split.
  { intros resp. unfold readConfig, http.Get. cbn [AllowMethods AllowHeaders ExposeHeaders].
    repeat split; intros ->; reflexivity. }
  split.
  { intros resp Habs. unfold readConfig, http.Get. simpl. rewrite Habs. reflexivity. }
  split.
  { intros resp e He.
    change (MaxAge (readConfig resp))
      with (fst (strconv.Atoi (http.Get (http.Header resp) "Access-Control-Max-Age"))).
    destruct (strconv.Atoi _) as [v o] eqn:Ha. cbn [fst snd] in *. subst o.
    destruct (Atoi_failure _ _ _ Ha) as [[-> ->] | [-> _]]; [left; auto|].
    right. split; [reflexivity | exact (Atoi_range_bound _ _ Ha)]. }
  split.
  { intros resp v Hd.
    change (MaxAge (readConfig resp))
      with (fst (strconv.Atoi (http.Get (http.Header resp) "Access-Control-Max-Age"))).
    split; intros Hout.
    - rewrite (Atoi_clamp _ v Hd) by lia.
      replace (v <? 0) with true by (symmetry; apply Z.ltb_lt; lia).
      split; reflexivity.
    - rewrite (Atoi_clamp _ v Hd) by lia.
      replace (v <? 0) with false by (symmetry; apply Z.ltb_ge; lia).
      split; reflexivity. }
  intros resp Hlen Hfail. unfold readConfig. simpl.
  apply Atoi_short_failure; assumption.
Qed.

(** C8 as stated fails: a Max-Age of 2^63 does not parse as an [int], and
    the field is not zero. *)
Lemma max_age_out_of_range_is_not_zero :
  let resp := {| http.StatusCode := 200;
                 http.Header := {[ "Access-Control-Max-Age" := ["9223372036854775808"] ]} |} in
  snd (strconv.Atoi (http.Get (http.Header resp) "Access-Control-Max-Age"))
    = Some strconv.ErrRange
  /\ MaxAge (readConfig resp) = 9223372036854775807
  /\ MaxAge (readConfig resp) <> 0.
Proof. vm_compute. repeat split; discriminate. Qed.

(** ** One probe *)

Section Probe.

Variable E : Env.

Abbreviation ACAO resp := (http.Get (http.Header resp) "Access-Control-Allow-Origin").

Lemma AllowOrigins_readConfig resp : AllowOrigins (readConfig resp) = [ACAO resp].
Proof. reflexivity. Qed.

Lemma verdict1_readConfig url resp k :
  verdict1 E url resp (readConfig resp) k
  = k (decided resp (fst (firstVerdict E url (ACAO resp)))
                    (snd (firstVerdict E url (ACAO resp)))).
Proof.
  unfold verdict1, firstVerdict, at0, decided. rewrite AllowOrigins_readConfig.
  cbn [lookup list_lookup].
  destruct (String.eqb (ACAO resp) "*"); [reflexivity|].
  destruct (String.eqb (ACAO resp) "null"); [reflexivity|].
  destruct (String.eqb (PublicSuffix E url) ""); cbn [negb andb]; [reflexivity|].
  destruct (gostrings.HasSuffix _ _); reflexivity.
Qed.

Lemma In_messages_firstVerdict url a :
  fst (firstVerdict E url a) = true -> In (snd (firstVerdict E url a)) messages.
Proof.
  unfold firstVerdict, messages.
  destruct (String.eqb a "*"); [simpl; tauto|].
  destruct (String.eqb a "null"); [simpl; tauto|].
  destruct (negb _ && _); simpl; [tauto | discriminate].
Qed.

Lemma finish_shape url n st :
  (vulnerable st = true ->
     In (vulnerability st) messages /\ length (AllowOrigins (config st)) = 1%nat) ->
  shape E url n (finish url st).
Proof.
  intros H. unfold finish. destruct (vulnerable st) eqn:Hv.
  - destruct (H eq_refl). apply shape_send; auto.
  - apply shape_completed.
Qed.

Lemma probe3_shape client url st :
  (vulnerable st = true ->
     In (vulnerability st) messages /\ length (AllowOrigins (config st)) = 1%nat) ->
  shape E url 1 (probe3 E client url st).
Proof.
  intros H. unfold probe3. destruct (vulnerable st) eqn:Hv; cbn [negb].
  - apply finish_shape. rewrite Hv. exact H.
  - destruct (Parse E url) as [u|] eqn:Hp; [|apply shape_no_parse, Hp].
    destruct (NewRequest E url) eqn:Hn; cbn [negb]; [|apply shape_no_request, Hn].
    apply shape_do; [exact Hn | reflexivity |].
    intros resp. unfold at0. rewrite AllowOrigins_readConfig. cbn [lookup list_lookup].
    destruct (String.eqb _ _); apply finish_shape; cbn [vulnerable vulnerability config].
    + intros _. split; [simpl; tauto | reflexivity].
    + discriminate.
Qed.

Lemma probe2_shape client url st :
  (vulnerable st = true ->
     In (vulnerability st) messages /\ length (AllowOrigins (config st)) = 1%nat) ->
  shape E url 2 (probe2 E client url st).
Proof.
  intros H. unfold probe2. destruct (vulnerable st) eqn:Hv; cbn [negb].
  - unfold probe3. rewrite Hv. cbn [negb]. apply finish_shape. rewrite Hv. exact H.
  - destruct (NewRequest E url) eqn:Hn; cbn [negb]; [|apply shape_no_request, Hn].
    apply shape_do; [exact Hn | reflexivity |].
    intros resp. unfold at0. rewrite AllowOrigins_readConfig. cbn [lookup list_lookup].
    destruct (String.eqb _ _); apply probe3_shape; cbn [vulnerable vulnerability config].
    + intros _. split; [simpl; tauto | reflexivity].
    + discriminate.
Qed.

Lemma checkCORS_shape url to : shape E url 3 (checkCORS E url to).
Proof.
  unfold checkCORS. destruct (NewRequest E url) eqn:Hn; cbn [negb];
    [|apply shape_no_request, Hn].
  apply shape_do; [exact Hn | reflexivity |].
  intros resp. rewrite verdict1_readConfig. apply probe2_shape.
  cbn [decided vulnerable vulnerability config]. intros Hv.
  split; [apply In_messages_firstVerdict, Hv | reflexivity].
Qed.

End Probe.

(** ** Runs of one probe *)

Section Runs.

Context {W : Type}.
Variable E : Env.
Variable serve : W -> http.Client -> http.Request -> W * option http.Response.

Abbreviation ACAO resp := (http.Get (http.Header resp) "Access-Control-Allow-Origin").

Lemma run_Do client req k w :
  run serve (Do client req k) w
  = let t := run serve (k (snd (serve w client req))) (fst (serve w client req)) in
    {| exit := exit t; exchanges := (req, snd (serve w client req)) :: exchanges t;
       emitted := emitted t; after := after t |}.
Proof. reflexivity. Qed.

(** A probe never indexes out of range. *)
Lemma shape_no_panic url n p w : shape E url n p -> exit (run serve p w) <> PanicIndex.
Proof.
  intros H. revert w. induction H; intros w; simpl; try discriminate.
  destruct (snd (serve w client (GET url origin))) as [resp|]; [apply H2|].
  rewrite H0. discriminate.
Qed.

(** What a probe sends: at most one result, vulnerable, about its URL. *)
Lemma shape_emitted url n p w :
  shape E url n p ->
  emitted (run serve p w) = []
  \/ exists r, emitted (run serve p w) = [r] /\ exit (run serve p w) = Completed
               /\ URL r = url /\ Vulnerable r = true /\ In (Vulnerability r) messages
               /\ length (AllowOrigins (corsConfig r)) = 1%nat.
Proof.
  intros H. revert w. induction H; intros w; simpl; auto.
  - right. exists r. auto 10.
  - destruct (snd (serve w client (GET url origin))) as [resp|]; [apply H2|].
    rewrite H0. auto.
Qed.

Lemma shape_exchanges_le url n p w :
  shape E url n p -> (length (exchanges (run serve p w)) <= n)%nat.
Proof.
  intros H. revert w. induction H; intros w; simpl; try lia.
  destruct (snd (serve w client (GET url origin))) as [resp|].
  - specialize (H2 resp (fst (serve w client (GET url origin)))). lia.
  - rewrite H0. simpl. lia.
Qed.

(** Every request of a probe is a GET of the probed URL. *)
Lemma shape_requests url n p w :
  shape E url n p ->
  Forall (fun x => http.Method (fst x) = "GET" /\ http.URL (fst x) = url)
         (exchanges (run serve p w)).
Proof.
  intros H. revert w. induction H; intros w; simpl; try constructor; auto.
  destruct (snd (serve w client (GET url origin))) as [resp|]; [apply H2|].
  rewrite H0. constructor.
Qed.






End Runs.

(** ** The three blocks of [checkCORS], path by path *)

Section Paths.

Context {W : Type}.
Variable E : Env.
Variable serve : W -> http.Client -> http.Request -> W * option http.Response.

Abbreviation ACAO resp := (http.Get (http.Header resp) "Access-Control-Allow-Origin").

Lemma eqb_false_of_ne a b : a <> b -> String.eqb a b = false.
Proof. intros H. apply String.eqb_neq, H. Qed.

Lemma firstVerdict_wildcard url : firstVerdict E url "*" = (true, msgWildcard).
Proof. reflexivity. Qed.

Lemma firstVerdict_null url : firstVerdict E url "null" = (true, msgNull).
Proof. reflexivity. Qed.

(** Past the tests for "*" and "null", the first block finds the URL
    vulnerable exactly when the public suffix the library returns for the
    URL string is not empty and ends the reflected value. *)
Lemma firstVerdict_suffix url a :
  a <> "*" -> a <> "null" ->
  firstVerdict E url a
  = if negb (String.eqb (PublicSuffix E url) "")
       && gostrings.HasSuffix a (PublicSuffix E url)
    then (true, msgSameDomain) else (false, "").
Proof.
  intros H1 H2. unfold firstVerdict.
  rewrite (eqb_false_of_ne _ _ H1), (eqb_false_of_ne _ _ H2). reflexivity.
Qed.

Lemma firstVerdict_absent url : firstVerdict E url "" = (false, "").
Proof.
  rewrite firstVerdict_suffix by discriminate.
  destruct (PublicSuffix E url); reflexivity.
Qed.

Lemma Get_absent (h : gmap string (list string)) key : h !! key = None -> http.Get h key = "".
Proof. intros H. unfold http.Get. rewrite H. reflexivity. Qed.

Lemma origin_not_empty scheme host : String.eqb "" (scheme ++ "://" ++ host) = false.
Proof. destruct scheme; reflexivity. Qed.

(** The first exchange, when the request can be built and is answered. *)
Lemma run_checkCORS_answered url to w resp :
  NewRequest E url = true ->
  snd (serve w {| http.Timeout := to |} (GET url "null")) = Some resp ->
  let w1 := fst (serve w {| http.Timeout := to |} (GET url "null")) in
  let t := run serve (probe2 E {| http.Timeout := to |} url
                        (decided resp (fst (firstVerdict E url (ACAO resp)))
                                      (snd (firstVerdict E url (ACAO resp))))) w1 in
  run serve (checkCORS E url to) w
  = {| exit := exit t; exchanges := (GET url "null", Some resp) :: exchanges t;
       emitted := emitted t; after := after t |}.
Proof.
  intros Hn Hs. unfold checkCORS. rewrite Hn. cbn [negb]. rewrite run_Do, Hs.
  cbv zeta. rewrite verdict1_readConfig. reflexivity.
Qed.

(** Once a block has found the URL vulnerable, nothing more is asked. *)
Lemma run_probe2_decided client url resp msg w :
  run serve (probe2 E client url (decided resp true msg)) w
  = {| exit := Completed; exchanges := []; emitted := [verdict url resp msg]; after := w |}.
Proof. reflexivity. Qed.

(** The second exchange, when the first block found nothing. *)
Lemma run_probe2_answered client url st w resp :
  vulnerable st = false ->
  NewRequest E url = true ->
  snd (serve w client (GET url "http://example.com")) = Some resp ->
  let w1 := fst (serve w client (GET url "http://example.com")) in
  let st' := if String.eqb (ACAO resp) "http://example.com"
             then decided resp true msgDifferentDomain
             else decided resp (vulnerable st) (vulnerability st) in
  let t := run serve (probe3 E client url st') w1 in
  run serve (probe2 E client url st) w
  = {| exit := exit t; exchanges := (GET url "http://example.com", Some resp) :: exchanges t;
       emitted := emitted t; after := after t |}.
Proof.
  intros Hv Hn Hs. unfold probe2. rewrite Hv, Hn. cbn [negb]. rewrite run_Do, Hs.
  cbv zeta. unfold at0. rewrite AllowOrigins_readConfig. cbn [lookup list_lookup].
  destruct (String.eqb _ _); reflexivity.
Qed.

Lemma run_probe3_decided client url resp msg w :
  run serve (probe3 E client url (decided resp true msg)) w
  = {| exit := Completed; exchanges := []; emitted := [verdict url resp msg]; after := w |}.
Proof. reflexivity. Qed.

(** The third exchange, when the first two blocks found nothing. *)
Lemma run_probe3_answered client url st w u resp :
  vulnerable st = false ->
  Parse E url = Some u ->
  NewRequest E url = true ->
  let origin := neturl.Scheme u ++ "://" ++ neturl.Host u in
  snd (serve w client (GET url origin)) = Some resp ->
  run serve (probe3 E client url st) w
  = {| exit := Completed;
       exchanges := [(GET url origin, Some resp)];
       emitted := if String.eqb (ACAO resp) origin
                  then [verdict url resp msgSameDomain] else [];
       after := fst (serve w client (GET url origin)) |}.
Proof.
  intros Hv Hp Hn origin Hs. unfold probe3. rewrite Hv, Hp, Hn. cbn [negb].
  rewrite run_Do. fold origin. rewrite Hs.
  cbv zeta. unfold at0. rewrite AllowOrigins_readConfig. cbn [lookup list_lookup].
  destruct (String.eqb _ _); reflexivity.
Qed.

End Paths.

(** ** The verdicts of the probe engine *)

(** C4. When the answer to the first request, the one with [Origin: null],
    carries [Access-Control-Allow-Origin: *], the probe makes that one
    exchange and no other, and sends one result: vulnerable, described as a
    wildcard origin and filed as such, with the status and the headers of
    that first response. *)
Theorem wildcard_decided_by_first_probe
    {W : Type} (E : Env)
    (serve : W -> http.Client -> http.Request -> W * option http.Response)
    (url : string) (to : Z) (w : W) (resp : http.Response) :
  NewRequest E url = true ->
  snd (serve w {| http.Timeout := to |} (GET url "null")) = Some resp ->
  http.Get (http.Header resp) "Access-Control-Allow-Origin" = "*" ->
  let t := run serve (checkCORS E url to) w in
  exchanges t = [(GET url "null", Some resp)]
  /\ emitted t = [verdict url resp msgWildcard]
  /\ category (verdict url resp msgWildcard) = Some WildcardOrigin
  /\ exit t = Completed.
Proof.
  intros Hn Hs Ha t. subst t.
  rewrite (run_checkCORS_answered E serve url to w resp Hn Hs). cbv zeta.
  rewrite Ha, firstVerdict_wildcard. cbn [fst snd].
  rewrite run_probe2_decided. cbn [exit exchanges emitted].
  repeat split; reflexivity.
Qed.

Lemma wildcard_decided_by_first_probe_witness :
  let url := "http://example.com/" in
  let resp := {| http.StatusCode := 200;
                 http.Header := list_to_map [("Access-Control-Allow-Origin", ["*"])] |} in
  let t := run (stateless Sample.wildcard) (checkCORS Sample.env url 10) tt in
  exchanges t = [(GET url "null", Some resp)]
  /\ emitted t = [verdict url resp msgWildcard]
  /\ category (verdict url resp msgWildcard) = Some WildcardOrigin
  /\ exit t = Completed.
Proof.
  apply (wildcard_decided_by_first_probe Sample.env (stateless Sample.wildcard));
    reflexivity.
Defined.

(** C5. When the answer to [Origin: null] gives the first block nothing (the
    reflected value is neither "*" nor "null" nor ended by the public
    suffix) and the answer to [Origin: http://example.com] reflects exactly
    that origin, the probe makes two exchanges and no third, and sends one
    result: vulnerable, described and filed as a different domain, with the
    status and the headers of the second response. *)
Theorem third_party_reflection_costs_two_probes
    {W : Type} (E : Env)
    (serve : W -> http.Client -> http.Request -> W * option http.Response)
    (url : string) (to : Z) (w : W) (resp1 resp2 : http.Response) :
  let client := {| http.Timeout := to |} in
  let a1 := http.Get (http.Header resp1) "Access-Control-Allow-Origin" in
  NewRequest E url = true ->
  snd (serve w client (GET url "null")) = Some resp1 ->
  a1 <> "*" -> a1 <> "null" ->
  (PublicSuffix E url = "" \/ gostrings.HasSuffix a1 (PublicSuffix E url) = false) ->
  snd (serve (fst (serve w client (GET url "null"))) client (GET url "http://example.com"))
    = Some resp2 ->
  http.Get (http.Header resp2) "Access-Control-Allow-Origin" = "http://example.com" ->
  let t := run serve (checkCORS E url to) w in
  exchanges t = [(GET url "null", Some resp1); (GET url "http://example.com", Some resp2)]
  /\ emitted t = [verdict url resp2 msgDifferentDomain]
  /\ category (verdict url resp2 msgDifferentDomain) = Some DifferentDomain
  /\ exit t = Completed.
Proof.
  intros client a1 Hn Hs1 Hw Hnull Hsuf Hs2 Ha2 t. subst t client.
  rewrite (run_checkCORS_answered E serve url to w resp1 Hn Hs1). cbv zeta.
  fold a1. rewrite (firstVerdict_suffix E url a1 Hw Hnull).
  replace (negb _ && _) with false.
  2:{ destruct Hsuf as [-> | ->]; [reflexivity | apply eq_sym, andb_false_r]. }
  cbn [fst snd].
  rewrite (run_probe2_answered E serve _ url (decided resp1 false "") _ resp2
             eq_refl Hn Hs2). cbv zeta.
  rewrite Ha2. cbn [String.eqb Ascii.eqb Bool.eqb].
  rewrite run_probe3_decided. cbn [exit exchanges emitted].
  repeat split; reflexivity.
Qed.

Lemma third_party_reflection_costs_two_probes_witness :
  let url := "http://example.com/" in
  let t := run (stateless Sample.reflecting) (checkCORS Sample.env url 10) tt in
  length (exchanges t) = 2%nat
  /\ map Vulnerability (emitted t) = [msgDifferentDomain]
  /\ map (fun r => AllowMethods (corsConfig r)) (emitted t) = [["GET"; " POST"]].
Proof.
  pose proof (third_party_reflection_costs_two_probes
                Sample.env (stateless Sample.reflecting) "http://example.com/" 10 tt
                {| http.StatusCode := 200; http.Header := list_to_map [] |}
                {| http.StatusCode := 200;
                   http.Header := list_to_map
                     [("Access-Control-Allow-Origin", ["http://example.com"]);
                      ("Access-Control-Allow-Methods", ["GET, POST"])] |}
                eq_refl eq_refl) as H.
  cbv zeta in H.
  destruct H as (Hx & He & _); try reflexivity; try discriminate.
  - right. reflexivity.
  - cbv zeta. rewrite Hx, He. repeat split; reflexivity.
Defined.

(** C6. When the request can be built, the URL parses, and every answer of
    the server comes without any CORS header, the probe makes exactly three
    exchanges, with the origins "null", "http://example.com" and the
    target's own scheme and host, and sends nothing. *)
Theorem no_cors_headers_costs_three_probes
    {W : Type} (E : Env)
    (serve : W -> http.Client -> http.Request -> W * option http.Response)
    (url : string) (to : Z) (w : W) (u : neturl.URL) :
  NewRequest E url = true ->
  Parse E url = Some u ->
  (forall w client req, exists resp,
      snd (serve w client req) = Some resp /\ noCORSHeaders resp) ->
  let t := run serve (checkCORS E url to) w in
  emitted t = []
  /\ length (exchanges t) = 3%nat
  /\ map (fun x => http.Origin (fst x)) (exchanges t)
     = ["null"; "http://example.com"; neturl.Scheme u ++ "://" ++ neturl.Host u]
  /\ exit t = Completed.
Proof.
  intros Hn Hp Hserve t. subst t.
  assert (Habs : forall resp, noCORSHeaders resp ->
            http.Get (http.Header resp) "Access-Control-Allow-Origin" = "").
  { intros resp Hno. apply Get_absent, Hno. reflexivity. }
  destruct (Hserve w {| http.Timeout := to |} (GET url "null")) as (r1 & Hs1 & Hno1).
  rewrite (run_checkCORS_answered E serve url to w r1 Hn Hs1). cbv zeta.
  rewrite (Habs r1 Hno1), firstVerdict_absent. cbn [fst snd].
  set (w1 := fst (serve w _ _)).
  destruct (Hserve w1 {| http.Timeout := to |} (GET url "http://example.com"))
    as (r2 & Hs2 & Hno2).
  rewrite (run_probe2_answered E serve _ url (decided r1 false "") w1 r2 eq_refl Hn Hs2).
  cbv zeta. rewrite (Habs r2 Hno2). cbn [String.eqb decided vulnerable vulnerability].
  set (w2 := fst (serve w1 _ _)).
  destruct (Hserve w2 {| http.Timeout := to |}
              (GET url (neturl.Scheme u ++ "://" ++ neturl.Host u)))
    as (r3 & Hs3 & Hno3).
  rewrite (run_probe3_answered E serve _ url (decided r2 false "") w2 u r3 eq_refl Hp Hn Hs3).
  rewrite (Habs r3 Hno3), origin_not_empty. cbn [exit exchanges emitted].
  repeat split; reflexivity.
Qed.

Lemma no_cors_headers_costs_three_probes_witness :
  let t := run (stateless Sample.plain)
               (checkCORS Sample.env "https://shop.example.co.uk" 10) tt in
  emitted t = []
  /\ length (exchanges t) = 3%nat
  /\ map (fun x => http.Origin (fst x)) (exchanges t)
     = ["null"; "http://example.com"; "https://shop.example.co.uk"]
  /\ exit t = Completed.
Proof.
  apply (no_cors_headers_costs_three_probes Sample.env (stateless Sample.plain)
           "https://shop.example.co.uk" 10 tt
           {| neturl.Scheme := "https"; neturl.Host := "shop.example.co.uk" |}).
  - reflexivity.
  - reflexivity.
  - intros w client req. eexists. split; [reflexivity|].
    intros key Hkey. cbn [Sample.reply http.Header list_to_map foldr uncurry fst snd].
    destruct (decide (key = "Content-Type")) as [->|Hne]; [discriminate|].
    rewrite lookup_insert_ne by congruence. apply lookup_empty.
Defined.

(** C9. The allowed origins read from a response are always a list of one
    element, the value of [Access-Control-Allow-Origin] (the empty string
    when the header is absent), so no probe ever stops on an index out of
    range, and every result sent carries such a list. *)
Theorem AllowOrigins_is_a_singleton
    {W : Type} (E : Env)
    (serve : W -> http.Client -> http.Request -> W * option http.Response)
    (url : string) (to : Z) (w : W) (resp : http.Response) :
  AllowOrigins (readConfig resp)
    = [http.Get (http.Header resp) "Access-Control-Allow-Origin"]
  /\ length (AllowOrigins (readConfig resp)) = 1%nat
  /\ (http.Header resp !! "Access-Control-Allow-Origin" = None ->
      AllowOrigins (readConfig resp) = [""])
  /\ (forall k, at0 (AllowOrigins (readConfig resp)) k
                = k (http.Get (http.Header resp) "Access-Control-Allow-Origin"))
  /\ exit (run serve (checkCORS E url to) w) <> PanicIndex
  /\ Forall (fun r => length (AllowOrigins (corsConfig r)) = 1%nat)
            (emitted (run serve (checkCORS E url to) w)).
Proof.
  split; [reflexivity|]. split; [reflexivity|].
  split. { intros H. rewrite AllowOrigins_readConfig, (Get_absent _ _ H). reflexivity. }
  split; [reflexivity|].
  split. { eapply shape_no_panic, checkCORS_shape. }
  destruct (shape_emitted E serve url 3 _ w (checkCORS_shape E url to))
    as [-> | (r & -> & _ & _ & _ & _ & Hlen)]; repeat constructor. exact Hlen.
Qed.

(** ** The collector's categories *)

Lemma message_category (r : CORSResult) :
  In (Vulnerability r) messages ->
  categoryHits (Vulnerability r) = 1%nat /\ exists c, category r = Some c.
Proof.
  unfold messages. simpl In. unfold category.
  intros [H | [H | [H | [H | []]]]]; rewrite <- H;
    (split; [vm_compute; reflexivity | eexists; vm_compute; reflexivity]).
Qed.

Lemma categorize_bucket (b : Buckets) (r : CORSResult) (c : Category) :
  category r = Some c ->
  bucket c (categorize b r) = (bucket c b ++ [r])%list
  /\ forall c', c' <> c -> bucket c' (categorize b r) = bucket c' b.
Proof.
  intros H. unfold categorize. rewrite H.
  destruct c; (split; [reflexivity|]); intros [] Hne; try reflexivity; congruence.
Qed.

(** C10. The description of every result a probe sends contains exactly one
    of the four category names, so the collector's [switch] finds a case
    for it: the result is appended to the bucket of that category and the
    three other buckets are left as they are. *)
Theorem description_names_one_category
    {W : Type} (E : Env)
    (serve : W -> http.Client -> http.Request -> W * option http.Response)
    (url : string) (to : Z) (w : W) (r : CORSResult) :
  In r (emitted (run serve (checkCORS E url to) w)) ->
  In (Vulnerability r) messages
  /\ categoryHits (Vulnerability r) = 1%nat
  /\ exists c, category r = Some c
       /\ forall b, bucket c (categorize b r) = (bucket c b ++ [r])%list
            /\ forall c', c' <> c -> bucket c' (categorize b r) = bucket c' b.
Proof.
  intros Hin.
  destruct (shape_emitted E serve url 3 _ w (checkCORS_shape E url to))
    as [Hnil | (r' & Hr & _ & _ & _ & Hmsg & _)]; rewrite ?Hnil, ?Hr in Hin.
  - destruct Hin.
  - destruct Hin as [<- | []].
    destruct (message_category r' Hmsg) as [Hhits [c Hc]].
    split; [exact Hmsg|]. split; [exact Hhits|].
    exists c. split; [exact Hc|]. intros b. apply categorize_bucket, Hc.
Qed.

Lemma description_names_one_category_witness :
  let r := verdict "http://example.com/"
             {| http.StatusCode := 200;
                http.Header := list_to_map [("Access-Control-Allow-Origin", ["*"])] |}
             msgWildcard in
  In (Vulnerability r) messages
  /\ categoryHits (Vulnerability r) = 1%nat
  /\ exists c, category r = Some c
       /\ forall b, bucket c (categorize b r) = (bucket c b ++ [r])%list
            /\ forall c', c' <> c -> bucket c' (categorize b r) = bucket c' b.
Proof.
  apply (description_names_one_category Sample.env (stateless Sample.wildcard)
           "http://example.com/" 10 tt).
  left. reflexivity.
Defined.

(** All four descriptions, each filed under its own name. *)
Lemma categories_of_messages :
  map (fun msg => category (verdict "" {| http.StatusCode := 0; http.Header := ∅ |} msg))
      messages
  = [Some WildcardOrigin; Some NullOrigin; Some SameDomain; Some DifferentDomain].
Proof. vm_compute. reflexivity. Qed.

(** ** The public suffix is taken of the URL string *)

(** The decision of the first block in full: when the first answer
    reflects a value other than "*" and "null", the probe stops after that
    one exchange with a same-domain result exactly when
    [PublicSuffix(url)], computed on the URL string as it was given, is not
    empty and ends the reflected value. *)
Lemma same_domain_by_suffix_of_url
    {W : Type} (E : Env)
    (serve : W -> http.Client -> http.Request -> W * option http.Response)
    (url : string) (to : Z) (w : W) (resp : http.Response) :
  let a := http.Get (http.Header resp) "Access-Control-Allow-Origin" in
  NewRequest E url = true ->
  snd (serve w {| http.Timeout := to |} (GET url "null")) = Some resp ->
  a <> "*" -> a <> "null" ->
  let t := run serve (checkCORS E url to) w in
  (PublicSuffix E url <> "" /\ gostrings.HasSuffix a (PublicSuffix E url) = true)
  <-> (exchanges t = [(GET url "null", Some resp)]
       /\ emitted t = [verdict url resp msgSameDomain]).
Proof.
  intros a Hn Hs Hw Hnull t. subst t.
  rewrite (run_checkCORS_answered E serve url to w resp Hn Hs). cbv zeta.
  fold a. rewrite (firstVerdict_suffix E url a Hw Hnull).
  destruct (String.eqb (PublicSuffix E url) "") eqn:He; cbn [negb andb].
  - apply String.eqb_eq in He. cbn [fst snd].
    pose proof (shape_exchanges_le E serve url 2 _ (fst (serve w {| http.Timeout := to |}
                  (GET url "null")))
                  (probe2_shape E {| http.Timeout := to |} url (decided resp false "")
                     ltac:(discriminate))) as Hle.
    split; [intros [Hne _]; congruence|].
    cbn [exchanges emitted]. intros [Hx Hm]. exfalso.
    unfold probe2 in Hx, Hm. cbn [decided vulnerable negb] in Hx, Hm. rewrite Hn in Hx, Hm.
    cbn [negb] in Hx, Hm. rewrite run_Do in Hx. discriminate Hx.
  - apply String.eqb_neq in He.
    destruct (gostrings.HasSuffix a (PublicSuffix E url)) eqn:Hsuf; cbn [fst snd].
    + rewrite run_probe2_decided. cbn [exchanges emitted]. tauto.
    + split; [intros [_ ?]; discriminate|].
      cbn [exchanges emitted]. intros [Hx _]. exfalso.
      unfold probe2 in Hx. cbn [decided vulnerable negb] in Hx. rewrite Hn in Hx.
      cbn [negb] in Hx. rewrite run_Do in Hx. discriminate Hx.
Qed.

(** C1, at a URL with a path. The host of "http://example.com/" is
    "example.com", whose public suffix is "com", and the reflected value
    "http://evil.com" ends with it. [checkCORS] hands the whole URL string
    to [PublicSuffix]: its last label is "com/", which no rule matches, so
    the suffix is "com/", the reflected value does not end with it, and the
    first block finds nothing; the probe goes on to the two other requests
    and sends no result. *)
Theorem public_suffix_of_url_with_path :
  let url := "http://example.com/" in
  let t := run (stateless Sample.trusting) (checkCORS Sample.env url 10) tt in
  (neturl.Host <$> Parse Sample.env url) = Some "example.com"
  /\ publicsuffix.PublicSuffix Sample.table "example.com" = "com"
  /\ gostrings.HasSuffix "http://evil.com" "com" = true
  /\ PublicSuffix Sample.env url = "com/"
  /\ gostrings.HasSuffix "http://evil.com" "com/" = false
  /\ firstVerdict Sample.env url "http://evil.com" = (false, "")
  /\ map (fun x => http.Origin (fst x)) (exchanges t)
     = ["null"; "http://example.com"; "http://example.com"]
  /\ emitted t = [].
Proof. vm_compute. repeat split; reflexivity. Qed.

(** Without a path the two suffixes agree, and the same server is reported
    after one exchange. *)
Lemma public_suffix_of_url_without_path :
  let E := {| NewRequest := fun _ => true;
              Parse := fun _ => Some {| neturl.Scheme := "http"; neturl.Host := "example.com" |};
              PublicSuffix := publicsuffix.PublicSuffix Sample.table |} in
  let t := run (stateless Sample.trusting) (checkCORS E "http://example.com" 10) tt in
  PublicSuffix E "http://example.com" = "com"
  /\ length (exchanges t) = 1%nat
  /\ map Vulnerability (emitted t) = [msgSameDomain].
Proof. vm_compute. repeat split; reflexivity. Qed.

(** ** The pool: what every step keeps *)

Section Bookkeeping.

Lemma Forall2_middle {A B} (R : A -> B -> Prop) l1 x l2 k :
  Forall2 R (l1 ++ x :: l2) k ->
  exists k1 y k2, k = (k1 ++ y :: k2)%list /\ Forall2 R l1 k1 /\ R x y /\ Forall2 R l2 k2.
Proof.
  intros H. apply Forall2_app_inv_l in H as (k1 & k' & H1 & H2 & ->).
  apply Forall2_cons_inv_l in H2 as (y & k2 & Hy & H2 & ->).
  exists k1, y, k2. auto.
Qed.

Lemma Forall2_middle_intro {A B} (R : A -> B -> Prop) l1 x l2 k1 y k2 :
  Forall2 R l1 k1 -> R x y -> Forall2 R l2 k2 ->
  Forall2 R (l1 ++ x :: l2) (k1 ++ y :: k2).
Proof. intros H1 Hy H2. apply Forall2_app; [exact H1 | constructor; assumption]. Qed.

Lemma owed_middle gs1 g gs2 : owed (gs1 ++ g :: gs2) ≡ₚ (fst g ++ owed (gs1 ++ gs2))%list.
Proof.
  unfold owed. rewrite !map_app, !concat_app. cbn [map concat].
  rewrite !(assoc_L (++)). apply Permutation_app_tail, Permutation_app_comm.
Qed.

Lemma effort_middle gs1 g gs2 :
  effort (gs1 ++ g :: gs2) = (snd g + effort (gs1 ++ gs2))%nat.
Proof.
  unfold effort. induction gs1 as [|h gs1 IH]; simpl in *; lia.
Qed.

Lemma Exists_middle {A} (P : A -> Prop) l1 x l2 :
  Exists P (l1 ++ x :: l2) <-> P x \/ Exists P (l1 ++ l2).
Proof. rewrite !Exists_app, Exists_cons. tauto. Qed.

Lemma Forall_middle {A} (P : A -> Prop) l1 x l2 :
  Forall P (l1 ++ x :: l2) <-> P x /\ Forall P (l1 ++ l2).
Proof. rewrite !Forall_app, Forall_cons. tauto. Qed.

Lemma length_middle {A} (l1 : list A) x y l2 :
  length (l1 ++ x :: l2) = length (l1 ++ y :: l2).
Proof. rewrite !length_app. reflexivity. Qed.

Lemma waiting_middle ws1 wk ws2 :
  flat_map waiting (ws1 ++ wk :: ws2) ≡ₚ (waiting wk ++ flat_map waiting (ws1 ++ ws2))%list.
Proof.
  rewrite !flat_map_app. cbn [flat_map].
  rewrite !(assoc_L (++)). apply Permutation_app_tail, Permutation_app_comm.
Qed.

Lemma waiting_swap ws1 x y ws2 :
  waiting x = waiting y ->
  flat_map waiting (ws1 ++ x :: ws2) = flat_map waiting (ws1 ++ y :: ws2).
Proof. intros H. rewrite !flat_map_app. cbn [flat_map]. rewrite H. reflexivity. Qed.

Lemma waiting_Exited ws : Forall (fun w => w = Exited) ws -> flat_map waiting ws = [].
Proof. induction 1 as [|w ws -> _ IH]; [reflexivity | exact IH]. Qed.

Lemma filter_nonblank_snoc l u :
  List.filter nonblank (l ++ [u]) = (List.filter nonblank l ++ waiting (Holding u))%list.
Proof. rewrite List.filter_app. cbn [List.filter waiting]. destruct (nonblank u); reflexivity. Qed.

Lemma forallb_isExited ws :
  forallb isExited ws = true -> Forall (fun w => w = Exited) ws.
Proof.
  induction ws as [|w ws IH]; simpl; [constructor|].
  destruct w; simpl; try discriminate. intros H. constructor; auto.
Qed.

Lemma not_all_exited ws :
  forallb isExited ws = false ->
  exists ws1 w ws2, ws = (ws1 ++ w :: ws2)%list /\ w <> Exited.
Proof.
  induction ws as [|w ws IH]; simpl; [discriminate|].
  destruct w; simpl.
  - intros _. exists [], Idle, ws. split; [reflexivity | discriminate].
  - intros _. exists [], (Holding url), ws. split; [reflexivity | discriminate].
  - intros _. exists [], (Busy url p), ws. split; [reflexivity | discriminate].
  - intros H. destruct (IH H) as (ws1 & w & ws2 & -> & Hw).
    exists (Exited :: ws1), w, ws2. split; [reflexivity | exact Hw].
Qed.

Lemma bucket_categorize c b r :
  bucket c (categorize b r) = (bucket c b ++ if inCategory c r then [r] else [])%list.
Proof.
  unfold categorize, inCategory.
  destruct (category r) as [[]|], c; cbn [bucket nullOriginResults wildcardOriginResults
    domainOriginResults differentDomainResults]; rewrite ?app_nil_r; reflexivity.
Qed.

Lemma wghost_Idle E g : wghost E Idle g -> g = ([], 1%nat).
Proof. inversion 1. reflexivity. Qed.

Lemma wghost_Holding E u g : wghost E (Holding u) g -> g = ([], 8%nat).
Proof. inversion 1. reflexivity. Qed.

Lemma wghost_Do E u client req k g :
  wghost E (Busy u (Do client req k)) g ->
  exists n, g = ([u], (S n + 4)%nat) /\ k None = Return ErrRequest
            /\ forall resp, shape E u n (k (Some resp)).
Proof.
  inversion 1 as [| | | u' n p Hs |]; subst.
  inversion Hs; subst. eauto.
Qed.

Lemma wghost_Send E u r k g :
  wghost E (Busy u (Send r k)) g ->
  exists n, g = ([u], (n + 4)%nat) /\ k = Return Completed /\ URL r = u /\ sendable r.
Proof.
  inversion 1 as [| | | u' n p Hs |]; subst.
  inversion Hs; subst. unfold sendable. eauto 10.
Qed.

Lemma wghost_Return E u e g :
  wghost E (Busy u (Return e)) g ->
  e <> PanicIndex /\ (2 <= snd g)%nat.
Proof.
  inversion 1 as [| | | u' n p Hs | u' e' He]; subst; cbn [snd].
  - split; [|lia]. inversion Hs; subst; discriminate.
  - split; [exact He | lia].
Qed.

End Bookkeeping.

Section Preservation.

Context {W : Type}.
Variable E : Env.
Variable serve : W -> http.Client -> http.Request -> W * option http.Response.
Variable to : Z.
Variable urlList : list string.
Variable concurrency : Z.

Ltac fields :=
  cbn [pending urlChan workers results buckets collecting crashed world hist
       buf closed probed sentLog output started sending received open shut] in *.

Ltac middle Hws :=
  apply Forall2_middle in Hws as (gs1 & g & gs2 & -> & Hg1 & Hg & Hg2).

Ltac take_inv H :=
  destruct H as [Halive Hws Hcount Hurls Hroom Hdist Hdrain Hwait Hres Howed Hsent
                   Hcoll Hbuck];
  fields.

Lemma step_keeps_Inv s s' gs :
  step E serve to (length urlList) s s' ->
  Inv E urlList concurrency s gs ->
  exists gs', Inv E urlList concurrency s' gs' /\ (measure s' gs' < measure s gs)%nat.
Proof.
  intros Hstep HInv. destruct Hstep; take_inv HInv.
  - (* distribute *)
    exists gs. split.
    + constructor; fields; auto.
      * destruct Hurls as (taken & Hlist & Hperm). exists taken.
        split; [rewrite <- app_assoc; exact Hlist | exact Hperm].
      * rewrite length_app. simpl in *. lia.
      * discriminate.
      * intros Hex. destruct (Hdrain Hex) as [? _]. discriminate.
    + unfold measure. fields. rewrite length_app. simpl. lia.
  - (* close urls *)
    exists gs. split.
    + constructor; fields; auto.
      intros Hex. destruct (Hdrain Hex) as [? _]. discriminate.
    + unfold measure. fields. lia.
  - (* receive *)
    middle Hws. apply wghost_Idle in Hg as ->.
    exists (gs1 ++ ([], 8%nat) :: gs2)%list. split.
    + constructor; fields; auto.
      * apply Forall2_middle_intro; auto. constructor.
      * rewrite <- Hcount. apply length_middle.
      * destruct Hurls as (taken & Hlist & Hperm). exists (taken ++ [u])%list.
        split; [rewrite <- app_assoc; exact Hlist|].
        rewrite filter_nonblank_snoc, <- Hperm, !waiting_middle. cbn [waiting app].
        rewrite <- !app_assoc. apply Permutation_app_head, Permutation_app_comm.
      * simpl in Hroom. lia.
      * intros Hex. apply Exists_middle in Hex as [Hex | Hex]; [discriminate|].
        destruct Hdrain as [_ ?]; [|discriminate]. apply Exists_middle. auto.
      * intros Hc. apply Hwait, Forall_middle in Hc as [Hx _]. discriminate.
      * rewrite owed_middle in Howed |- *. exact Howed.
    + unfold measure. fields. rewrite !effort_middle. simpl. lia.
  - (* skip *)
    middle Hws. apply wghost_Holding in Hg as ->.
    exists (gs1 ++ ([], 1%nat) :: gs2)%list. split.
    + constructor; fields; auto.
      * apply Forall2_middle_intro; auto. constructor.
      * rewrite <- Hcount. apply length_middle.
      * erewrite waiting_swap; [exact Hurls | reflexivity].
      * intros Hex. apply Exists_middle in Hex as [Hex | Hex]; [discriminate|].
        apply Hdrain, Exists_middle. auto.
      * intros Hc. apply Hwait, Forall_middle in Hc as [Hx _]. discriminate.
      * rewrite owed_middle in Howed |- *. exact Howed.
    + unfold measure. fields. rewrite !effort_middle. simpl. lia.
  - (* start *)
    middle Hws. apply wghost_Holding in Hg as ->.
    exists (gs1 ++ ([u], (3 + 4)%nat) :: gs2)%list. split.
    + constructor; fields; auto.
      * apply Forall2_middle_intro; auto. apply wg_busy, checkCORS_shape.
      * rewrite <- Hcount. apply length_middle.
      * destruct Hurls as (taken & Hlist & Hperm). exists taken.
        split; [exact Hlist|]. rewrite <- Hperm, !waiting_middle. cbn [waiting app].
        unfold nonblank. rewrite (proj2 (String.eqb_neq u "") H). cbn [negb app].
        rewrite <- app_assoc. reflexivity.
      * intros Hex. apply Exists_middle in Hex as [Hex | Hex]; [discriminate|].
        apply Hdrain, Exists_middle. auto.
      * intros Hc. apply Hwait, Forall_middle in Hc as [Hx _]. discriminate.
      * rewrite owed_middle in Howed |- *. cbn [fst app] in *.
        rewrite (Permutation_app_comm (probed h)), <- Permutation_middle. cbn [app].
        apply submseteq_skip, Howed.
    + unfold measure. fields. rewrite !effort_middle. simpl. lia.
  - (* exit *)
    middle Hws. apply wghost_Idle in Hg as ->.
    exists (gs1 ++ ([], 0%nat) :: gs2)%list. split.
    + constructor; fields; auto.
      * apply Forall2_middle_intro; auto. constructor.
      * rewrite <- Hcount. apply length_middle.
      * erewrite waiting_swap; [exact Hurls | reflexivity].
      * intros Hc. apply Hwait, Forall_middle in Hc as [Hx _]. discriminate.
      * rewrite owed_middle in Howed |- *. exact Howed.
    + unfold measure. fields. rewrite !effort_middle. simpl. lia.
  - (* request *)
    middle Hws. apply wghost_Do in Hg as (n & -> & Hnone & Hsome).
    destruct (snd (serve w client req)) as [resp|] eqn:Hanswer.
    + exists (gs1 ++ ([u], (n + 4)%nat) :: gs2)%list. split.
      * constructor; fields; auto.
        -- apply Forall2_middle_intro; auto. apply wg_busy, Hsome.
        -- rewrite <- Hcount. apply length_middle.
        -- erewrite waiting_swap; [exact Hurls | reflexivity].
        -- intros Hex. apply Exists_middle in Hex as [Hex | Hex]; [discriminate|].
           apply Hdrain, Exists_middle. auto.
        -- intros Hc. apply Hwait, Forall_middle in Hc as [Hx _]. discriminate.
        -- rewrite owed_middle in Howed |- *. exact Howed.
      * unfold measure. fields. rewrite !effort_middle. simpl. lia.
    + exists (gs1 ++ ([], 2%nat) :: gs2)%list. split.
      * constructor; fields; auto.
        -- apply Forall2_middle_intro; auto. rewrite Hnone. apply wg_returning. discriminate.
        -- rewrite <- Hcount. apply length_middle.
        -- erewrite waiting_swap; [exact Hurls | reflexivity].
        -- intros Hex. apply Exists_middle in Hex as [Hex | Hex]; [discriminate|].
           apply Hdrain, Exists_middle. auto.
        -- intros Hc. apply Hwait, Forall_middle in Hc as [Hx _]. discriminate.
        -- rewrite owed_middle in Howed |- *. cbn [fst app] in *.
           etransitivity; [|exact Howed]. apply submseteq_skips_l, submseteq_cons. reflexivity.
      * unfold measure. fields. rewrite !effort_middle. simpl. lia.
  - (* send *)
    middle Hws. apply wghost_Send in Hg as (n & -> & -> & Hurl & Hr).
    exists (gs1 ++ ([], 2%nat) :: gs2)%list. split.
    + constructor; fields; auto.
      * apply Forall2_middle_intro; auto. apply wg_returning. discriminate.
      * rewrite <- Hcount. apply length_middle.
      * erewrite waiting_swap; [exact Hurls | reflexivity].
      * intros Hex. apply Exists_middle in Hex as [Hex | Hex]; [discriminate|].
        apply Hdrain, Exists_middle. auto.
      * discriminate.
      * rewrite <- Hres, <- app_assoc. reflexivity.
      * rewrite owed_middle in Howed |- *. cbn [fst app] in *.
        rewrite map_app. cbn [map]. rewrite Hurl, <- app_assoc. exact Howed.
      * apply Forall_app. split; [exact Hsent | constructor; [exact Hr | constructor]].
      * intros Hc. destruct (Hcoll Hc). discriminate.
    + unfold measure. fields. rewrite !effort_middle, length_app. simpl. lia.
  - (* send on a closed channel *)
    exfalso. apply Forall_middle in Hwait as [Hx _]; [discriminate | reflexivity].
  - (* return *)
    middle Hws. pose proof (wghost_Return _ _ _ _ Hg) as [_ Hcost].
    exists (gs1 ++ ([], 1%nat) :: gs2)%list. split.
    + constructor; fields; auto.
      * apply Forall2_middle_intro; auto. constructor.
      * rewrite <- Hcount. apply length_middle.
      * erewrite waiting_swap; [exact Hurls | reflexivity].
      * intros Hex. apply Exists_middle in Hex as [Hex | Hex]; [discriminate|].
        apply Hdrain, Exists_middle. auto.
      * intros Hc. apply Hwait, Forall_middle in Hc as [Hx _]. discriminate.
      * rewrite owed_middle in Howed |- *. cbn [fst app] in *.
        etransitivity; [|exact Howed]. apply submseteq_skips_l, submseteq_inserts_l.
        reflexivity.
    + unfold measure. fields. rewrite !effort_middle. simpl. lia.
  - (* panic *)
    exfalso. middle Hws. apply wghost_Return in Hg as [Hne _]. congruence.
  - (* close results *)
    exists gs. split.
    + constructor; fields; auto.
      * intros _. apply forallb_isExited. assumption.
      * intros Hc. destruct (Hcoll Hc). discriminate.
    + unfold measure. fields. lia.
  - (* collect *)
    exists gs. split.
    + constructor; fields; auto.
      * rewrite <- Hres, <- app_assoc. reflexivity.
      * discriminate.
      * intros c. rewrite bucket_categorize, List.filter_app, Hbuck. reflexivity.
    + unfold measure. fields. simpl. lia.
  - (* collected *)
    exists gs. split.
    + constructor; fields; auto.
    + unfold measure. fields. lia.
Qed.

Lemma replicate_ghost n :
  Forall2 (wghost E) (replicate n Idle) (replicate n ([], 1%nat))
  /\ owed (replicate n ([], 1%nat)) = []
  /\ effort (replicate n ([], 1%nat)) = n
  /\ ~ Exists (fun w => w = Exited) (replicate n Idle).
Proof.
  induction n as [|n (IH1 & IH2 & IH3 & IH4)]; cbn [replicate].
  - repeat split; try constructor. inversion 1.
  - repeat split.
    + constructor; [constructor | exact IH1].
    + exact IH2.
    + unfold effort in *. simpl. rewrite IH3. reflexivity.
    + intros Hex. apply Exists_cons in Hex as [Hex | Hex]; [discriminate | auto].
Qed.

Lemma waiting_replicate n : flat_map waiting (replicate n Idle) = [].
Proof. induction n as [|n IH]; [reflexivity | exact IH]. Qed.

Lemma init_Inv (w0 : W) :
  Inv E urlList concurrency (init urlList concurrency w0)
      (replicate (Z.to_nat concurrency) ([], 1%nat)).
Proof.
  destruct (replicate_ghost (Z.to_nat concurrency)) as (H1 & H2 & H3 & H4).
  constructor; unfold init; fields; auto; try discriminate.
  - apply length_replicate.
  - exists []. rewrite waiting_replicate. split; reflexivity.
  - rewrite H2. reflexivity.
  - intros []; reflexivity.
Qed.

Lemma measure_init (w0 : W) :
  measure (init urlList concurrency w0) (replicate (Z.to_nat concurrency) ([], 1%nat))
  = (9 * length urlList + Z.to_nat concurrency + 3)%nat.
Proof.
  destruct (replicate_ghost (Z.to_nat concurrency)) as (_ & _ & H3 & _).
  unfold measure, init. fields. rewrite H3. simpl. lia.
Qed.

Lemma steps_Inv n (w0 : W) s :
  steps E serve to (length urlList) n (init urlList concurrency w0) s ->
  exists gs, Inv E urlList concurrency s gs
             /\ (n + measure s gs <= 9 * length urlList + Z.to_nat concurrency + 3)%nat.
Proof.
  remember (init urlList concurrency w0) as s0 eqn:Hs0.
  induction 1 as [s | n s1 s2 s3 Hsteps IH Hstep]; subst.
  - eexists. split; [apply init_Inv|]. rewrite measure_init. lia.
  - destruct (IH eq_refl) as (gs & HInv & Hle).
    destruct (step_keeps_Inv _ _ _ Hstep HInv) as (gs' & HInv' & Hlt).
    exists gs'. split; [exact HInv' | lia].
Qed.

Lemma reachable_Inv (w0 : W) s :
  reachable E serve to urlList concurrency w0 s ->
  exists gs, Inv E urlList concurrency s gs.
Proof. intros [n Hn]. destruct (steps_Inv _ _ _ Hn) as (gs & H & _). eauto. Qed.

(** No more calls of [checkCORS] than entries in the list. *)
Lemma probed_le (l taken rest called held : list string) :
  l = (taken ++ rest)%list ->
  (called ++ held)%list ≡ₚ List.filter nonblank taken ->
  (length called <= length l)%nat.
Proof.
  intros -> Hperm. apply Permutation_length in Hperm.
  rewrite !length_app in *. pose proof (List.filter_length_le nonblank taken). lia.
Qed.

(** Unless the collecting loop is over, some goroutine can move. *)
Lemma Inv_progress (s : Pool W) gs :
  Inv E urlList concurrency s gs ->
  collecting s = true ->
  exists s', step E serve to (length urlList) s s'.
Proof.
  intros HInv Hc. destruct s as [us [qb qc] ws [rb rc] b c cr w h].
  take_inv HInv. subst c cr.
  destruct rb as [|r rb]; [|eexists; apply step_collect].
  destruct rc; [eexists; apply step_collected|].
  destruct (forallb isExited ws) eqn:Hall; [eexists; apply step_close_results, Hall|].
  apply not_all_exited in Hall as (ws1 & wk & ws2 & -> & Hwk).
  destruct wk as [|u|u p|]; [| | |congruence].
  - destruct qb as [|u qb].
    + destruct qc; [eexists; apply step_exit|].
      destruct us as [|u us]; [eexists; apply step_close_urls|].
      eexists. apply step_distribute. simpl in *. lia.
    + eexists. apply step_receive.
  - destruct (decide (u = "")) as [-> | Hu].
    + eexists. apply step_skip.
    + eexists. apply step_start, Hu.
  - destruct p as [e | client req k | r k].
    + destruct e; try (eexists; apply step_return; discriminate).
      eexists. apply step_panic.
    + eexists. apply step_request.
    + eexists. apply step_send.
      middle Hws. apply wghost_Send in Hg as (n & -> & _).
      rewrite owed_middle in Howed. cbn [fst app] in Howed.
      apply submseteq_length in Howed. rewrite length_app in Howed. simpl in *.
      destruct Hurls as (taken & Hlist & Hperm).
      pose proof (probed_le _ _ _ _ _ Hlist Hperm) as Hle. lia.
Qed.

Lemma filter_by_category (l : list CORSResult) :
  Forall sendable l ->
  (List.filter (inCategory NullOrigin) l ++ List.filter (inCategory WildcardOrigin) l
   ++ List.filter (inCategory SameDomain) l
   ++ List.filter (inCategory DifferentDomain) l)%list ≡ₚ l.
Proof.
  induction 1 as [|r l Hr _ IH]; [reflexivity|].
  destruct Hr as (_ & Hmsg & _). apply message_category in Hmsg as [_ [c Hc]].
  assert (Hcat : forall c', inCategory c' r = inCategory c' r) by reflexivity.
  unfold inCategory at 2 in Hcat. rewrite Hc in Hcat.
  cbn [List.filter]. rewrite !Hcat. clear Hcat.
  revert IH.
  generalize (List.filter (inCategory NullOrigin) l) as A.
  generalize (List.filter (inCategory WildcardOrigin) l) as B.
  generalize (List.filter (inCategory SameDomain) l) as C.
  generalize (List.filter (inCategory DifferentDomain) l) as D.
  intros D C B A IH. rewrite <- IH.
  destruct c; cbn [app].
  - reflexivity.
  - symmetry. apply Permutation_middle.
  - rewrite !(app_assoc A B). symmetry. apply Permutation_middle.
  - rewrite !(app_assoc A B), !(app_assoc (A ++ B) C). symmetry. apply Permutation_middle.
Qed.

(** What holds when the collecting loop is over. *)
Lemma Inv_finished (s : Pool W) gs :
  0 < concurrency ->
  Inv E urlList concurrency s gs ->
  finished s ->
  probed (hist s) ≡ₚ List.filter nonblank urlList
  /\ output (hist s) = sentLog (hist s)
  /\ map URL (output (hist s)) ⊆+ probed (hist s)
  /\ Forall (fun r => URL r <> "" /\ Vulnerable r = true) (output (hist s))
  /\ bucketed (buckets s) ≡ₚ output (hist s).
Proof.
  intros Hpos HInv Hfin. red in Hfin. destruct HInv as [Halive Hws Hcount Hurls Hroom Hdist Hdrain Hwait Hres Howed Hsent
                   Hcoll Hbuck].
  destruct (Hcoll Hfin) as [Hrc Hrb].
  pose proof (Hwait Hrc) as Hall.
  assert (Hex : Exists (fun w => w = Exited) (workers s)).
  { destruct (workers s) as [|wk ws]; [simpl in Hcount; lia|].
    apply Forall_cons in Hall as [-> _]. left. reflexivity. }
  destruct (Hdrain Hex) as [Hqc Hqb].
  pose proof (Hdist Hqc) as Hus.
  destruct Hurls as (taken & Hlist & Hurls).
  rewrite Hqb, Hus, !app_nil_r in Hlist. subst taken.
  rewrite (waiting_Exited _ Hall), app_nil_r in Hurls.
  rewrite Hrb, app_nil_r in Hres.
  assert (Hsub : map URL (output (hist s)) ⊆+ probed (hist s)).
  { rewrite Hres. etransitivity; [|exact Howed].
    apply submseteq_inserts_r. reflexivity. }
  split; [exact Hurls|]. split; [exact Hres|]. split; [exact Hsub|].
  split.
  - rewrite Hres. apply Forall_forall. intros r Hr.
    split; [|exact (proj1 (proj1 (Forall_forall _ _) Hsent r Hr))].
    intros Hblank.
    assert (Hin : In "" (probed (hist s))).
    { apply list_elem_of_In. eapply elem_of_submseteq; [|exact Hsub].
      apply list_elem_of_In. rewrite Hres, <- Hblank.
      apply in_map, list_elem_of_In, Hr. }
    apply (Permutation_in _ Hurls), List.filter_In in Hin as [_ Hnb].
    discriminate.
  - unfold bucketed.
    pose proof (Hbuck NullOrigin) as B1. pose proof (Hbuck WildcardOrigin) as B2.
    pose proof (Hbuck SameDomain) as B3. pose proof (Hbuck DifferentDomain) as B4.
    cbn [bucket] in B1, B2, B3, B4. rewrite B1, B2, B3, B4.
    apply filter_by_category. rewrite Hres. exact Hsent.
Qed.

(** From every state the pool can get to, the collecting loop can be
    brought to its end. *)
Lemma Inv_terminates m (s : Pool W) gs n s0 :
  (measure s gs <= m)%nat ->
  Inv E urlList concurrency s gs ->
  steps E serve to (length urlList) n s0 s ->
  exists n' s', steps E serve to (length urlList) n' s0 s' /\ finished s'.
Proof.
  revert s gs n. induction m as [|m IH]; intros s gs n Hm HInv Hsteps.
  - destruct (collecting s) eqn:Hc; [|exists n, s; auto].
    exfalso. unfold measure in Hm. rewrite Hc in Hm. lia.
  - destruct (collecting s) eqn:Hc; [|exists n, s; auto].
    destruct (Inv_progress s gs HInv Hc) as [s' Hstep].
    destruct (step_keeps_Inv s s' gs Hstep HInv) as (gs' & HInv' & Hlt).
    apply (IH s' gs' (S n)); [lia | exact HInv' |].
    econstructor; eassumption.
Qed.

End Preservation.

(** ** The pool against a server without state *)

Section Stateless.

Context {W : Type}.
Variable E : Env.
Variable serve : W -> http.Client -> http.Request -> W * option http.Response.
Variable to : Z.
Variable urlList : list string.
Variable concurrency : Z.
Variable f : http.Request -> option http.Response.
Hypothesis serve_f : forall w client req, snd (serve w client req) = f req.

Ltac fields :=
  cbn [pending urlChan workers results buckets collecting crashed world hist
       buf closed probed sentLog output started sending received open shut] in *.

Lemma promised_middle ws1 wk ws2 :
  concat (map (promised E f to) (ws1 ++ wk :: ws2))
  ≡ₚ (promised E f to wk ++ concat (map (promised E f to) (ws1 ++ ws2)))%list.
Proof.
  rewrite !map_app, !concat_app. cbn [map concat].
  rewrite !(assoc_L (++)). apply Permutation_app_tail, Permutation_app_comm.
Qed.

Lemma verdicts_cons u us :
  verdicts E f to (u :: us)
  = ((if nonblank u then emits f (checkCORS E u to) else []) ++ verdicts E f to us)%list.
Proof. unfold verdicts. cbn [List.filter]. destruct (nonblank u); reflexivity. Qed.

Lemma step_keeps_account s s' :
  step E serve to (length urlList) s s' -> account E f to s' ≡ₚ account E f to s.
Proof.
  intros Hstep. destruct Hstep; unfold account; fields;
    rewrite ?promised_middle; cbn [promised app]; try reflexivity.
  - (* distribute *) rewrite <- app_assoc. reflexivity.
  - (* receive *)
    rewrite verdicts_cons.
    rewrite <- !app_assoc. apply Permutation_app_head.
    rewrite !app_assoc. apply Permutation_app_tail, Permutation_app_comm.
  - (* start *)
    replace (nonblank u) with true
      by (symmetry; unfold nonblank; rewrite (proj2 (String.eqb_neq u "") H); reflexivity).
    reflexivity.
  - (* request *)
    rewrite serve_f. reflexivity.
  - (* send *)
    change (emits f (Send r k)) with (r :: emits f k).
    rewrite <- !app_assoc. reflexivity.
Qed.

Lemma steps_account n (w0 : W) s :
  steps E serve to (length urlList) n (init urlList concurrency w0) s ->
  account E f to s ≡ₚ verdicts E f to urlList.
Proof.
  remember (init urlList concurrency w0) as s0 eqn:Hs0.
  induction 1 as [s | n s1 s2 s3 Hsteps IH Hstep]; subst.
  - unfold account, init. fields. cbn [app].
    replace (concat (map (promised E f to) (replicate (Z.to_nat concurrency) Idle))) with (@nil CORSResult);
      [reflexivity|].
    induction (Z.to_nat concurrency); simpl; auto.
  - rewrite (step_keeps_account _ _ Hstep). apply IH. reflexivity.
Qed.

(** When the collecting loop is over, the results received are those of
    the probes run one by one, in some order. *)
Lemma finished_output (w0 : W) (s : Pool W) :
  0 < concurrency ->
  reachable E serve to urlList concurrency w0 s ->
  finished s ->
  output (hist s) ≡ₚ verdicts E f to urlList.
Proof.
  intros Hpos [n Hsteps] Hfin.
  destruct (steps_Inv E serve to urlList concurrency n w0 s Hsteps) as (gs & HInv & _).
  rewrite <- (steps_account n w0 s Hsteps). unfold account.
  destruct HInv as [Halive Hws Hcount Hurls Hroom Hdist Hdrain Hwait Hres Howed Hsent
                      Hcoll Hbuck].
  destruct (Hcoll Hfin) as [Hrc Hrb]. pose proof (Hwait Hrc) as Hall.
  assert (Hex : Exists (fun w => w = Exited) (workers s)).
  { destruct (workers s) as [|wk ws]; [simpl in Hcount; lia|].
    apply Forall_cons in Hall as [-> _]. left. reflexivity. }
  destruct (Hdrain Hex) as [Hqc Hqb]. rewrite Hqb, (Hdist Hqc).
  replace (concat (map (promised E f to) (workers s))) with (@nil CORSResult).
  - rewrite <- Hres, Hrb. cbn [app verdicts List.filter flat_map]. rewrite !app_nil_r.
    reflexivity.
  - clear -Hall. induction Hall as [|wk ws -> _ IH]; simpl; auto.
Qed.

End Stateless.

(** ** The probe, answer by answer *)

Section Table.

Context {W : Type}.
Variable E : Env.
Variable serve : W -> http.Client -> http.Request -> W * option http.Response.

Lemma run_checkCORS_table url to w :
  run serve (checkCORS E url to) w = checkCORS_table E serve url to w.
Proof.
  unfold checkCORS_table.
  destruct (NewRequest E url) eqn:Hn; cbn [negb];
    [|unfold checkCORS; rewrite Hn; reflexivity].
  destruct (snd (serve w {| http.Timeout := to |} (GET url "null"))) as [r1|] eqn:H1.
  2:{ unfold checkCORS. rewrite Hn. cbn [negb]. rewrite run_Do, H1. reflexivity. }
  rewrite (run_checkCORS_answered E serve url to w r1 Hn H1). cbv zeta.
  fold (reflected r1).
  destruct (firstVerdict E url (reflected r1)) as [[] m]; cbn [fst snd].
  { rewrite run_probe2_decided. reflexivity. }
  set (w1 := fst (serve w _ _)).
  destruct (snd (serve w1 {| http.Timeout := to |} (GET url "http://example.com")))
    as [r2|] eqn:H2.
  2:{ unfold probe2. cbn [decided vulnerable negb]. rewrite Hn. cbn [negb].
      rewrite run_Do, H2. reflexivity. }
  rewrite (run_probe2_answered E serve _ url (decided r1 false m) w1 r2 eq_refl Hn H2).
  cbv zeta. fold (reflected r2).
  destruct (String.eqb (reflected r2) "http://example.com").
  { rewrite run_probe3_decided. reflexivity. }
  cbn [decided vulnerable vulnerability].
  set (w2 := fst (serve w1 _ _)).
  destruct (Parse E url) as [u|] eqn:Hp.
  2:{ unfold probe3. cbn [decided vulnerable negb]. rewrite Hp. reflexivity. }
  destruct (snd (serve w2 {| http.Timeout := to |} (GET url (ownOrigin u)))) as [r3|] eqn:H3.
  2:{ unfold probe3. cbn [decided vulnerable negb]. rewrite Hp, Hn. cbn [negb].
      fold (ownOrigin u). rewrite run_Do, H3. reflexivity. }
  rewrite (run_probe3_answered E serve _ url (decided r2 false m) w2 u r3 eq_refl Hp Hn H3).
  reflexivity.
Qed.

End Table.

Lemma firstVerdict_nothing (E : Env) (url a : string) :
  a <> "*" -> a <> "null" ->
  (PublicSuffix E url = "" \/ gostrings.HasSuffix a (PublicSuffix E url) = false) ->
  firstVerdict E url a = (false, "").
Proof.
  intros Hw Hnull Hsuf. rewrite (firstVerdict_suffix E url a Hw Hnull).
  destruct Hsuf as [-> | ->]; [reflexivity | rewrite andb_false_r; reflexivity].
Qed.

Ltac table_cases :=
  repeat match goal with
         | |- context [if ?b then _ else _] => destruct b eqn:?
         | |- context [match ?x with Some _ => _ | None => _ end] => destruct x eqn:?
         end.

(** ** The pool as a whole *)

(** C2, for a pool of at least one worker. Whatever the server does and
    however the goroutines interleave: the pool takes a bounded number of
    steps, never crashes, can always move until the collecting loop is over,
    and can get there. When the loop is over, [checkCORS] has been called
    once for every entry of the URL list that is not the empty string and
    for nothing else (the calls are a permutation of these entries: two
    workers may call in either order); the results received are
    exactly the results sent, each once; each belongs to a probe of its own,
    so none is about a blank entry; and all of them are in the buckets.
    Against a server whose answers depend on the request alone, the results
    received are, in some order, those of probing the non-blank entries one
    by one. *)
Theorem pool_probes_every_nonblank_url
    {W : Type} (E : Env)
    (serve : W -> http.Client -> http.Request -> W * option http.Response)
    (to : Z) (urlList : list string) (concurrency : Z) (w0 : W) :
  0 < concurrency ->
  (forall n s,
      steps E serve to (length urlList) n (init urlList concurrency w0) s ->
      (n <= 9 * length urlList + Z.to_nat concurrency + 3)%nat)
  /\ (forall s,
        reachable E serve to urlList concurrency w0 s ->
        crashed s = false
        /\ (~ finished s -> exists s', step E serve to (length urlList) s s')
        /\ exists s', reachable E serve to urlList concurrency w0 s' /\ finished s')
  /\ (forall s,
        reachable E serve to urlList concurrency w0 s ->
        finished s ->
        probed (hist s) ≡ₚ List.filter nonblank urlList
        /\ ~ In "" (probed (hist s))
        /\ output (hist s) = sentLog (hist s)
        /\ map URL (output (hist s)) ⊆+ probed (hist s)
        /\ Forall (fun r => URL r <> "" /\ Vulnerable r = true) (output (hist s))
        /\ bucketed (buckets s) ≡ₚ output (hist s))
  /\ (forall f,
        (forall w client req, snd (serve w client req) = f req) ->
        forall s,
          reachable E serve to urlList concurrency w0 s ->
          finished s ->
          output (hist s) ≡ₚ verdicts E f to urlList).
Proof.
  intros Hpos. split; [|split; [|split]].
  - intros n s Hsteps.
    destruct (steps_Inv E serve to urlList concurrency n w0 s Hsteps) as (gs & _ & Hle). lia.
  - intros s [n Hsteps].
    destruct (steps_Inv E serve to urlList concurrency n w0 s Hsteps) as (gs & HInv & _).
    split; [apply (inv_alive _ _ _ _ _ HInv)|]. split.
    + intros Hnot. apply (Inv_progress E serve to urlList concurrency s gs HInv).
      unfold finished in Hnot. destruct (collecting s); congruence.
    + destruct (Inv_terminates E serve to urlList concurrency _ s gs n _ (le_n _) HInv Hsteps)
        as (n' & s' & Hsteps' & Hfin).
      exists s'. split; [exists n'; exact Hsteps' | exact Hfin].
  - intros s Hreach Hfin.
    destruct (reachable_Inv E serve to urlList concurrency w0 s Hreach) as [gs HInv].
    destruct (Inv_finished E urlList concurrency s gs Hpos HInv Hfin)
      as (Hp & Ho & Hsub & Hall & Hb).
    repeat split; try assumption.
    intros Hin. apply (Permutation_in _ Hp), List.filter_In in Hin as [_ Hnb].
    discriminate.
  - intros f Hf s Hreach Hfin.
    exact (finished_output E serve to urlList concurrency f Hf w0 s Hpos Hreach Hfin).
Qed.

Lemma pool_probes_every_nonblank_url_witness :
  let urlList := ["http://open1.example.com"; "http://open2.example.com"; "";
                  "http://open3.example.com"; "http://shut1.example.com";
                  "http://shut2.example.com"] in
  let allowAll := {| http.StatusCode := 200;
                     http.Header := list_to_map [("Access-Control-Allow-Origin", ["*"])] |} in
  exists s,
    reachable Sample.env (stateless Sample.mixed) 10 urlList 2 tt s
    /\ finished s
    /\ probed (hist s)
       ≡ₚ ["http://open1.example.com"; "http://open2.example.com";
           "http://open3.example.com"; "http://shut1.example.com";
           "http://shut2.example.com"]
    /\ output (hist s)
       ≡ₚ map (fun u => verdict u allowAll msgWildcard)
            ["http://open1.example.com"; "http://open2.example.com";
             "http://open3.example.com"].
Proof.
  intros urlList allowAll.
  destruct (pool_probes_every_nonblank_url Sample.env (stateless Sample.mixed)
              10 urlList 2 tt ltac:(lia)) as (_ & Hlive & Hend & Hout).
  destruct (Hlive (init urlList 2 tt)) as (_ & _ & s & Hreach & Hfin).
  { exists 0%nat. apply steps_O. }
  exists s. destruct (Hend s Hreach Hfin) as (Hp & _).
  split; [exact Hreach|]. split; [exact Hfin|]. split; [exact Hp|].
  exact (Hout Sample.mixed (fun _ _ _ => eq_refl) s Hreach Hfin).
Defined.

(** C2 as stated fails for a pool without workers ([-c 0]): nobody waits on
    the wait group, [results] is closed at once, and the collecting loop
    ends with no URL probed. *)
Lemma pool_without_workers_probes_nothing :
  let urlList := ["http://example.com/"] in
  exists s,
    reachable Sample.env (stateless Sample.wildcard) 10 urlList 0 tt s
    /\ finished s
    /\ List.filter nonblank urlList = ["http://example.com/"]
    /\ probed (hist s) = []
    /\ output (hist s) = [].
Proof.
  intros urlList.
  exists (MkPool urlList (open []) [] (shut []) noBuckets false false tt
            {| probed := []; sentLog := []; output := [] |}).
  split; [|repeat split].
  exists 2%nat. eapply steps_S; [eapply steps_S; [apply steps_O|]|].
  - apply step_close_results. reflexivity.
  - apply step_collected.
Qed.

(** C3. [finish] sends nothing when the [vulnerable] flag is false; every
    result a probe sends has the flag set; and in every state of the pool so
    have all results that were sent, that wait on the channel, that the
    collecting loop received, and that lie in a bucket. *)
Theorem only_vulnerable_results_leave_the_probe
    {W : Type} (E : Env)
    (serve : W -> http.Client -> http.Request -> W * option http.Response)
    (to : Z) :
  (forall url st, vulnerable st = false -> finish url st = Return Completed)
  /\ (forall url w,
        Forall (fun r => Vulnerable r = true) (emitted (run serve (checkCORS E url to) w)))
  /\ (forall urlList concurrency w0 s,
        reachable E serve to urlList concurrency w0 s ->
        Forall (fun r => Vulnerable r = true) (sentLog (hist s))
        /\ Forall (fun r => Vulnerable r = true) (buf (results s))
        /\ Forall (fun r => Vulnerable r = true) (output (hist s))
        /\ forall c, Forall (fun r => Vulnerable r = true) (bucket c (buckets s))).
Proof.
  split; [|split].
  - intros url st Hv. unfold finish. rewrite Hv. reflexivity.
  - intros url w.
    destruct (shape_emitted E serve url 3 _ w (checkCORS_shape E url to))
      as [-> | (r & -> & _ & _ & Hv & _)]; repeat constructor. exact Hv.
  - intros urlList concurrency w0 s Hreach.
    destruct (reachable_Inv E serve to urlList concurrency w0 s Hreach) as [gs HInv].
    assert (Hsent : Forall (fun r => Vulnerable r = true) (sentLog (hist s))).
    { eapply Forall_impl; [apply (inv_sent _ _ _ _ _ HInv)|]. intros r Hr. apply Hr. }
    pose proof Hsent as Hboth. rewrite <- (inv_results _ _ _ _ _ HInv) in Hboth.
    apply Forall_app in Hboth as [Hout Hbuf].
    split; [exact Hsent|]. split; [exact Hbuf|]. split; [exact Hout|].
    intros c. rewrite (inv_buckets _ _ _ _ _ HInv c).
    apply Forall_forall. intros r Hr.
    apply list_elem_of_In, List.filter_In in Hr as [Hr _].
    exact (proj1 (Forall_forall _ _) Hout r (proj2 (list_elem_of_In _ _) Hr)).
Qed.


(** A server that answers once and then drops the connection: two
    exchanges, no third, no result. *)
Lemma probe_of_flaky_server :
  let t := run Sample.flaky (checkCORS Sample.env "http://example.com/" 10) O in
  exit t = ErrRequest
  /\ map (fun x => (http.Origin (fst x), bool_decide (is_Some (snd x)))) (exchanges t)
     = [("null", true); ("http://example.com", false)]
  /\ emitted t = [].
Proof. vm_compute. repeat split; reflexivity. Qed.

(** A URL the third block cannot parse: two exchanges, no third, no
    result. *)
Lemma probe_of_unparsable_url :
  let t := run (stateless Sample.plain)
               (checkCORS Sample.brokenParse "http://example.com/" 10) tt in
  exit t = ErrParseURL /\ length (exchanges t) = 2%nat /\ emitted t = [].
Proof. vm_compute. repeat split; reflexivity. Qed.

(** A server that is down: one exchange, no result. *)
Lemma probe_of_dead_server :
  let t := run (stateless Sample.down)
               (checkCORS Sample.env "http://example.com/" 10) tt in
  exit t = ErrRequest /\ length (exchanges t) = 1%nat /\ emitted t = [].
Proof. vm_compute. repeat split; reflexivity. Qed.

(** X1. When the answer to the first request, the one with [Origin: null],
    carries [Access-Control-Allow-Origin: null], the probe makes that one
    exchange and no other, and sends one result: vulnerable, described and
    filed as a null origin, with the status and the headers of that
    response. *)
Theorem null_origin_decided_by_first_probe
    {W : Type} (E : Env)
    (serve : W -> http.Client -> http.Request -> W * option http.Response)
    (url : string) (to : Z) (w : W) (resp : http.Response) :
  NewRequest E url = true ->
  snd (serve w {| http.Timeout := to |} (GET url "null")) = Some resp ->
  http.Get (http.Header resp) "Access-Control-Allow-Origin" = "null" ->
  let t := run serve (checkCORS E url to) w in
  exchanges t = [(GET url "null", Some resp)]
  /\ emitted t = [verdict url resp msgNull]
  /\ category (verdict url resp msgNull) = Some NullOrigin
  /\ exit t = Completed.
Proof.
  intros Hn Hs Ha t. subst t. rewrite run_checkCORS_table. unfold checkCORS_table.
  rewrite Hn. cbn [negb]. rewrite Hs. unfold reflected. rewrite Ha.
  rewrite firstVerdict_null. cbn [fst snd exit exchanges emitted].
  repeat split; reflexivity.
Qed.

Lemma null_origin_decided_by_first_probe_witness :
  let t := run (stateless sampleNullEcho) (checkCORS Sample.env "http://example.com/" 10) tt in
  length (exchanges t) = 1%nat
  /\ map Vulnerability (emitted t) = [msgNull]
  /\ map category (emitted t) = [Some NullOrigin].
Proof.
  destruct (null_origin_decided_by_first_probe Sample.env (stateless sampleNullEcho)
              "http://example.com/" 10 tt
              {| http.StatusCode := 200;
                 http.Header := list_to_map [("Access-Control-Allow-Origin", ["null"])] |}
              eq_refl eq_refl eq_refl) as (Hx & He & Hc & _).
  cbv zeta. rewrite Hx, He. cbn [map]. rewrite Hc. repeat split; reflexivity.
Defined.

(** X2. When the first two answers give nothing (the first reflects neither
    "*" nor "null" nor a value ended by the public suffix, the second does
    not reflect "http://example.com") and the answer to the request that
    carries the target's own scheme and host as origin reflects exactly that
    origin, the probe makes three exchanges and sends one result:
    vulnerable, described and filed as same domain, with the status and the
    headers of the third response. *)
Theorem own_origin_decided_by_third_probe
    {W : Type} (E : Env)
    (serve : W -> http.Client -> http.Request -> W * option http.Response)
    (url : string) (to : Z) (w : W) (u : neturl.URL) (r1 r2 r3 : http.Response) :
  let client := {| http.Timeout := to |} in
  let w1 := fst (serve w client (GET url "null")) in
  let w2 := fst (serve w1 client (GET url "http://example.com")) in
  NewRequest E url = true ->
  Parse E url = Some u ->
  snd (serve w client (GET url "null")) = Some r1 ->
  reflected r1 <> "*" -> reflected r1 <> "null" ->
  (PublicSuffix E url = ""
   \/ gostrings.HasSuffix (reflected r1) (PublicSuffix E url) = false) ->
  snd (serve w1 client (GET url "http://example.com")) = Some r2 ->
  reflected r2 <> "http://example.com" ->
  snd (serve w2 client (GET url (ownOrigin u))) = Some r3 ->
  reflected r3 = ownOrigin u ->
  let t := run serve (checkCORS E url to) w in
  exchanges t = [(GET url "null", Some r1); (GET url "http://example.com", Some r2);
                 (GET url (ownOrigin u), Some r3)]
  /\ emitted t = [verdict url r3 msgSameDomain]
  /\ category (verdict url r3 msgSameDomain) = Some SameDomain
  /\ exit t = Completed.
Proof.
  intros client w1 w2 Hn Hp H1 Hw Hnull Hsuf H2 Hne H3 Hown t. subst t client w1 w2.
  rewrite run_checkCORS_table. unfold checkCORS_table.
  rewrite Hn. cbn [negb]. rewrite H1, (firstVerdict_nothing E url _ Hw Hnull Hsuf). cbn [fst].
  rewrite H2.
  rewrite (proj2 (String.eqb_neq _ _) Hne), Hp, H3, Hown, String.eqb_refl.
  cbn [exit exchanges emitted]. repeat split; reflexivity.
Qed.

Lemma own_origin_decided_by_third_probe_witness :
  let t := run (stateless sampleSelfOnly)
               (checkCORS Sample.env "https://shop.example.co.uk" 10) tt in
  map (fun x => http.Origin (fst x)) (exchanges t)
  = ["null"; "http://example.com"; "https://shop.example.co.uk"]
  /\ map Vulnerability (emitted t) = [msgSameDomain].
Proof.
  destruct (own_origin_decided_by_third_probe Sample.env (stateless sampleSelfOnly)
              "https://shop.example.co.uk" 10 tt
              {| neturl.Scheme := "https"; neturl.Host := "shop.example.co.uk" |}
              {| http.StatusCode := 200; http.Header := list_to_map [] |}
              {| http.StatusCode := 200; http.Header := list_to_map [] |}
              {| http.StatusCode := 200;
                 http.Header := list_to_map
                   [("Access-Control-Allow-Origin", ["https://shop.example.co.uk"])] |}
              eq_refl eq_refl eq_refl ltac:(discriminate) ltac:(discriminate)
              ltac:(right; reflexivity) eq_refl ltac:(discriminate) eq_refl eq_refl)
    as (Hx & He & _).
  cbv zeta. rewrite Hx, He. split; reflexivity.
Defined.

(** X3. When the first answer reflects a value other than "*" and "null",
    the probe stops after that one exchange with a same-domain result
    exactly when [PublicSuffix(url)], computed on the URL string as it was
    given, is not empty and ends the reflected value. *)
Theorem first_block_same_domain_iff
    {W : Type} (E : Env)
    (serve : W -> http.Client -> http.Request -> W * option http.Response)
    (url : string) (to : Z) (w : W) (resp : http.Response) :
  NewRequest E url = true ->
  snd (serve w {| http.Timeout := to |} (GET url "null")) = Some resp ->
  reflected resp <> "*" -> reflected resp <> "null" ->
  let t := run serve (checkCORS E url to) w in
  (PublicSuffix E url <> "" /\ gostrings.HasSuffix (reflected resp) (PublicSuffix E url) = true)
  <-> (exchanges t = [(GET url "null", Some resp)]
       /\ emitted t = [verdict url resp msgSameDomain]).
Proof.
  intros Hn Hs Hw Hnull t. subst t. rewrite run_checkCORS_table. unfold checkCORS_table.
  rewrite Hn. cbn [negb]. rewrite Hs, (firstVerdict_suffix E url _ Hw Hnull).
  destruct (String.eqb (PublicSuffix E url) "") eqn:He; cbn [negb andb fst snd].
  - apply String.eqb_eq in He. split; [intros [? _]; congruence|].
    table_cases; cbn [exchanges]; intros [Hx _]; discriminate.
  - apply String.eqb_neq in He.
    destruct (gostrings.HasSuffix _ _) eqn:Hsuf; cbn [fst snd exchanges emitted].
    + tauto.
    + split; [intros [_ ?]; discriminate|].
      table_cases; cbn [exchanges]; intros [Hx _]; discriminate.
Qed.

Lemma first_block_same_domain_iff_witness :
  let url := "http://example.com" in
  let t := run (stateless Sample.trusting) (checkCORS Sample.env url 10) tt in
  (PublicSuffix Sample.env url <> ""
   /\ gostrings.HasSuffix "http://evil.com" (PublicSuffix Sample.env url) = true)
  /\ length (exchanges t) = 1%nat
  /\ map Vulnerability (emitted t) = [msgSameDomain].
Proof.
  pose proof (first_block_same_domain_iff Sample.env (stateless Sample.trusting)
                "http://example.com" 10 tt
                {| http.StatusCode := 200;
                   http.Header := list_to_map [("Access-Control-Allow-Origin", ["http://evil.com"])] |}
                eq_refl eq_refl ltac:(discriminate) ltac:(discriminate)) as H.
  cbv zeta in H |- *.
  assert (Hc : PublicSuffix Sample.env "http://example.com" <> ""
               /\ gostrings.HasSuffix "http://evil.com"
                    (PublicSuffix Sample.env "http://example.com") = true).
  { split; [discriminate | reflexivity]. }
  split; [exact Hc|]. destruct (proj1 H Hc) as [Hx He]. rewrite Hx, He.
  split; reflexivity.
Defined.

(** X4. Whatever the server does, a probe makes at most three requests,
    each a GET of the probed URL; their [Origin] headers are, in this order,
    "null", "http://example.com" and the target's own scheme and host; a
    request is only sent when [http.NewRequest] succeeds, a third one only
    when the URL parses; and after a failed exchange nothing more is asked. *)
Theorem requests_follow_the_script
    {W : Type} (E : Env)
    (serve : W -> http.Client -> http.Request -> W * option http.Response)
    (url : string) (to : Z) (w : W) :
  let t := run serve (checkCORS E url to) w in
  let own := match Parse E url with Some u => ownOrigin u | None => "" end in
  Forall (fun x => http.Method (fst x) = "GET" /\ http.URL (fst x) = url) (exchanges t)
  /\ map (fun x => http.Origin (fst x)) (exchanges t)
     `prefix_of` ["null"; "http://example.com"; own]
  /\ (exchanges t <> [] -> NewRequest E url = true)
  /\ (length (exchanges t) = 3%nat -> exists u, Parse E url = Some u)
  /\ Forall (fun x => is_Some (snd x)) (removelast (exchanges t)).
Proof.
  intros t own. subst t own. rewrite run_checkCORS_table. unfold checkCORS_table.
  destruct (NewRequest E url) eqn:Hn; cbn [negb].
  2:{ cbn [exchanges]. repeat split; try constructor; try discriminate.
      - eexists. reflexivity.
      - congruence. }
  destruct (Parse E url) as [u|] eqn:Hp;
    table_cases; cbn [exchanges map removelast length fst snd];
    (split; [repeat constructor|]);
    (split; [eexists; reflexivity|]);
    (split; [reflexivity|]);
    (split; [intros; try discriminate; eauto|]);
    repeat constructor; eauto.
Qed.

(** X5. A result that is sent is about the probed URL, is flagged
    vulnerable, and carries the status code and the parsed headers of the
    last response of the probe, the one that decided. *)
Theorem result_is_from_the_deciding_response
    {W : Type} (E : Env)
    (serve : W -> http.Client -> http.Request -> W * option http.Response)
    (url : string) (to : Z) (w : W) (r : CORSResult) :
  In r (emitted (run serve (checkCORS E url to) w)) ->
  emitted (run serve (checkCORS E url to) w) = [r]
  /\ exists req resp,
       last (exchanges (run serve (checkCORS E url to) w)) = Some (req, Some resp)
       /\ r = verdict url resp (Vulnerability r).
Proof.
  rewrite run_checkCORS_table. unfold checkCORS_table.
  table_cases; cbn [emitted exchanges In]; try tauto;
    intros [<- | []]; (split; [reflexivity|]); eexists _, _; split; reflexivity.
Qed.

Lemma result_is_from_the_deciding_response_witness :
  let r := verdict "http://example.com/"
             {| http.StatusCode := 200;
                http.Header := list_to_map
                  [("Access-Control-Allow-Origin", ["http://example.com"]);
                   ("Access-Control-Allow-Methods", ["GET, POST"])] |}
             msgDifferentDomain in
  let t := run (stateless Sample.reflecting) (checkCORS Sample.env "http://example.com/" 10) tt in
  emitted t = [r]
  /\ exists req resp, last (exchanges t) = Some (req, Some resp)
                      /\ r = verdict "http://example.com/" resp (Vulnerability r).
Proof.
  apply (result_is_from_the_deciding_response Sample.env (stateless Sample.reflecting)
           "http://example.com/" 10 tt).
  left. reflexivity.
Defined.

(** X6. The verdict looks at nothing but the reflected
    [Access-Control-Allow-Origin] values. Two servers that fail on the same
    requests and reflect the same value on the others get the same requests
    and the same descriptions, whatever their status codes and their other
    headers, [Access-Control-Allow-Credentials] included. *)
Theorem verdict_depends_on_reflected_origin_only
    (E : Env) (f g : http.Request -> option http.Response) (url : string) (to : Z) :
  (forall req, reflected <$> f req = reflected <$> g req) ->
  let tf := run (stateless f) (checkCORS E url to) tt in
  let tg := run (stateless g) (checkCORS E url to) tt in
  map fst (exchanges tf) = map fst (exchanges tg)
  /\ map Vulnerability (emitted tf) = map Vulnerability (emitted tg)
  /\ map category (emitted tf) = map category (emitted tg)
  /\ exit tf = exit tg.
Proof.
  intros Hfg tf tg. subst tf tg. rewrite !run_checkCORS_table. unfold checkCORS_table.
  cbn [stateless fst snd].
  destruct (NewRequest E url); cbn [negb]; [|repeat split; reflexivity].
  pose proof (Hfg (GET url "null")) as H1.
  destruct (f (GET url "null")) as [f1|], (g (GET url "null")) as [g1|];
    try discriminate; [|repeat split; reflexivity].
  injection H1 as H1. rewrite H1.
  destruct (firstVerdict E url (reflected g1)) as [[] m]; cbn [fst snd];
    [repeat split; reflexivity|].
  pose proof (Hfg (GET url "http://example.com")) as H2.
  destruct (f (GET url "http://example.com")) as [f2|],
           (g (GET url "http://example.com")) as [g2|];
    try discriminate; [|repeat split; reflexivity].
  injection H2 as H2. rewrite H2.
  destruct (String.eqb (reflected g2) "http://example.com"); [repeat split; reflexivity|].
  destruct (Parse E url) as [u|]; [|repeat split; reflexivity].
  pose proof (Hfg (GET url (ownOrigin u))) as H3.
  destruct (f (GET url (ownOrigin u))) as [f3|], (g (GET url (ownOrigin u))) as [g3|];
    try discriminate; [|repeat split; reflexivity].
  injection H3 as H3. rewrite H3.
  destruct (String.eqb (reflected g3) (ownOrigin u)); repeat split; reflexivity.
Qed.

Lemma verdict_depends_on_reflected_origin_only_witness :
  let tf := run (stateless Sample.wildcard) (checkCORS Sample.env "http://example.com/" 10) tt in
  let tg := run (stateless sampleWildcardWithCredentials)
                (checkCORS Sample.env "http://example.com/" 10) tt in
  map Vulnerability (emitted tf) = map Vulnerability (emitted tg)
  /\ map (fun r => AllowCredentials (corsConfig r)) (emitted tf) = [""]
  /\ map (fun r => AllowCredentials (corsConfig r)) (emitted tg) = ["true"].
Proof.
  destruct (verdict_depends_on_reflected_origin_only Sample.env Sample.wildcard
              sampleWildcardWithCredentials "http://example.com/" 10
              (fun _ => eq_refl)) as (_ & Hv & _).
  split; [exact Hv|]. split; reflexivity.
Defined.

(** X7. The max-age field is the number the header writes. When the value
    of [Access-Control-Max-Age] is the decimal notation of an integer (an
    optional sign, then digits), the field is that integer if it fits a
    64-bit [int] and the nearest bound on its side otherwise; and
    [strconv.Atoi] succeeds on exactly the notations that fit. *)
Theorem max_age_is_the_decimal_value (resp : http.Response) (v : Z) :
  let header := http.Get (http.Header resp) "Access-Control-Max-Age" in
  decimal header = Some v ->
  MaxAge (readConfig resp)
  = (if v <? - 2 ^ 63 then - 2 ^ 63 else if 2 ^ 63 <=? v then 2 ^ 63 - 1 else v)
  /\ (snd (strconv.Atoi header) = None <-> - 2 ^ 63 <= v < 2 ^ 63)
  /\ (forall s n, strconv.Atoi s = (n, None) <-> decimal s = Some n /\ - 2 ^ 63 <= n < 2 ^ 63).
Proof.
  intros header Hd.
  change (MaxAge (readConfig resp)) with (fst (strconv.Atoi header)).
  change (2 ^ 63) with 9223372036854775808 in *.
  split; [|split].
  - destruct (Z.ltb_spec v (Z.opp 9223372036854775808)) as [Hlow | Hlow].
    + rewrite (Atoi_clamp header v Hd) by (change (2 ^ 63) with 9223372036854775808; lia).
      replace (v <? 0) with true by (symmetry; apply Z.ltb_lt; lia). reflexivity.
    + destruct (Z.leb_spec 9223372036854775808 v) as [Hhigh | Hhigh].
      * rewrite (Atoi_clamp header v Hd) by (change (2 ^ 63) with 9223372036854775808; lia).
        replace (v <? 0) with false by (symmetry; apply Z.ltb_ge; lia). reflexivity.
      * rewrite (proj2 (Atoi_spec header v)); [reflexivity|].
        change (2 ^ 63) with 9223372036854775808. auto.
  - split.
    + intros Hok. destruct (strconv.Atoi header) as [n e] eqn:Ha. cbn in Hok. subst e.
      apply Atoi_spec in Ha as [Hd' Hr]. change (2 ^ 63) with 9223372036854775808 in Hr.
      congruence.
    + intros Hr. rewrite (proj2 (Atoi_spec header v)); [reflexivity|].
      change (2 ^ 63) with 9223372036854775808. auto.
  - intros s n. rewrite Atoi_spec. change (2 ^ 63) with 9223372036854775808. reflexivity.
Qed.

Lemma max_age_is_the_decimal_value_witness :
  MaxAge (readConfig {| http.StatusCode := 200;
                        http.Header := {[ "Access-Control-Max-Age" := ["-86400"] ]} |})
  = -86400
  /\ MaxAge (readConfig {| http.StatusCode := 200;
                           http.Header := {[ "Access-Control-Max-Age"
                                               := ["-99999999999999999999"] ]} |})
     = - 2 ^ 63.
Proof.
  split.
  - exact (proj1 (max_age_is_the_decimal_value
                    {| http.StatusCode := 200;
                       http.Header := {[ "Access-Control-Max-Age" := ["-86400"] ]} |}
                    (-86400) eq_refl)).
  - exact (proj1 (max_age_is_the_decimal_value
                    {| http.StatusCode := 200;
                       http.Header := {[ "Access-Control-Max-Age"
                                           := ["-99999999999999999999"] ]} |}
                    (-99999999999999999999) eq_refl)).
Defined.

(** ** More on the pool *)

(** The sample pool, two workers on six entries, runs to its end. *)
Lemma sample_pool_finishes :
  exists s, reachable Sample.env (stateless Sample.mixed) 10 sampleUrls 2 tt s /\ finished s.
Proof.
  destruct (Inv_terminates Sample.env (stateless Sample.mixed) 10 sampleUrls 2 _
              (init sampleUrls 2 tt) _ 0%nat (init sampleUrls 2 tt) (le_n _)
              (init_Inv Sample.env sampleUrls 2 tt) (steps_O _ _ _ _ _))
    as (n & s & Hsteps & Hfin).
  exists s. split; [exists n; exact Hsteps | exact Hfin].
Qed.

(** The sample pool after four steps: the first URL was distributed, the
    first worker received it, called [checkCORS] and got the answer to its
    first request; it is about to send its result. *)
Lemma sample_pool_sending :
  let u := "http://open1.example.com" in
  let allowAll := {| http.StatusCode := 200;
                     http.Header := list_to_map [("Access-Control-Allow-Origin", ["*"])] |} in
  exists s,
    reachable Sample.env (stateless Sample.mixed) 10 sampleUrls 2 tt s
    /\ workers s = [Busy u (Send (verdict u allowAll msgWildcard) (Return Completed)); Idle]
    /\ probed (hist s) = [u]
    /\ buf (urlChan s) = [] /\ pending s = tl sampleUrls
    /\ results s = open [].
Proof.
  intros u allowAll. eexists. split.
  - exists 4%nat.
    eapply steps_S; [eapply steps_S; [eapply steps_S; [eapply steps_S; [apply steps_O|]|]|]|].
    + apply step_distribute. simpl. lia.
    + apply (step_receive _ _ _ _ _ _ _ _ [] [Idle]).
    + apply (step_start _ _ _ _ _ _ _ [] [Idle]). discriminate.
    + apply (step_request _ _ _ _ _ _ [] u {| http.Timeout := 10 |} (GET u "null") _ [Idle]).
  - repeat split; reflexivity.
Qed.

(** Two workers may call [checkCORS] in the reverse of the list order: the
    second worker, which received the second URL, calls first. *)
Lemma workers_may_call_out_of_list_order :
  exists s,
    reachable Sample.env (stateless Sample.mixed) 10 ["http://a.example"; "http://b.example"]
      2 tt s
    /\ probed (hist s) = ["http://b.example"; "http://a.example"].
Proof.
  eexists. split.
  - exists 6%nat.
    eapply steps_S; [eapply steps_S; [eapply steps_S; [eapply steps_S;
      [eapply steps_S; [eapply steps_S; [apply steps_O|]|]|]|]|]|].
    + apply step_distribute. simpl. lia.
    + apply step_distribute. simpl. lia.
    + apply (step_receive _ _ _ _ _ _ _ _ [] [Idle]).
    + apply (step_receive _ _ _ _ _ _ _ _ [Holding "http://a.example"] []).
    + apply (step_start _ _ _ _ _ _ _ [Holding "http://a.example"] []). discriminate.
    + apply (step_start _ _ _ _ _ _ _ [] [Busy "http://b.example" _]). discriminate.
  - reflexivity.
Qed.

Lemma inCategory_iff c r : inCategory c r = true <-> category r = Some c.
Proof.
  unfold inCategory. destruct (category r) as [[]|], c; split; intros H;
    try discriminate; try reflexivity; congruence.
Qed.

(** X8. At every moment each of the four buckets holds, in the order they
    were received, exactly the received results that the [switch] files
    under its category; a received result whose description names no
    category is in no bucket. *)
Theorem buckets_hold_received_by_category
    {W : Type} (E : Env)
    (serve : W -> http.Client -> http.Request -> W * option http.Response)
    (to : Z) (urlList : list string) (concurrency : Z) (w0 : W) (s : Pool W) :
  reachable E serve to urlList concurrency w0 s ->
  forall c,
    bucket c (buckets s) = List.filter (inCategory c) (output (hist s))
    /\ (forall r, In r (bucket c (buckets s)) <->
                  In r (output (hist s)) /\ category r = Some c).
Proof.
  intros Hreach c.
  destruct (reachable_Inv E serve to urlList concurrency w0 s Hreach) as [gs HInv].
  pose proof (inv_buckets _ _ _ _ _ HInv c) as Hb. split; [exact Hb|].
  intros r. rewrite Hb, List.filter_In, inCategory_iff. reflexivity.
Qed.

Lemma buckets_hold_received_by_category_witness :
  exists s,
    reachable Sample.env (stateless Sample.mixed) 10 sampleUrls 2 tt s /\ finished s
    /\ wildcardOriginResults (buckets s)
       = List.filter (inCategory WildcardOrigin) (output (hist s)).
Proof.
  destruct sample_pool_finishes as (s & Hreach & Hfin).
  exists s. split; [exact Hreach|]. split; [exact Hfin|].
  exact (proj1 (buckets_hold_received_by_category Sample.env (stateless Sample.mixed) 10
                  sampleUrls 2 tt s Hreach WildcardOrigin)).
Defined.

(** X9. The collecting loop receives the results in the order in which the
    probes sent them: at every moment the results received so far, followed
    by those waiting on the channel, are the results sent so far. Nothing
    sent is lost or duplicated. *)
Theorem results_are_received_in_sending_order
    {W : Type} (E : Env)
    (serve : W -> http.Client -> http.Request -> W * option http.Response)
    (to : Z) (urlList : list string) (concurrency : Z) (w0 : W) (s : Pool W) :
  reachable E serve to urlList concurrency w0 s ->
  (output (hist s) ++ buf (results s))%list = sentLog (hist s)
  /\ output (hist s) `prefix_of` sentLog (hist s)
  /\ (length (buf (results s)) <= length urlList)%nat.
Proof.
  intros Hreach.
  destruct (reachable_Inv E serve to urlList concurrency w0 s Hreach) as [gs HInv].
  pose proof (inv_results _ _ _ _ _ HInv) as Hres.
  split; [exact Hres|]. split; [exists (buf (results s)); symmetry; exact Hres|].
  pose proof (inv_owed _ _ _ _ _ HInv) as Howed. apply submseteq_length in Howed.
  destruct (inv_urls _ _ _ _ _ HInv) as (taken & Hlist & Hperm).
  pose proof (probed_le _ _ _ _ _ Hlist Hperm) as Hle.
  apply (f_equal (@length CORSResult)) in Hres.
  rewrite !length_app in *. rewrite length_map in Howed. lia.
Qed.

Lemma results_are_received_in_sending_order_witness :
  exists s,
    reachable Sample.env (stateless Sample.mixed) 10 sampleUrls 2 tt s /\ finished s
    /\ (output (hist s) ++ buf (results s))%list = sentLog (hist s).
Proof.
  destruct sample_pool_finishes as (s & Hreach & Hfin).
  exists s. split; [exact Hreach|]. split; [exact Hfin|].
  exact (proj1 (results_are_received_in_sending_order Sample.env (stateless Sample.mixed) 10
                  sampleUrls 2 tt s Hreach)).
Defined.

(** X10. URLs leave the queue in the order of the list: at every moment
    the list is the entries the workers have taken so far followed by those
    still in the queue or not yet distributed. The non-blank entries taken
    are, each once and in some order, the URLs [checkCORS] has been called
    with and those a worker holds and is about to call it with. *)
Theorem urls_leave_the_queue_in_list_order
    {W : Type} (E : Env)
    (serve : W -> http.Client -> http.Request -> W * option http.Response)
    (to : Z) (urlList : list string) (concurrency : Z) (w0 : W) (s : Pool W) :
  reachable E serve to urlList concurrency w0 s ->
  (exists taken,
      urlList = (taken ++ buf (urlChan s) ++ pending s)%list
      /\ (probed (hist s) ++ flat_map waiting (workers s))%list
         ≡ₚ List.filter nonblank taken)
  /\ (buf (urlChan s) ++ pending s)%list `suffix_of` urlList
  /\ probed (hist s) ⊆+ List.filter nonblank urlList.
Proof.
  intros Hreach.
  destruct (reachable_Inv E serve to urlList concurrency w0 s Hreach) as [gs HInv].
  destruct (inv_urls _ _ _ _ _ HInv) as (taken & Hlist & Hperm).
  split; [exists taken; split; [exact Hlist | exact Hperm]|].
  split; [exists taken; exact Hlist|].
  rewrite Hlist, List.filter_app, <- Hperm.
  apply submseteq_inserts_r, submseteq_inserts_r. reflexivity.
Qed.

Lemma urls_leave_the_queue_in_list_order_witness :
  exists s,
    reachable Sample.env (stateless Sample.mixed) 10 sampleUrls 2 tt s
    /\ probed (hist s) = ["http://open1.example.com"]
    /\ (buf (urlChan s) ++ pending s)%list = tl sampleUrls
    /\ (buf (urlChan s) ++ pending s)%list `suffix_of` sampleUrls.
Proof.
  destruct sample_pool_sending as (s & Hreach & _ & Hp & Hq & Hus & _).
  exists s. split; [exact Hreach|]. split; [exact Hp|].
  split; [rewrite Hq, Hus; reflexivity|].
  exact (proj1 (proj2 (urls_leave_the_queue_in_list_order Sample.env
                         (stateless Sample.mixed) 10 sampleUrls 2 tt s Hreach))).
Defined.

Lemma In_middle {A} (x y : A) l1 l2 :
  In x (l1 ++ y :: l2) <-> x = y \/ In x (l1 ++ l2).
Proof. rewrite !in_app_iff. cbn [In]. intuition congruence. Qed.

(** A worker is inside [checkCORS] only for a URL the call of which has
    been recorded. *)
Lemma busy_is_probed
    {W : Type} (E : Env)
    (serve : W -> http.Client -> http.Request -> W * option http.Response)
    (to : Z) (urlList : list string) (concurrency : Z) (w0 : W) (s : Pool W) :
  reachable E serve to urlList concurrency w0 s ->
  forall u p, In (Busy u p) (workers s) -> In u (probed (hist s)).
Proof.
  intros [n Hsteps]. remember (init urlList concurrency w0) as s0 eqn:Hs0.
  induction Hsteps as [s | n s1 s2 s3 Hsteps IH Hstep]; subst.
  - intros u p Hin. unfold init in Hin. cbn [workers] in Hin.
    apply list_elem_of_In, elem_of_replicate in Hin as [? _]. discriminate.
  - specialize (IH eq_refl). intros u' p' Hin. destruct Hstep;
      cbn [workers hist probed started sending received] in *;
      try (exact (IH u' p' Hin));
      apply In_middle in Hin as [Hin | Hin];
      try discriminate;
      try (apply (IH u' p'), In_middle; right; exact Hin).
    + (* start: the worker itself *)
      injection Hin as -> _. apply in_or_app. right. left. reflexivity.
    + (* start: another worker *)
      apply in_or_app. left. apply (IH u' p'), In_middle. right. exact Hin.
    + (* request *)
      injection Hin as -> _. eapply IH, In_middle. left. reflexivity.
    + (* send *)
      injection Hin as -> _. eapply IH, In_middle. left. reflexivity.
Qed.

(** X11. The pool has exactly [concurrency] workers from start to end (none
    for a count of zero or less), so at no moment are more than that many
    probes under way; and every probe under way is for a non-blank entry of
    the URL list, with which [checkCORS] was called. *)
Theorem at_most_concurrency_probes_under_way
    {W : Type} (E : Env)
    (serve : W -> http.Client -> http.Request -> W * option http.Response)
    (to : Z) (urlList : list string) (concurrency : Z) (w0 : W) (s : Pool W) :
  reachable E serve to urlList concurrency w0 s ->
  length (workers s) = Z.to_nat concurrency
  /\ (length (List.filter isBusy (workers s)) <= Z.to_nat concurrency)%nat
  /\ (forall u p,
        In (Busy u p) (workers s) ->
        u <> "" /\ In u urlList /\ In u (probed (hist s))).
Proof.
  intros Hreach.
  destruct (reachable_Inv E serve to urlList concurrency w0 s Hreach) as [gs HInv].
  pose proof (inv_count _ _ _ _ _ HInv) as Hc. split; [exact Hc|].
  split; [rewrite <- Hc; apply List.filter_length_le|].
  intros u p Hin.
  pose proof (busy_is_probed E serve to urlList concurrency w0 s Hreach u p Hin) as Hp.
  destruct (inv_urls _ _ _ _ _ HInv) as (taken & Hlist & Hperm).
  assert (Hu : In u (List.filter nonblank taken)).
  { apply (Permutation_in _ Hperm), in_or_app. left. exact Hp. }
  apply List.filter_In in Hu as [Hu Hnb].
  split; [intros ->; discriminate|]. split; [|exact Hp].
  rewrite Hlist. apply in_or_app. left. exact Hu.
Qed.

Lemma at_most_concurrency_probes_under_way_witness :
  exists s,
    reachable Sample.env (stateless Sample.mixed) 10 sampleUrls 2 tt s
    /\ length (List.filter isBusy (workers s)) = 1%nat
    /\ length (workers s) = 2%nat
    /\ (length (List.filter isBusy (workers s)) <= 2)%nat
    /\ In "http://open1.example.com" (probed (hist s)).
Proof.
  destruct sample_pool_sending as (s & Hreach & Hws & _).
  exists s. split; [exact Hreach|]. split; [rewrite Hws; reflexivity|].
  destruct (at_most_concurrency_probes_under_way Sample.env (stateless Sample.mixed) 10
              sampleUrls 2 tt s Hreach) as (Hlen & Hbusy & Hfor).
  split; [exact Hlen|]. split; [exact Hbusy|].
  refine (proj2 (proj2 (Hfor "http://open1.example.com" _ _))).
  rewrite Hws. left. reflexivity.
Defined.

(** X12. Neither channel ever makes a sender wait. While URLs are left to
    distribute, [urlChan] has room; and whenever a worker is about to send
    a result, [results] is open and has room, so the send neither blocks
    nor panics. *)
Theorem sends_never_block
    {W : Type} (E : Env)
    (serve : W -> http.Client -> http.Request -> W * option http.Response)
    (to : Z) (urlList : list string) (concurrency : Z) (w0 : W) (s : Pool W) :
  reachable E serve to urlList concurrency w0 s ->
  (pending s <> [] -> (length (buf (urlChan s)) < length urlList)%nat)
  /\ (forall u r k, In (Busy u (Send r k)) (workers s) ->
        closed (results s) = false
        /\ (length (buf (results s)) < length urlList)%nat).
Proof.
  intros Hreach.
  destruct (reachable_Inv E serve to urlList concurrency w0 s Hreach) as [gs HInv].
  destruct HInv as [Halive Hws Hcount Hurls Hroom Hdist Hdrain Hwait Hres Howed Hsent
                      Hcoll Hbuck].
  split.
  - intros Hne. destruct (pending s); [congruence|]. simpl in Hroom. lia.
  - intros u r k Hin. apply in_split in Hin as (ws1 & ws2 & Hsplit).
    rewrite Hsplit in *. split.
    + destruct (closed (results s)); [|reflexivity].
      apply Forall_middle in Hwait as [Hx _]; [discriminate | reflexivity].
    + apply Forall2_middle in Hws as (gs1 & g & gs2 & -> & _ & Hg & _).
      apply wghost_Send in Hg as (n & -> & _).
      rewrite owed_middle in Howed. cbn [fst app] in Howed.
      apply submseteq_length in Howed. rewrite length_app, length_map in Howed.
      simpl in Howed.
      destruct Hurls as (taken & Hlist & Hperm).
      pose proof (probed_le _ _ _ _ _ Hlist Hperm) as Hle.
      apply (f_equal (@length CORSResult)) in Hres.
      rewrite !length_app in *. lia.
Qed.

Lemma sends_never_block_witness :
  exists s u r k,
    reachable Sample.env (stateless Sample.mixed) 10 sampleUrls 2 tt s
    /\ In (Busy u (Send r k)) (workers s)
    /\ pending s <> []
    /\ (length (buf (urlChan s)) < length sampleUrls)%nat
    /\ closed (results s) = false
    /\ (length (buf (results s)) < length sampleUrls)%nat.
Proof.
  destruct sample_pool_sending as (s & Hreach & Hws & _ & _ & Hus & _).
  assert (Hin : In (Busy "http://open1.example.com"
                      (Send (verdict "http://open1.example.com"
                               {| http.StatusCode := 200;
                                  http.Header :=
                                    list_to_map [("Access-Control-Allow-Origin", ["*"])] |}
                               msgWildcard) (Return Completed))) (workers s))
    by (rewrite Hws; left; reflexivity).
  assert (Hne : pending s <> []) by (rewrite Hus; discriminate).
  destruct (sends_never_block Sample.env (stateless Sample.mixed) 10 sampleUrls 2 tt s Hreach)
    as [Hroom Hsend].
  destruct (Hsend _ _ _ Hin) as [Hopen Hfree].
  exists s. do 3 eexists. split; [exact Hreach|]. split; [exact Hin|].
  split; [exact Hne|]. split; [exact (Hroom Hne)|]. split; [exact Hopen | exact Hfree].
Defined.

(** X13. The end of the results is announced only when the work is over:
    once [results] is closed, every worker has left its loop and no result
    will be sent any more; and once a worker has left its loop, [urlChan]
    is closed and empty, every entry has been taken, and every non-blank
    entry has been handed to [checkCORS] or is held by a worker that is
    about to call it. *)
Theorem results_close_after_the_workers
    {W : Type} (E : Env)
    (serve : W -> http.Client -> http.Request -> W * option http.Response)
    (to : Z) (urlList : list string) (concurrency : Z) (w0 : W) (s : Pool W) :
  reachable E serve to urlList concurrency w0 s ->
  (closed (results s) = true ->
     Forall (fun w => w = Exited) (workers s)
     /\ forall s', step E serve to (length urlList) s s' ->
                   sentLog (hist s') = sentLog (hist s)
                   /\ probed (hist s') = probed (hist s))
  /\ (In Exited (workers s) ->
        closed (urlChan s) = true /\ buf (urlChan s) = [] /\ pending s = []
        /\ (probed (hist s) ++ flat_map waiting (workers s))%list
           ≡ₚ List.filter nonblank urlList).
Proof.
  intros Hreach.
  destruct (reachable_Inv E serve to urlList concurrency w0 s Hreach) as [gs HInv].
  destruct HInv as [Halive Hws Hcount Hurls Hroom Hdist Hdrain Hwait Hres Howed Hsent
                      Hcoll Hbuck].
  split.
  - intros Hc. pose proof (Hwait Hc) as Hall. split; [exact Hall|].
    intros s' Hstep. destruct Hstep;
      cbn [workers results closed open shut hist sentLog probed started sending received] in *;
      try (split; reflexivity); try discriminate;
      apply Forall_middle in Hall as [Hx _]; discriminate.
  - intros Hin.
    assert (Hex : Exists (fun w => w = Exited) (workers s)).
    { apply Exists_exists. exists Exited. split; [apply list_elem_of_In, Hin | reflexivity]. }
    destruct (Hdrain Hex) as [Hqc Hqb]. pose proof (Hdist Hqc) as Hus.
    repeat split; try assumption.
    destruct Hurls as (taken & Hlist & Hperm).
    rewrite Hqb, Hus, !app_nil_r in Hlist. subst taken. exact Hperm.
Qed.

Lemma results_close_after_the_workers_witness :
  exists s,
    reachable Sample.env (stateless Sample.mixed) 10 sampleUrls 2 tt s /\ finished s
    /\ closed (results s) = true
    /\ Forall (fun w => w = Exited) (workers s)
    /\ closed (urlChan s) = true /\ buf (urlChan s) = [] /\ pending s = [].
Proof.
  destruct sample_pool_finishes as (s & Hreach & Hfin).
  destruct (reachable_Inv Sample.env (stateless Sample.mixed) 10 sampleUrls 2 tt s Hreach)
    as [gs HInv].
  destruct (inv_collected _ _ _ _ _ HInv Hfin) as [Hc _].
  pose proof (inv_count _ _ _ _ _ HInv) as Hcount.
  destruct (results_close_after_the_workers Sample.env (stateless Sample.mixed) 10
              sampleUrls 2 tt s Hreach) as [Hclosed Hexited].
  destruct (Hclosed Hc) as [Hall _].
  assert (Hin : In Exited (workers s)).
  { destruct (workers s) as [|wk ws]; [discriminate Hcount|].
    apply Forall_cons in Hall as [-> _]. left. reflexivity. }
  destruct (Hexited Hin) as (Hqc & Hqb & Hus & _).
  exists s. repeat split; assumption.
Defined.



(** ** Writing the buckets *)

Section FileFacts.

Variable succeeds : list FileOp -> FileOp -> bool.

Lemma string_app_assoc (a b c : string) : (a ++ b) ++ c = a ++ (b ++ c).
Proof.
  induction a as [|x a IH]; [reflexivity|].
  change (String x ((a ++ b) ++ c) = String x (a ++ (b ++ c))). rewrite IH. reflexivity.
Qed.

Lemma string_app_nil_r (a : string) : a ++ "" = a.
Proof.
  induction a as [|x a IH]; [reflexivity|].
  change (String x (a ++ "") = String x a). rewrite IH. reflexivity.
Qed.

Lemma bytesWritten_app marshal filename l1 l2 :
  bytesWritten marshal filename (l1 ++ l2)
  = bytesWritten marshal filename l1 ++ bytesWritten marshal filename l2.
Proof.
  unfold bytesWritten. induction l1 as [|op l1 IH]; [reflexivity|].
  cbn [app fold_right]. rewrite IH. symmetry. apply string_app_assoc.
Qed.

Lemma encodesOf_app filename l1 l2 :
  encodesOf filename (l1 ++ l2) = (encodesOf filename l1 ++ encodesOf filename l2)%list.
Proof. unfold encodesOf. apply flat_map_app. Qed.

Lemma createsOf_app l1 l2 : createsOf (l1 ++ l2) = (createsOf l1 ++ createsOf l2)%list.
Proof. unfold createsOf. apply flat_map_app. Qed.

(** The loop only appends: one encoding per result, in their order, and a
    separator only right after a successful encoding that is not the last. *)
Lemma writeLoop_body filename n i rest log :
  i + Z.of_nat (length rest) = n ->
  exists body,
    writeLoop succeeds filename n i rest log = (log ++ body)%list
    /\ encodesOf filename body = rest
    /\ createsOf body = []
    /\ Forall (isBodyOp filename) body
    /\ (length body <= 2 * length rest - 1)%nat
    /\ last body = OpEncode filename <$> last rest.
Proof.
  revert i log. induction rest as [|r rest IH]; intros i log Hn.
  - exists []. cbn. rewrite app_nil_r. repeat split; auto.
  - cbn [writeLoop]. cbv zeta. cbn [length] in Hn.
    set (enc := OpEncode filename r). set (comma := OpWrite filename (String "," nl)).
    assert (HE : isBodyOp filename enc) by (left; eexists; reflexivity).
    assert (HS : isBodyOp filename comma) by (right; reflexivity).
    assert (Hself : forall body, encodesOf filename (enc :: body) = r :: encodesOf filename body).
    { intros body. cbn. rewrite String.eqb_refl. reflexivity. }
    assert (Hend : forall body : list FileOp,
               (length body <= 2 * length rest - 1)%nat ->
               last body = OpEncode filename <$> last rest ->
               last (enc :: body) = OpEncode filename <$> last (r :: rest)).
    { intros body Hlen Hl. destruct rest as [|r2 rest2].
      - destruct body; [reflexivity | simpl in Hlen; lia].
      - rewrite (last_cons_cons r). destruct body as [|op body].
        + symmetry in Hl. apply fmap_None, last_None in Hl. discriminate.
        + rewrite last_cons_cons. exact Hl. }
    destruct (succeeds log enc); cbn [negb].
    + destruct (Z.ltb_spec i (n - 1)) as [Hmid | Hlast].
      * destruct (IH (i + 1) ((log ++ [enc]) ++ [comma])%list ltac:(lia))
          as (body & -> & Henc & Hcr & Hall & Hlen & Hl).
        exists (enc :: comma :: body). rewrite <- !app_assoc. cbn [app].
        split; [reflexivity|]. split; [rewrite Hself; cbn; rewrite <- Henc; reflexivity|].
        split; [exact Hcr|]. split; [constructor; [exact HE | constructor; [exact HS | exact Hall]]|].
        assert (rest <> []) by (destruct rest; [simpl in Hn; lia | discriminate]).
        split; [destruct rest; [congruence | simpl in *; lia]|].
        rewrite <- (Hend body Hlen Hl).
        destruct body as [|op body]; [|reflexivity].
        symmetry in Hl. apply fmap_None, last_None in Hl. congruence.
      * destruct (IH (i + 1) (log ++ [enc])%list ltac:(lia))
          as (body & -> & Henc & Hcr & Hall & Hlen & Hl).
        exists (enc :: body). rewrite <- !app_assoc. cbn [app].
        split; [reflexivity|]. split; [rewrite Hself, Henc; reflexivity|].
        split; [exact Hcr|]. split; [constructor; [exact HE | exact Hall]|].
        split; [simpl; lia | exact (Hend body Hlen Hl)].
    + destruct (IH (i + 1) (log ++ [enc])%list ltac:(lia))
        as (body & -> & Henc & Hcr & Hall & Hlen & Hl).
      exists (enc :: body). rewrite <- !app_assoc. cbn [app].
      split; [reflexivity|]. split; [rewrite Hself, Henc; reflexivity|].
      split; [exact Hcr|]. split; [constructor; [exact HE | exact Hall]|].
      split; [simpl; lia | exact (Hend body Hlen Hl)].
Qed.

End FileFacts.

Section FileTheorems.

Variable succeeds : list FileOp -> FileOp -> bool.

Lemma writeResultsToFile_creates filename results log :
  createsOf (writeResultsToFile succeeds filename results log)
  = (createsOf log ++ [filename])%list.
Proof.
  unfold writeResultsToFile. cbv zeta. destruct (succeeds log _); cbn [negb].
  - destruct (writeLoop_body succeeds filename (Z.of_nat (length results)) 0 results
                ((log ++ [OpCreate filename]) ++ [OpWrite filename (String "[" nl)]) ltac:(lia))
      as (body & -> & _ & Hcr & _).
    rewrite !createsOf_app, Hcr. cbn. rewrite !app_nil_r. reflexivity.
  - rewrite createsOf_app. reflexivity.
Qed.

Lemma writeLoop_all_succeed marshal filename n i rest log :
  (forall l op, succeeds l op = true) ->
  i + Z.of_nat (length rest) = n ->
  exists body,
    writeLoop succeeds filename n i rest log = (log ++ body)%list
    /\ bytesWritten marshal filename body
       = String.concat (String "," nl) (map (fun r => marshal r ++ nl) rest).
Proof.
  intros Hok. revert i log. induction rest as [|r rest IH]; intros i log Hn.
  - exists []. cbn. rewrite app_nil_r. auto.
  - cbn [writeLoop]. cbv zeta. rewrite Hok. cbn [negb]. cbn [length] in Hn.
    destruct (Z.ltb_spec i (n - 1)) as [Hmid | Hlast].
    + destruct (IH (i + 1) ((log ++ [OpEncode filename r])
                              ++ [OpWrite filename (String "," nl)])%list ltac:(lia)) as (body & -> & Hb).
      exists (OpEncode filename r :: OpWrite filename (String "," nl) :: body). rewrite <- !app_assoc. split; [reflexivity|].
      destruct rest as [|r2 rest]; [simpl in Hn; lia|].
      cbn [bytesWritten fold_right bytesOf map String.concat] in *.
      rewrite String.eqb_refl. unfold bytesWritten in Hb. rewrite Hb. reflexivity.
    + destruct (IH (i + 1) (log ++ [OpEncode filename r])%list ltac:(lia))
        as (body & -> & Hb).
      exists (OpEncode filename r :: body). rewrite <- !app_assoc. split; [reflexivity|].
      destruct rest as [|r2 rest]; [|simpl in Hn; lia].
      cbn [bytesWritten fold_right bytesOf map String.concat] in *.
      rewrite String.eqb_refl. unfold bytesWritten in Hb. rewrite Hb.
      apply string_app_nil_r.
Qed.

End FileTheorems.

(** X15. On a file system where nothing fails, [writeResultsToFile] creates
    the file and writes into it an opening bracket, the encodings of the
    results in their order, separated by commas, and a closing bracket, each
    of these followed by a newline: a JSON array of the results. For no
    result at all the file holds the two brackets. *)
Theorem written_file_is_the_array_of_results
    (succeeds : list FileOp -> FileOp -> bool) (marshal : CORSResult -> string)
    (filename : string) (results : list CORSResult) (log : list FileOp) :
  (forall l op, succeeds l op = true) ->
  exists ops,
    writeResultsToFile succeeds filename results log
    = (log ++ OpCreate filename :: ops ++ [OpClose filename])%list
    /\ bytesWritten marshal filename ops
       = String "[" nl
         ++ String.concat (String "," nl) (map (fun r => marshal r ++ nl) results)
         ++ String "]" nl
    /\ encodesOf filename ops = results.
Proof.
  intros Hok. unfold writeResultsToFile. cbv zeta. rewrite Hok. cbn [negb].
  destruct (writeLoop_all_succeed succeeds marshal filename (Z.of_nat (length results)) 0
              results ((log ++ [OpCreate filename]) ++ [OpWrite filename (String "[" nl)])
              Hok ltac:(lia)) as (body & Hloop & Hbytes).
  destruct (writeLoop_body succeeds filename (Z.of_nat (length results)) 0 results
              ((log ++ [OpCreate filename]) ++ [OpWrite filename (String "[" nl)])
              ltac:(lia)) as (body' & Hloop' & Henc & _).
  assert (body' = body) by (rewrite Hloop in Hloop'; apply app_inv_head in Hloop'; auto).
  subst body'. rewrite Hloop.
  exists (OpWrite filename (String "[" nl) :: body ++ [OpWrite filename (String "]" nl)])%list.
  split; [rewrite <- !app_assoc; cbn [app]; rewrite <- ?app_assoc; reflexivity|]. split.
  - change (OpWrite filename (String "[" nl) :: body ++ [OpWrite filename (String "]" nl)])%list
      with ([OpWrite filename (String "[" nl)] ++ body ++ [OpWrite filename (String "]" nl)])%list.
    rewrite !bytesWritten_app, Hbytes.
    cbn [bytesWritten fold_right bytesOf]. rewrite String.eqb_refl, !string_app_nil_r.
    reflexivity.
  - change (OpWrite filename (String "[" nl) :: body ++ [OpWrite filename (String "]" nl)])%list
      with ([OpWrite filename (String "[" nl)] ++ body ++ [OpWrite filename (String "]" nl)])%list.
    rewrite !encodesOf_app, Henc. cbn. apply app_nil_r.
Qed.

Lemma written_file_is_the_array_of_results_witness :
  let r1 := verdict "http://a.example" {| http.StatusCode := 200; http.Header := ∅ |}
              msgWildcard in
  let r2 := verdict "http://b.example" {| http.StatusCode := 204; http.Header := ∅ |}
              msgWildcard in
  exists ops,
    writeResultsToFile sound (fileName WildcardOrigin) [r1; r2] []
    = (OpCreate (fileName WildcardOrigin) :: ops ++ [OpClose (fileName WildcardOrigin)])%list
    /\ bytesWritten URL (fileName WildcardOrigin) ops
       = String "[" nl ++ "http://a.example" ++ nl ++ String "," nl
         ++ "http://b.example" ++ nl ++ String "]" nl.
Proof.
  intros r1 r2.
  destruct (written_file_is_the_array_of_results sound URL (fileName WildcardOrigin)
              [r1; r2] [] (fun _ _ => eq_refl)) as (ops & Hlog & Hbytes & _).
  exists ops. split; [exact Hlog | exact Hbytes].
Defined.

Section Separators.

Variable succeeds : list FileOp -> FileOp -> bool.

(** Where the loop puts the separators: one directly after every encoding
    that succeeded and is not the last, and nowhere else; after an encoding
    that failed the next encoding follows at once. *)
Lemma writeLoop_placed filename n i rest log :
  i + Z.of_nat (length rest) = n ->
  exists body,
    writeLoop succeeds filename n i rest log = (log ++ body)%list
    /\ match rest with
       | [] => body = []
       | r :: _ => exists post, body = OpEncode filename r :: post
       end
    /\ (forall pre post,
          body = (pre ++ OpWrite filename (String "," nl) :: post)%list ->
          post <> []
          /\ exists pre' r,
               pre = (pre' ++ [OpEncode filename r])%list
               /\ succeeds (log ++ pre') (OpEncode filename r) = true)
    /\ (forall pre r post,
          body = (pre ++ OpEncode filename r :: post)%list ->
          post <> [] ->
          if succeeds (log ++ pre) (OpEncode filename r)
          then exists post', post = OpWrite filename (String "," nl) :: post'
          else exists r' post', post = OpEncode filename r' :: post').
Proof.
  revert i log. induction rest as [|r rest IH]; intros i log Hn.
  - exists []. cbn [writeLoop]. rewrite app_nil_r. split; [reflexivity|].
    split; [reflexivity|]. split; intros [|x pre]; intros; discriminate.
  - cbn [writeLoop]. cbv zeta. cbn [length] in Hn.
    set (enc := OpEncode filename r). set (comma := OpWrite filename (String "," nl)).
    destruct (succeeds log enc) eqn:Hok; cbn [negb].
    + destruct (Z.ltb_spec i (n - 1)) as [Hmid | Hlast].
      * destruct (IH (i + 1) ((log ++ [enc]) ++ [comma])%list ltac:(lia))
          as (body & -> & Hhead & Hsep & Henc).
        assert (Hbody : body <> []).
        { destruct rest as [|r2 rest2]; [simpl in Hn; lia|].
          destruct Hhead as [post ->]. discriminate. }
        exists (enc :: comma :: body). rewrite <- !app_assoc. cbn [app].
        split; [reflexivity|]. split; [eexists; reflexivity|]. split.
        -- intros pre post Hsplit. destruct pre as [|x pre]; [discriminate|].
           injection Hsplit as <- Hsplit. destruct pre as [|y pre].
           ++ injection Hsplit as <-. split; [exact Hbody|].
              exists [], r. rewrite app_nil_r. split; [reflexivity | exact Hok].
           ++ injection Hsplit as <- Hsplit.
              destruct (Hsep pre post Hsplit) as (Hpost & pre' & r' & -> & Hr').
              split; [exact Hpost|]. exists (enc :: comma :: pre'), r'.
              split; [reflexivity|]. rewrite <- !app_assoc in Hr'. exact Hr'.
        -- intros pre r0 post Hsplit Hpost. destruct pre as [|x pre].
           ++ injection Hsplit as <- <-. rewrite app_nil_r. fold enc. rewrite Hok.
              eexists. reflexivity.
           ++ injection Hsplit as <- Hsplit. destruct pre as [|y pre]; [discriminate|].
              injection Hsplit as <- Hsplit.
              pose proof (Henc pre r0 post Hsplit Hpost) as Hnext.
              rewrite <- !app_assoc in Hnext. exact Hnext.
      * assert (rest = []) by (destruct rest; [reflexivity | simpl in Hn; lia]). subst rest.
        exists [enc]. cbn [writeLoop]. split; [reflexivity|].
        split; [eexists; reflexivity|]. split.
        -- intros [|x [|y pre]] post Hsplit; discriminate.
        -- intros [|x [|y pre]] r0 post Hsplit Hpost; try discriminate.
           injection Hsplit as _ <-. congruence.
    + destruct (IH (i + 1) (log ++ [enc])%list ltac:(lia))
        as (body & -> & Hhead & Hsep & Henc).
      exists (enc :: body). rewrite <- !app_assoc. cbn [app].
      split; [reflexivity|]. split; [eexists; reflexivity|]. split.
      * intros pre post Hsplit. destruct pre as [|x pre]; [discriminate|].
        injection Hsplit as <- Hsplit.
        destruct (Hsep pre post Hsplit) as (Hpost & pre' & r' & -> & Hr').
        split; [exact Hpost|]. exists (enc :: pre'), r'.
        split; [reflexivity|]. rewrite <- !app_assoc in Hr'. exact Hr'.
      * intros pre r0 post Hsplit Hpost. destruct pre as [|x pre].
        -- injection Hsplit as <- <-. rewrite app_nil_r. fold enc. rewrite Hok.
           destruct rest as [|r2 rest2]; [congruence|].
           destruct Hhead as [post' ->]. eexists _, _. reflexivity.
        -- injection Hsplit as <- Hsplit.
           pose proof (Henc pre r0 post Hsplit Hpost) as Hnext.
           rewrite <- !app_assoc in Hnext. exact Hnext.
Qed.

End Separators.

(** X16. Whatever fails, [writeResultsToFile] asks for the file to be
    created first; if that fails it does nothing more. Otherwise it writes
    the opening bracket, hands every result to the encoder once, in order,
    whether or not an earlier one failed, then writes the closing bracket
    and closes the file. A separator is written directly after an encoding
    that succeeded and is not the last, and nowhere else: after an encoding
    that failed, the next result is encoded at once. *)
Theorem write_goes_on_after_a_failed_encoding
    (succeeds : list FileOp -> FileOp -> bool)
    (filename : string) (results : list CORSResult) (log : list FileOp) :
  let opened := (log ++ [OpCreate filename; OpWrite filename (String "[" nl)])%list in
  let comma := OpWrite filename (String "," nl) in
  (succeeds log (OpCreate filename) = false ->
     writeResultsToFile succeeds filename results log = (log ++ [OpCreate filename])%list)
  /\ (succeeds log (OpCreate filename) = true ->
      exists body,
        writeResultsToFile succeeds filename results log
        = (log ++ [OpCreate filename; OpWrite filename (String "[" nl)] ++ body
               ++ [OpWrite filename (String "]" nl); OpClose filename])%list
        /\ encodesOf filename body = results
        /\ Forall (isBodyOp filename) body
        /\ (length body <= 2 * length results - 1)%nat
        /\ last body = OpEncode filename <$> last results
        /\ (forall pre post,
              body = (pre ++ comma :: post)%list ->
              post <> []
              /\ exists pre' r,
                   pre = (pre' ++ [OpEncode filename r])%list
                   /\ succeeds (opened ++ pre')%list (OpEncode filename r) = true)
        /\ (forall pre r post,
              body = (pre ++ OpEncode filename r :: post)%list ->
              post <> [] ->
              if succeeds (opened ++ pre)%list (OpEncode filename r)
              then exists post', post = comma :: post'
              else exists r' post', post = OpEncode filename r' :: post')).
Proof.
  intros opened comma. unfold writeResultsToFile. cbv zeta.
  split; intros ->; cbn [negb]; [reflexivity|].
  assert (Hopened : ((log ++ [OpCreate filename]) ++ [OpWrite filename (String "[" nl)])%list
                    = opened) by (subst opened; rewrite <- app_assoc; reflexivity).
  rewrite Hopened.
  destruct (writeLoop_body succeeds filename (Z.of_nat (length results)) 0 results
              opened ltac:(lia)) as (body & Hloop & Henc & _ & Hall & Hlen & Hlast).
  destruct (writeLoop_placed succeeds filename (Z.of_nat (length results)) 0 results
              opened ltac:(lia)) as (body' & Hloop' & _ & Hsep & Hnext).
  assert (body' = body) by (rewrite Hloop in Hloop'; apply app_inv_head in Hloop'; auto).
  subst body'. rewrite Hloop. exists body.
  split; [subst opened; rewrite <- !app_assoc; reflexivity|].
  repeat (split; [assumption|]). exact Hnext.
Qed.

Section Saving.

Variable succeeds : list FileOp -> FileOp -> bool.

Lemma saveBucket_creates c b log :
  createsOf (saveBucket succeeds c b log)
  = (createsOf log ++ if holdsSome b c then [fileName c] else [])%list.
Proof.
  unfold saveBucket, holdsSome. destruct (0 <? _).
  - apply writeResultsToFile_creates.
  - symmetry. apply app_nil_r.
Qed.

Lemma saveBuckets_creates b log :
  createsOf (saveBuckets succeeds b log)
  = (createsOf log ++ map fileName (List.filter (holdsSome b) categories))%list.
Proof.
  unfold saveBuckets. rewrite !saveBucket_creates. unfold categories. cbn [List.filter].
  destruct (holdsSome b NullOrigin), (holdsSome b WildcardOrigin),
    (holdsSome b SameDomain), (holdsSome b DifferentDomain);
    cbn [map app]; rewrite <- ?app_assoc; cbn [app]; rewrite ?app_nil_r; reflexivity.
Qed.

Lemma encodesOf_other name name' body :
  Forall (isBodyOp name') body -> String.eqb name' name = false -> encodesOf name body = [].
Proof.
  intros Hall Hne. induction Hall as [|op body Hop _ IH]; [reflexivity|].
  cbn [encodesOf flat_map]. fold (encodesOf name body). rewrite IH.
  destruct Hop as [[r ->] | ->]; [rewrite Hne|]; reflexivity.
Qed.

Lemma writeResultsToFile_encodes name name' results log :
  (forall l op, succeeds l op = true) ->
  encodesOf name (writeResultsToFile succeeds name' results log)
  = (encodesOf name log ++ if String.eqb name' name then results else [])%list.
Proof.
  intros Hok. unfold writeResultsToFile. cbv zeta. rewrite Hok. cbn [negb].
  destruct (writeLoop_body succeeds name' (Z.of_nat (length results)) 0 results
              ((log ++ [OpCreate name']) ++ [OpWrite name' (String "[" nl)]) ltac:(lia))
    as (body & -> & Henc & _ & Hall & _).
  rewrite !encodesOf_app. cbn [encodesOf flat_map app]. rewrite !app_nil_r.
  fold (encodesOf name body). f_equal.
  destruct (String.eqb name' name) eqn:Hn.
  - apply String.eqb_eq in Hn. subst name'. exact Henc.
  - apply (encodesOf_other name name' body Hall Hn).
Qed.

Lemma saveBucket_encodes c c' b log :
  (forall l op, succeeds l op = true) ->
  encodesOf (fileName c) (saveBucket succeeds c' b log)
  = (encodesOf (fileName c) log
     ++ if String.eqb (fileName c') (fileName c) then bucket c' b else [])%list.
Proof.
  intros Hok. unfold saveBucket. destruct (Z.ltb_spec 0 (Z.of_nat (length (bucket c' b)))).
  - apply writeResultsToFile_encodes, Hok.
  - destruct (bucket c' b); [|simpl in *; lia].
    destruct (String.eqb _ _); symmetry; apply app_nil_r.
Qed.

Lemma saveBuckets_encodes c b :
  (forall l op, succeeds l op = true) ->
  encodesOf (fileName c) (saveBuckets succeeds b []) = bucket c b.
Proof.
  intros Hok. unfold saveBuckets. rewrite !(saveBucket_encodes c _ b _ Hok).
  destruct c; cbn; rewrite ?app_nil_r; reflexivity.
Qed.

Lemma holdsSome_existsb b c l :
  bucket c b = List.filter (inCategory c) l -> holdsSome b c = existsb (inCategory c) l.
Proof.
  intros H. unfold holdsSome. rewrite H. clear H.
  induction l as [|r l IH]; [reflexivity|].
  cbn [List.filter existsb]. destruct (inCategory c r); [reflexivity | exact IH].
Qed.

End Saving.

(** X17. At the end of [main] a file is created for a category exactly when
    at least one received result was filed under it, in the order null,
    wildcard, same domain, different domain; with no result received, the
    file system is not touched. When nothing fails, each file is handed the
    received results of its category, in the order they were received. *)
Theorem files_are_created_for_the_categories_found
    {W : Type} (E : Env)
    (serve : W -> http.Client -> http.Request -> W * option http.Response)
    (to : Z) (urlList : list string) (concurrency : Z) (w0 : W) (s : Pool W)
    (succeeds : list FileOp -> FileOp -> bool) :
  reachable E serve to urlList concurrency w0 s ->
  let log := saveBuckets succeeds (buckets s) [] in
  createsOf log
  = map fileName
      (List.filter (fun c => existsb (inCategory c) (output (hist s))) categories)
  /\ (output (hist s) = [] -> log = [])
  /\ ((forall l op, succeeds l op = true) ->
      forall c, encodesOf (fileName c) log = List.filter (inCategory c) (output (hist s))).
Proof.
  intros Hreach log. subst log.
  destruct (reachable_Inv E serve to urlList concurrency w0 s Hreach) as [gs HInv].
  pose proof (inv_buckets _ _ _ _ _ HInv) as Hb.
  split; [|split].
  - rewrite saveBuckets_creates. cbn [createsOf flat_map app]. f_equal.
    unfold categories. cbn [List.filter].
    rewrite !(holdsSome_existsb _ _ _ (Hb _)). reflexivity.
  - intros Hnone. unfold saveBuckets, saveBucket.
    rewrite !Hb, Hnone. reflexivity.
  - intros Hok c. rewrite (saveBuckets_encodes succeeds c _ Hok). apply Hb.
Qed.

Lemma files_are_created_for_the_categories_found_witness :
  exists s,
    reachable Sample.env (stateless Sample.mixed) 10 sampleUrls 2 tt s /\ finished s
    /\ createsOf (saveBuckets sound (buckets s) [])
       = map fileName
           (List.filter (fun c => existsb (inCategory c) (output (hist s))) categories).
Proof.
  destruct sample_pool_finishes as (s & Hreach & Hfin).
  exists s. split; [exact Hreach|]. split; [exact Hfin|].
  exact (proj1 (files_are_created_for_the_categories_found Sample.env
                  (stateless Sample.mixed) 10 sampleUrls 2 tt s sound Hreach)).
Defined.

Section SavingBytes.

Variable succeeds : list FileOp -> FileOp -> bool.
Variable marshal : CORSResult -> string.

Lemma bytesWritten_other name name' body :
  Forall (isBodyOp name') body -> String.eqb name' name = false ->
  bytesWritten marshal name body = "".
Proof.
  intros Hall Hne. induction Hall as [|op body Hop _ IH]; [reflexivity|].
  cbn [bytesWritten fold_right]. fold (bytesWritten marshal name body). rewrite IH.
  destruct Hop as [[r ->] | ->]; cbn [bytesOf]; rewrite Hne; reflexivity.
Qed.

Lemma writeResultsToFile_bytes name name' results log :
  (forall l op, succeeds l op = true) ->
  bytesWritten marshal name (writeResultsToFile succeeds name' results log)
  = bytesWritten marshal name log
    ++ if String.eqb name' name then arrayText marshal results else "".
Proof.
  intros Hok. unfold writeResultsToFile. cbv zeta. rewrite Hok. cbn [negb].
  destruct (writeLoop_all_succeed succeeds marshal name' (Z.of_nat (length results)) 0
              results ((log ++ [OpCreate name']) ++ [OpWrite name' (String "[" nl)])
              Hok ltac:(lia)) as (body & Hloop & Hbytes).
  destruct (writeLoop_body succeeds name' (Z.of_nat (length results)) 0 results
              ((log ++ [OpCreate name']) ++ [OpWrite name' (String "[" nl)])
              ltac:(lia)) as (body' & Hloop' & _ & _ & Hall & _).
  assert (body' = body) by (rewrite Hloop in Hloop'; apply app_inv_head in Hloop'; auto).
  subst body'. rewrite Hloop. rewrite !bytesWritten_app.
  rewrite !string_app_assoc. f_equal.
  cbn [bytesWritten fold_right bytesOf].
  fold (bytesWritten marshal name body).
  destruct (String.eqb name' name) eqn:Hn.
  - apply String.eqb_eq in Hn. subst name'. rewrite Hbytes.
    unfold arrayText. rewrite !string_app_nil_r. reflexivity.
  - rewrite (bytesWritten_other name name' body Hall Hn). reflexivity.
Qed.

End SavingBytes.

(** X18. The earlier revision of [main] writes all four files, in the order
    null, wildcard, same domain, different domain, whatever the buckets hold
    and whatever fails. When nothing fails each file holds the array of its
    bucket, so the file of an empty bucket holds the two brackets. *)
Theorem earlier_revision_writes_all_four_files
    (succeeds : list FileOp -> FileOp -> bool) (marshal : CORSResult -> string)
    (b : Buckets) :
  createsOf (saveBuckets_v1 succeeds b []) = map fileName categories
  /\ ((forall l op, succeeds l op = true) ->
      forall c,
        bytesWritten marshal (fileName c) (saveBuckets_v1 succeeds b [])
        = arrayText marshal (bucket c b)
        /\ (bucket c b = [] ->
            bytesWritten marshal (fileName c) (saveBuckets_v1 succeeds b [])
            = String "[" nl ++ String "]" nl)).
Proof.
  split.
  - unfold saveBuckets_v1. rewrite !writeResultsToFile_creates. reflexivity.
  - intros Hok c.
    assert (Hc : bytesWritten marshal (fileName c) (saveBuckets_v1 succeeds b [])
                 = arrayText marshal (bucket c b)).
    { unfold saveBuckets_v1. rewrite !(writeResultsToFile_bytes succeeds marshal _ _ _ _ Hok).
      destruct c; cbn [fileName String.eqb Ascii.eqb Bool.eqb bytesWritten fold_right];
        rewrite ?string_app_nil_r; reflexivity. }
    split; [exact Hc|]. intros Hnone. rewrite Hc, Hnone. reflexivity.
Qed.

(** ** The URL list *)


Section Lines.

Import gostrings.

Variable sep : ascii.

Lemma Index_byte_cons c s :
  Index (String c s) (String sep "")
  = if Ascii.eqb c sep then Some O else S <$> Index s (String sep "").
Proof.
  cbn [Index HasPrefix]. rewrite HasPrefix_nil, andb_true_r, (Ascii.eqb_sym sep c).
  reflexivity.
Qed.

Lemma Index_byte_lt s m : Index s (String sep "") = Some m -> (m < String.length s)%nat.
Proof.
  revert m. induction s as [|c s IH]; intros m.
  - discriminate.
  - rewrite Index_byte_cons. destruct (Ascii.eqb c sep).
    + intros [= <-]. simpl. lia.
    + destruct (Index s (String sep "")) as [i|]; [|discriminate].
      intros [= <-]. specialize (IH i eq_refl). simpl. lia.
Qed.

Lemma countByte_Index_None s :
  Index s (String sep "") = None -> countByte sep s = O /\ piecesAt sep s = [s].
Proof.
  induction s as [|c s IH].
  - auto.
  - rewrite Index_byte_cons. simpl. destruct (Ascii.eqb c sep); [discriminate|].
    destruct (Index s (String sep "")); [discriminate|]. intros _.
    destruct (IH eq_refl) as [-> ->]. auto.
Qed.

Lemma countByte_Index_Some s m :
  Index s (String sep "") = Some m ->
  countByte sep s = S (countByte sep (drop (m + 1) s))
  /\ piecesAt sep s = take m s :: piecesAt sep (drop (m + 1) s).
Proof.
  revert m. induction s as [|c s IH]; intros m.
  - discriminate.
  - rewrite Index_byte_cons. simpl countByte. simpl piecesAt.
    destruct (Ascii.eqb c sep).
    + intros [= <-]. auto.
    + destruct (Index s (String sep "")) as [i|]; [|discriminate].
      intros [= <-]. destruct (IH i eq_refl) as [-> ->]. auto.
Qed.

Lemma Count_loop_byte rounds s :
  (String.length s <= rounds)%nat -> Count_loop rounds s (String sep "") = countByte sep s.
Proof.
  revert s. induction rounds as [|rounds IH]; intros s Hlen.
  - destruct s; [reflexivity | simpl in Hlen; lia].
  - cbn [Count_loop]. destruct (Index s (String sep "")) as [m|] eqn:Hi.
    + destruct (countByte_Index_Some _ _ Hi) as [-> _].
      cbn [String.length]. rewrite IH; [reflexivity|].
      apply Index_byte_lt in Hi. rewrite length_drop. lia.
    + symmetry. apply countByte_Index_None, Hi.
Qed.

Lemma genSplit_byte cuts s :
  cuts = countByte sep s -> genSplit cuts s (String sep "") = piecesAt sep s.
Proof.
  revert s. induction cuts as [|cuts IH]; intros s Hc; cbn [genSplit].
  - destruct (Index s (String sep "")) as [m|] eqn:Hi.
    + destruct (countByte_Index_Some _ _ Hi) as [Hs _]. congruence.
    + symmetry. apply countByte_Index_None, Hi.
  - destruct (Index s (String sep "")) as [m|] eqn:Hi.
    + destruct (countByte_Index_Some _ _ Hi) as [Hs ->]. cbn [String.length].
      rewrite IH; [reflexivity | congruence].
    + symmetry. apply countByte_Index_None, Hi.
Qed.

Lemma Split_byte s : Split s (String sep "") = piecesAt sep s.
Proof.
  unfold Split, Count. apply genSplit_byte, Count_loop_byte. lia.
Qed.

Lemma piecesAt_nonempty s : piecesAt sep s <> [].
Proof.
  destruct s as [|c s]; simpl; [discriminate|].
  destruct (Ascii.eqb c sep); [discriminate|].
  destruct (piecesAt sep s); discriminate.
Qed.

Lemma piecesAt_length s : length (piecesAt sep s) = S (countByte sep s).
Proof.
  induction s as [|c s IH]; simpl; [reflexivity|].
  destruct (Ascii.eqb c sep); simpl; [congruence|].
  destruct (piecesAt sep s); simpl in *; congruence.
Qed.

Lemma joinWith_cons x y l :
  joinWith sep (x :: y :: l) = x ++ String sep (joinWith sep (y :: l)).
Proof. reflexivity. Qed.

Lemma piecesAt_join s : joinWith sep (piecesAt sep s) = s.
Proof.
  induction s as [|c s IH]; simpl; [reflexivity|].
  destruct (Ascii.eqb c sep) eqn:Hc.
  - apply Ascii.eqb_eq in Hc. subst c.
    pose proof (piecesAt_nonempty s).
    destruct (piecesAt sep s) as [|p ps]; [congruence|].
    rewrite joinWith_cons, IH. reflexivity.
  - destruct (piecesAt sep s) as [|p [|q ps]].
    + simpl in IH. subst s. reflexivity.
    + simpl in *. subst. reflexivity.
    + rewrite joinWith_cons in *. rewrite <- IH. reflexivity.
Qed.

Lemma piecesAt_no_sep s : Forall (fun p => countByte sep p = O) (piecesAt sep s).
Proof.
  induction s as [|c s IH]; simpl.
  - repeat constructor.
  - destruct (Ascii.eqb c sep) eqn:Hc.
    + constructor; [reflexivity | exact IH].
    + destruct (piecesAt sep s) as [|p ps].
      * repeat constructor. simpl. rewrite Hc. reflexivity.
      * inversion IH; subst. constructor; [|assumption].
        simpl. rewrite Hc. assumption.
Qed.

Lemma piecesAt_first s c :
  firstByte s = Some c -> Ascii.eqb c sep = false ->
  nonblank (hd "" (piecesAt sep s)) = true.
Proof.
  destruct s as [|a s]; [discriminate|]. intros [= ->] Hc. cbn [piecesAt]. rewrite Hc.
  destruct (piecesAt sep s); reflexivity.
Qed.

Lemma piecesAt_last s c :
  lastByte s = Some c -> Ascii.eqb c sep = false ->
  nonblank (List.last (piecesAt sep s) "") = true.
Proof.
  intros Hl Hc. induction s as [|a s IH]; [discriminate|].
  cbn [piecesAt]. pose proof (piecesAt_nonempty s) as Hne.
  destruct s as [|b s].
  - injection Hl as ->. rewrite Hc. reflexivity.
  - change (lastByte (String a (String b s))) with (lastByte (String b s)) in Hl.
    specialize (IH Hl).
    destruct (Ascii.eqb a sep).
    + destruct (piecesAt sep (String b s)) as [|p ps]; [congruence|]. exact IH.
    + destruct (piecesAt sep (String b s)) as [|p [|q ps]]; [congruence| |exact IH].
      reflexivity.
Qed.

End Lines.

Section Trimming.

Lemma skipFront_ascii s :
  isASCII s = true ->
  exists l rest,
    skipFront s = Plain rest /\ s = l ++ rest /\ allBytes asciiSpace l = true
    /\ isASCII rest = true
    /\ (forall c, firstByte rest = Some c -> asciiSpace c = false).
Proof.
  induction s as [|c s IH]; intros Ha.
  - exists "", "". repeat split; auto. discriminate.
  - cbn [isASCII allBytes] in Ha. apply andb_true_iff in Ha as [Hc Hs].
    cbn [skipFront]. apply Z.ltb_lt in Hc.
    destruct (Z.leb_spec RuneSelf (strconv.byte c)); [lia|].
    destruct (asciiSpace c) eqn:Hsp; cbn [negb].
    + destruct (IH Hs) as (l & rest & -> & -> & Hl & Hr & Hf).
      exists (String c l), rest. repeat split; auto.
      cbn [allBytes]. rewrite Hsp, Hl. reflexivity.
    + exists "", (String c s). repeat split; auto.
      * cbn [isASCII allBytes]. apply andb_true_iff. split; [apply Z.ltb_lt; lia | exact Hs].
      * intros c' [= <-]. exact Hsp.
Qed.

Lemma lastByte_cons c s : s <> "" -> lastByte (String c s) = lastByte s.
Proof. destruct s; [congruence | reflexivity]. Qed.

Lemma skipBack_ascii s :
  isASCII s = true ->
  exists kept r,
    skipBack s = Plain kept /\ s = kept ++ r /\ allBytes asciiSpace r = true
    /\ (forall c, lastByte kept = Some c -> asciiSpace c = false)
    /\ (kept <> "" -> firstByte kept = firstByte s).
Proof.
  induction s as [|c s IH]; intros Ha.
  - exists "", "". repeat split; auto. discriminate.
  - cbn [isASCII allBytes] in Ha. apply andb_true_iff in Ha as [Hc Hs].
    apply Z.ltb_lt in Hc.
    destruct (IH Hs) as (kept & r & Hk & -> & Hr & Hlast & Hfirst).
    cbn [skipBack]. rewrite Hk. destruct kept as [|k kept].
    + destruct (Z.leb_spec RuneSelf (strconv.byte c)); [lia|].
      destruct (asciiSpace c) eqn:Hsp; cbn [negb].
      * exists "", (String c r). repeat split; auto; [|congruence].
        cbn [allBytes]. rewrite Hsp. exact Hr.
      * exists (String c ""), r. repeat split; auto.
        intros c' [= <-]. exact Hsp.
    + exists (String c (String k kept)), r. repeat split; auto.
Qed.

End Trimming.

Section UrlList.

Variable tf trf : string -> string.

Lemma allBytes_app P a b : allBytes P (a ++ b) = allBytes P a && allBytes P b.
Proof.
  induction a as [|c a IH]; [reflexivity|].
  change (allBytes P (String c (a ++ b)) = allBytes P (String c a) && allBytes P b).
  cbn [allBytes]. rewrite IH. apply andb_assoc.
Qed.

Lemma spaces_are_ascii s : allBytes asciiSpace s = true -> isASCII s = true.
Proof.
  induction s as [|c s IH]; [reflexivity|]. cbn [isASCII allBytes].
  intros [Hc Hs]%andb_true_iff. apply andb_true_iff. split; [|exact (IH Hs)].
  unfold asciiSpace, RuneSelf in *. cbv zeta in Hc. apply Z.ltb_lt.
  repeat (apply orb_true_iff in Hc as [Hc | Hc]); apply Z.eqb_eq in Hc; lia.
Qed.

Lemma newline_is_space c : asciiSpace c = false -> Ascii.eqb c newline = false.
Proof.
  intros Hc. destruct (Ascii.eqb c newline) eqn:He; [|reflexivity].
  apply Ascii.eqb_eq in He. subst c. discriminate.
Qed.

Lemma urlList_lines content :
  urlList tf trf content = piecesAt newline (TrimSpace tf trf content).
Proof. unfold urlList. apply (Split_byte newline). Qed.

Lemma TrimSpace_ascii content :
  isASCII content = true ->
  exists l r,
    content = l ++ TrimSpace tf trf content ++ r
    /\ allBytes asciiSpace l = true /\ allBytes asciiSpace r = true
    /\ (forall c, firstByte (TrimSpace tf trf content) = Some c -> asciiSpace c = false)
    /\ (forall c, lastByte (TrimSpace tf trf content) = Some c -> asciiSpace c = false).
Proof.
  intros Ha. unfold TrimSpace.
  destruct (skipFront_ascii content Ha) as (l & rest & -> & -> & Hl & Hrest & Hfirst).
  destruct (skipBack_ascii rest Hrest) as (kept & r & -> & -> & Hr & Hlast & Hsame).
  exists l, r. repeat split; auto.
  intros c Hc. apply Hfirst. rewrite <- Hsame; [exact Hc|].
  intros ->. discriminate.
Qed.

Lemma TrimSpace_blank content :
  isASCII content = true ->
  (allBytes asciiSpace content = true -> TrimSpace tf trf content = "")
  /\ (allBytes asciiSpace content = false -> TrimSpace tf trf content <> "").
Proof.
  intros Ha. destruct (TrimSpace_ascii content Ha) as (l & r & Hc & Hl & Hr & Hfirst & _).
  split.
  - intros Hsp. rewrite Hc, !allBytes_app in Hsp.
    apply andb_true_iff in Hsp as [_ [Ht _]%andb_true_iff].
    destruct (TrimSpace tf trf content) as [|c t]; [reflexivity|].
    cbn [allBytes] in Ht. apply andb_true_iff in Ht as [Ht _].
    rewrite (Hfirst c eq_refl) in Ht. discriminate.
  - intros Hsp Ht. rewrite Hc, Ht, !allBytes_app, Hl, Hr in Hsp. discriminate.
Qed.

Lemma lastByte_Some s : s <> "" -> exists c, lastByte s = Some c.
Proof.
  induction s as [|a s IH]; [congruence|]. intros _.
  destruct s as [|b s]; [exists a; reflexivity|].
  destruct IH as [c Hc]; [discriminate|]. exists c. exact Hc.
Qed.

End UrlList.

(** X19. The URL list is never empty: it has one entry more than the
    trimmed content of the file has newlines, so the two channels have room
    for at least one element. No entry contains a newline, and the entries
    joined by newlines are the trimmed content: nothing else is removed from
    a line. *)
Theorem url_list_is_the_lines_of_the_trimmed_content
    (TrimFunc_IsSpace TrimRightFunc_IsSpace : string -> string) (content : string) :
  let trimmed := TrimSpace TrimFunc_IsSpace TrimRightFunc_IsSpace content in
  let l := urlList TrimFunc_IsSpace TrimRightFunc_IsSpace content in
  length l = S (countByte newline trimmed)
  /\ (1 <= Z.of_nat (length l))
  /\ joinWith newline l = trimmed
  /\ Forall (fun u => countByte newline u = O) l.
Proof.
  intros trimmed l. subst l. rewrite urlList_lines. fold trimmed.
  split; [apply piecesAt_length|]. split; [rewrite piecesAt_length; lia|].
  split; [apply piecesAt_join | apply piecesAt_no_sep].
Qed.

(** X20. For a file of ASCII bytes, the trimmed content is the content
    without the white space at its two ends, and nothing else. If the file
    holds white space only (or nothing), the URL list is the one blank
    entry; otherwise its first and its last entry are not blank. *)
Theorem url_list_of_an_ascii_file
    (TrimFunc_IsSpace TrimRightFunc_IsSpace : string -> string) (content : string) :
  isASCII content = true ->
  let trimmed := TrimSpace TrimFunc_IsSpace TrimRightFunc_IsSpace content in
  let l := urlList TrimFunc_IsSpace TrimRightFunc_IsSpace content in
  (exists before after,
      content = before ++ trimmed ++ after
      /\ allBytes asciiSpace before = true /\ allBytes asciiSpace after = true)
  /\ (forall c, firstByte trimmed = Some c -> asciiSpace c = false)
  /\ (forall c, lastByte trimmed = Some c -> asciiSpace c = false)
  /\ (allBytes asciiSpace content = true -> l = [""])
  /\ (allBytes asciiSpace content = false ->
      nonblank (hd "" l) = true /\ nonblank (List.last l "") = true).
Proof.
  intros Ha trimmed l.
  destruct (TrimSpace_ascii TrimFunc_IsSpace TrimRightFunc_IsSpace content Ha)
    as (before & after & Hc & Hb & Haf & Hfirst & Hlast).
  destruct (TrimSpace_blank TrimFunc_IsSpace TrimRightFunc_IsSpace content Ha)
    as [Hblank Hsome].
  fold trimmed in Hc, Hfirst, Hlast, Hblank, Hsome.
  split; [exists before, after; auto|]. split; [exact Hfirst|]. split; [exact Hlast|].
  subst l. rewrite urlList_lines. fold trimmed. split.
  - intros Hsp. rewrite (Hblank Hsp). reflexivity.
  - intros Hsp. specialize (Hsome Hsp). split.
    + destruct trimmed as [|c t] eqn:Ht; [congruence|].
      apply (piecesAt_first newline (String c t) c eq_refl), newline_is_space, Hfirst.
      reflexivity.
    + destruct (lastByte_Some trimmed Hsome) as [c Hl].
      apply (piecesAt_last newline _ c Hl), newline_is_space, Hlast, Hl.
Qed.

Lemma url_list_of_an_ascii_file_witness :
  let content :=
    String " " (String newline ("http://a.example" ++ String "013" (String newline
      (String newline ("http://b.example" ++ String newline (String "009" "")))))) in
  let l := urlList (fun s => s) (fun s => s) content in
  isASCII content = true
  /\ nonblank (hd "" l) = true /\ nonblank (List.last l "") = true.
Proof.
  intros content l. split; [reflexivity|].
  exact (proj2 (proj2 (proj2 (proj2
           (url_list_of_an_ascii_file (fun s => s) (fun s => s) content eq_refl))))
           eq_refl).
Defined.

(** Some run of the pool reaches the end of the collecting loop. *)
Lemma some_run_finishes
    {W : Type} (E : Env)
    (serve : W -> http.Client -> http.Request -> W * option http.Response)
    (to : Z) (urlList : list string) (concurrency : Z) (w0 : W) :
  exists s, reachable E serve to urlList concurrency w0 s /\ finished s.
Proof.
  destruct (Inv_terminates E serve to urlList concurrency _
              (init urlList concurrency w0) _ 0%nat (init urlList concurrency w0) (le_n _)
              (init_Inv E urlList concurrency w0) (steps_O _ _ _ _ _))
    as (n & s & Hsteps & Hfin).
  exists s. split; [exists n; exact Hsteps | exact Hfin].
Qed.

(** X21. A file that holds nothing but ASCII white space (tabs, newlines,
    vertical tabs, form feeds, carriage returns, spaces) or nothing at all
    makes the tool probe nothing: no URL is handed to [checkCORS], no
    result is sent or received, and no file is written at the end. *)
Theorem blank_file_probes_nothing
    {W : Type} (E : Env)
    (serve : W -> http.Client -> http.Request -> W * option http.Response)
    (TrimFunc_IsSpace TrimRightFunc_IsSpace : string -> string)
    (to : Z) (content : string) (concurrency : Z) (w0 : W) (s : Pool W)
    (succeeds : list FileOp -> FileOp -> bool) :
  allBytes asciiSpace content = true ->
  reachable E serve to (urlList TrimFunc_IsSpace TrimRightFunc_IsSpace content)
    concurrency w0 s ->
  probed (hist s) = [] /\ sentLog (hist s) = [] /\ output (hist s) = []
  /\ saveBuckets succeeds (buckets s) [] = [].
Proof.
  intros Hsp Hreach.
  destruct (reachable_Inv E serve to _ concurrency w0 s Hreach) as [gs HInv].
  pose proof (inv_urls _ _ _ _ _ HInv) as Hurls.
  pose proof (inv_owed _ _ _ _ _ HInv) as Howed.
  pose proof (inv_results _ _ _ _ _ HInv) as Hres.
  pose proof (inv_buckets _ _ _ _ _ HInv) as Hb.
  rewrite urlList_lines in Hurls.
  rewrite (proj1 (TrimSpace_blank _ _ content (spaces_are_ascii _ Hsp)) Hsp) in Hurls.
  cbn [piecesAt] in Hurls. destruct Hurls as (taken & Hlist & Hperm).
  apply (f_equal (List.filter nonblank)) in Hlist.
  rewrite List.filter_app in Hlist. cbn [List.filter nonblank String.eqb negb] in Hlist.
  symmetry in Hlist. apply app_eq_nil in Hlist as [Htaken _].
  rewrite Htaken in Hperm. apply Permutation_nil_r, app_eq_nil in Hperm as [Hp _].
  rewrite Hp in Howed. apply submseteq_nil_r in Howed.
  apply app_eq_nil in Howed as [Hsent _]. apply map_eq_nil in Hsent.
  rewrite Hsent in Hres. apply app_eq_nil in Hres as [Hout _].
  split; [exact Hp|]. split; [exact Hsent|]. split; [exact Hout|].
  unfold saveBuckets, saveBucket. rewrite !Hb, Hout. reflexivity.
Qed.

Lemma blank_file_probes_nothing_witness :
  let content := String " " (String newline (String "009" (String newline ""))) in
  exists s,
    reachable Sample.env (stateless Sample.mixed) 10
      (urlList (fun s => s) (fun s => s) content) 2 tt s
    /\ finished s /\ probed (hist s) = [] /\ output (hist s) = []
    /\ saveBuckets sound (buckets s) [] = [].
Proof.
  intros content.
  destruct (some_run_finishes Sample.env (stateless Sample.mixed) 10
              (urlList (fun s => s) (fun s => s) content) 2 tt) as (s & Hreach & Hfin).
  exists s. split; [exact Hreach|]. split; [exact Hfin|].
  destruct (blank_file_probes_nothing Sample.env (stateless Sample.mixed)
              (fun s => s) (fun s => s) 10 content 2 tt s sound eq_refl Hreach)
    as (Hp & _ & Hout & Hsave).
  auto.
Defined.
